(** * mkchal: a shallow embedding of [mkchal/mkchal.py]

    The development follows the Python module top to bottom:

    - the data model ([Type], [Challenge]);
    - the part of [pathlib] the module relies on (pure paths, joining,
      [str]) and a POSIX file system as a finite map from absolute
      paths to nodes;
    - an exception-and-state monad in which [create_challenge] is
      written statement by statement;
    - the text producers: [json.dumps] with [indent=4, sort_keys=True],
      [string.Formatter().parse] / [str.format], the Makefile f-string;
    - [main], on top of the options declared with [add_argument].

    Python [str] values are modelled as [string]: a character is a code
    point below 256.  Files opened in text mode hold the text written
    to them.  Symbolic links, permissions and resource limits are not
    part of the file-system model.  Where a run needs behaviour the
    model does not cover (a [".."] path component, a conversion or a
    format spec in a template field) it stops with the outcome
    [Beyond_model], about which nothing is proved. *)

From Stdlib Require Import ZArith Ascii String List Lia Bool.
From Stdlib Require Import DecimalString DecimalZ DecimalPos DecimalFacts.
From stdpp Require Import base gmap strings list.

Local Open Scope string_scope.
Local Open Scope list_scope.

(** ** Data model *)

(** [class Type(str, Enum)] *)
Inductive ChalType := REV | PWN | CRYPTO | WEB | MISC.

Definition value (t : ChalType) : string :=
  match t with
  | REV => "rev"
  | PWN => "pwn"
  | CRYPTO => "crypto"
  | WEB => "web"
  | MISC => "misc"
  end.

(** [@dataclass class Challenge] *)
Record Challenge := mkChallenge {
  type : ChalType;
  name : string;
  author : string;
  description : string;
  difficulty : string;
  flag : string;
  provides : list string;
  ports : list Z;
  remote : option (list string);
  target : option string
}.

(** ** Exceptions *)

Inductive exn :=
| FileExistsError
| FileNotFoundError
| NotADirectoryError
| IsADirectoryError
| InvalidGitRepositoryError
| KeyError (key : string)
| ValueError
| IndexError
| Beyond_model.

Inductive result (A : Type) :=
| Ok (a : A)
| Raise (e : exn).
Arguments Ok {A} a.
Arguments Raise {A} e.

(** ** Pure paths ([pathlib.PurePosixPath])

    A path is its anchor (rooted or not) and its parts.  Parsing a
    string drops empty parts and ["."] parts and keeps [".."] parts,
    as [pathlib] does; two leading slashes are read as one. *)

Record Path := mkPath { anchored : bool; parts : list string }.

Definition slash : ascii := "/"%char.

Fixpoint split_slash (s : string) : list string :=
  match s with
  | EmptyString => [EmptyString]
  | String c r =>
      if Ascii.eqb c slash then EmptyString :: split_slash r
      else match split_slash r with
           | [] => [String c EmptyString]
           | h :: t => String c h :: t
           end
  end.

Definition keep_part (p : string) : bool :=
  negb (String.eqb p "") && negb (String.eqb p ".").

Definition starts_with_slash (s : string) : bool :=
  match s with
  | String c _ => Ascii.eqb c slash
  | EmptyString => false
  end.

(** [Path(s)] *)
Definition Path_of (s : string) : Path :=
  {| anchored := starts_with_slash s;
     parts := List.filter keep_part (split_slash s) |}.

(** [p / s]: an absolute right operand replaces the left one. *)
Definition joinpath (p : Path) (s : string) : Path :=
  let q := Path_of s in
  if anchored q then q
  else {| anchored := anchored p; parts := parts p ++ parts q |}.

(** [str(p)] *)
Definition path_str (p : Path) : string :=
  match anchored p, parts p with
  | false, [] => "."
  | false, ps => String.concat "/" ps
  | true, ps => "/" +:+ String.concat "/" ps
  end.

(** ** File system *)

Inductive node :=
| Dir
| File (content : string).

(** Keys are absolute paths, as the list of their components. *)
Abbreviation key := (list string).
Abbreviation fsmap := (gmap (list string) node).

(** What the module does to the outside world, in order. *)
Inductive event :=
| RepoLookup
| Mkdir (k : key)
| OpenW (k : key)
| WriteText (k : key)
| ReadTemplates.

Record world := mkWorld { files : fsmap; trace : list event }.

(** The surroundings of one run: the working directory and the
    [templates/deploy] directory shipped next to the module ([None]
    when it does not exist); its entries are only read. *)
Record env := mkEnv {
  cwd : key;
  template_dir : option (list (string * node))
}.

Definition M (A : Type) : Type := world -> world * result A.

Definition ret {A} (a : A) : M A := fun w => (w, Ok a).
Definition raise {A} (e : exn) : M A := fun w => (w, Raise e).
Definition bind {A B} (m : M A) (f : A -> M B) : M B :=
  fun w => match m w with
           | (w', Ok a) => f a w'
           | (w', Raise e) => (w', Raise e)
           end.

Declare Scope py_scope.
Delimit Scope py_scope with py.
Notation "x <- m ;; k" := (bind m (fun x => k))
  (at level 100, m at next level, right associativity) : py_scope.
Notation "m ;;; k" := (bind m (fun _ => k))
  (at level 100, right associativity) : py_scope.
Local Open Scope py_scope.

Definition log (e : event) : M unit :=
  fun w => ({| files := files w; trace := trace w ++ [e] |}, Ok tt).
Definition get_files : M fsmap := fun w => (w, Ok (files w)).
Definition set_files (m : fsmap) : M unit :=
  fun w => ({| files := m; trace := trace w |}, Ok tt).

(** A part the model can resolve: an ordinary name.  A [".."] part, or
    a part with a NUL character, stops the run with [Beyond_model]. *)
Fixpoint has_nul (s : string) : bool :=
  match s with
  | EmptyString => false
  | String c r => Ascii.eqb c zero || has_nul r
  end.

Definition plain_part (p : string) : bool :=
  negb (String.eqb p "..") && negb (has_nul p).

Definition resolve (E : env) (p : Path) : option key :=
  if forallb plain_part (parts p)
  then Some ((if anchored p then [] else cwd E) ++ parts p)
  else None.

Definition resolved (E : env) (p : Path) : M key :=
  match resolve E p with
  | Some k => ret k
  | None => raise Beyond_model
  end.

(** The root directory always exists. *)
Definition stat (m : fsmap) (k : key) : option node :=
  match k with
  | [] => Some Dir
  | _ => m !! k
  end.

Definition parent (k : key) : key := removelast k.

Definition is_file (o : option node) : bool :=
  match o with
  | Some (File _) => true
  | _ => false
  end.

Definition present (o : option node) : bool :=
  match o with
  | Some _ => true
  | None => false
  end.

(** Some proper ancestor of [k] is a regular file. *)
Fixpoint file_above (m : fsmap) (pre : key) (k : key) : bool :=
  match k with
  | [] => false
  | x :: r => is_file (stat m pre) || file_above m (pre ++ [x]) r
  end.

(** [p.exists()] *)
Definition path_exists (E : env) (p : Path) : M bool :=
  k <- resolved E p ;;
  m <- get_files ;;
  ret (present (stat m k)).

(** [os.mkdir(k)] *)
Definition os_mkdir (k : key) : M unit :=
  log (Mkdir k) ;;;
  m <- get_files ;;
  match stat m k with
  | Some _ => raise FileExistsError
  | None =>
      match stat m (parent k) with
      | Some Dir => set_files (<[k := Dir]> m)
      | Some (File _) => raise NotADirectoryError
      | None =>
          if file_above m [] k then raise NotADirectoryError
          else raise FileNotFoundError
      end
  end.

(** [p.mkdir()] *)
Definition mkdir (E : env) (p : Path) : M unit :=
  k <- resolved E p ;;
  os_mkdir k.

Definition is_dir (o : option node) : bool :=
  match o with
  | Some Dir => true
  | _ => false
  end.

(** The handler [except OSError: if not exist_ok or not self.is_dir():
    raise]. *)
Definition except_exist_ok (ok : bool) (k : key) (w : world) (e : exn)
  : world * result unit :=
  if ok && is_dir (stat (files w) k) then (w, Ok tt) else (w, Raise e).

(** [Path.mkdir(parents=True, exist_ok=ok)], by recursion on the key
    read from its last component: on [FileNotFoundError] the parent is
    made with [exist_ok=True] and the directory is tried again; any
    other [OSError] is swallowed only under [exist_ok] when the path
    is a directory. *)
Fixpoint mkdir_parents_from (ok : bool) (rk : key) : M unit :=
  fun w =>
    match os_mkdir (rev rk) w with
    | (w', Ok _) => (w', Ok tt)
    | (w', Raise FileNotFoundError) =>
        match rk with
        | [] => (w', Raise FileNotFoundError)
        | _ :: rp =>
            match mkdir_parents_from true rp w' with
            | (w'', Ok _) =>
                match os_mkdir (rev rk) w'' with
                | (w3, Raise e) => except_exist_ok ok (rev rk) w3 e
                | r => r
                end
            | r => r
            end
        end
    | (w', Raise e) => except_exist_ok ok (rev rk) w' e
    end.

(** [p.mkdir(parents=True)] *)
Definition mkdir_parents (E : env) (p : Path) : M unit :=
  k <- resolved E p ;;
  mkdir_parents_from false (rev k).

(** [p.open("w")]: creates or truncates the file and hands back the
    key the stream writes to. *)
Definition open_w (E : env) (p : Path) : M key :=
  k <- resolved E p ;;
  log (OpenW k) ;;;
  m <- get_files ;;
  match stat m k with
  | Some Dir => raise IsADirectoryError
  | Some (File _) => set_files (<[k := File ""]> m) ;;; ret k
  | None =>
      match stat m (parent k) with
      | Some Dir => set_files (<[k := File ""]> m) ;;; ret k
      | Some (File _) => raise NotADirectoryError
      | None =>
          if file_above m [] k then raise NotADirectoryError
          else raise FileNotFoundError
      end
  end.

(** [f.write(s)] on a stream opened by [open_w]. *)
Definition write (k : key) (s : string) : M unit :=
  log (WriteText k) ;;;
  m <- get_files ;;
  match m !! k with
  | Some (File old) => set_files (<[k := File (old +:+ s)]> m)
  | _ => raise Beyond_model
  end.

(** ** [get_repo]

    [git.Repo(path, search_parent_directories=True)] walks from [path]
    towards the root until a directory holds a [.git] entry, and raises
    [InvalidGitRepositoryError] when none does. *)

Definition has_marker (m : fsmap) (k : key) : bool :=
  present (m !! (k ++ [".git"])).

Fixpoint search_up (m : fsmap) (rk : key) : option key :=
  if has_marker m (rev rk) then Some (rev rk)
  else match rk with
       | [] => None
       | _ :: rp => search_up m rp
       end.

Definition get_repo (E : env) : M Path :=
  log RepoLookup ;;;
  m <- get_files ;;
  match search_up m (rev (cwd E)) with
  | Some k => ret {| anchored := true; parts := k |}
  | None => raise InvalidGitRepositoryError
  end.

(** ** Text: characters, [str(int)], dictionaries *)

Definition dquote : ascii := "034"%char.
Definition NL : string := String "010"%char EmptyString.
Definition TAB : string := String "009"%char EmptyString.

(** [str(z)] for a Python [int]: decimal, with a minus sign. *)
Definition str_int (z : Z) : string := NilZero.string_of_int (Z.to_int z).

(** A [dict] with string keys, in insertion order. *)
Abbreviation dict V := (list (string * V)).

Fixpoint dict_get {V} (k : string) (d : dict V) : option V :=
  match d with
  | [] => None
  | (k', v) :: r => if String.eqb k k' then Some v else dict_get k r
  end.

(** [d[k] = v]: a present key keeps its place. *)
Fixpoint dict_set {V} (k : string) (v : V) (d : dict V) : dict V :=
  match d with
  | [] => [(k, v)]
  | (k', v') :: r =>
      if String.eqb k k' then (k, v) :: r else (k', v') :: dict_set k v r
  end.

(** ** [string.Formatter().parse]

    The generator yields [(literal_text, field_name, format_spec,
    conversion)] tuples and may raise [ValueError] part-way; [parsed]
    is that lazy sequence.  The functions below are the states of
    CPython's markup iterator: literal text, field name, bracketed
    index inside a field name, conversion, format spec. *)

Record field := mkField {
  field_name : string;
  format_spec : string;
  conversion : option ascii
}.

Record item := mkItem { literal_text : string; markup : option field }.

Inductive parsed :=
| PEnd
| PError
| PItem (i : item) (rest : parsed).

(** The character [c] is literal text in front of what follows. *)
Definition prepend (c : ascii) (p : parsed) : parsed :=
  match p with
  | PEnd => PItem (mkItem (String c "") None) PEnd
  | PError => PError
  | PItem i rest => PItem (mkItem (String c (literal_text i)) (markup i)) rest
  end.

Definition snoc (s : string) (c : ascii) : string := s +:+ String c "".

Definition yield_field (n spec : string) (cv : option ascii) (rest : parsed)
  : parsed :=
  PItem (mkItem "" (Some (mkField n spec cv))) rest.

Fixpoint parse (s : string) : parsed :=
  match s with
  | EmptyString => PEnd
  | String c r =>
      if Ascii.eqb c "{" then
        match r with
        | EmptyString => PError
        | String c2 r2 =>
            if Ascii.eqb c2 "{" then PItem (mkItem "{" None) (parse r2)
            else parse_name "" r
        end
      else if Ascii.eqb c "}" then
        match r with
        | EmptyString => PError
        | String c2 r2 =>
            if Ascii.eqb c2 "}" then PItem (mkItem "}" None) (parse r2)
            else PError
        end
      else prepend c (parse r)
  end
with parse_name (acc : string) (s : string) : parsed :=
  match s with
  | EmptyString => PError
  | String c r =>
      if Ascii.eqb c "{" then PError
      else if Ascii.eqb c "[" then parse_index (snoc acc c) r
      else if Ascii.eqb c "}" then yield_field acc "" None (parse r)
      else if Ascii.eqb c ":" then parse_spec acc None "" 0 r
      else if Ascii.eqb c "!" then parse_conv acc r
      else parse_name (snoc acc c) r
  end
with parse_index (acc : string) (s : string) : parsed :=
  match s with
  | EmptyString => PError
  | String c r =>
      if Ascii.eqb c "]" then parse_name (snoc acc c) r
      else parse_index (snoc acc c) r
  end
with parse_conv (acc : string) (s : string) : parsed :=
  match s with
  | EmptyString => PError
  | String cv r =>
      match r with
      | EmptyString => PError
      | String c r' =>
          if Ascii.eqb c "}" then yield_field acc "" (Some cv) (parse r')
          else if Ascii.eqb c ":" then parse_spec acc (Some cv) "" 0 r'
          else PError
      end
  end
with parse_spec (acc : string) (cv : option ascii) (spec : string)
       (depth : nat) (s : string) : parsed :=
  match s with
  | EmptyString => PError
  | String c r =>
      if Ascii.eqb c "{" then parse_spec acc cv (snoc spec c) (S depth) r
      else if Ascii.eqb c "}" then
        match depth with
        | O => yield_field acc spec cv (parse r)
        | S d => parse_spec acc cv (snoc spec c) d r
        end
      else parse_spec acc cv (snoc spec c) depth r
  end.

(** ** The template loop's helpers *)

(** The dict comprehension over [Formatter().parse(template_content)]:
    [all_formatters[t[1]]] is looked up for each field as the generator
    produces it, so the first missing key raises [KeyError] and a
    malformed template raises [ValueError] where the generator gets
    to it. *)
Fixpoint collect (all : dict string) (acc : dict string) (p : parsed)
  : result (dict string) :=
  match p with
  | PEnd => Ok acc
  | PError => Raise ValueError
  | PItem i rest =>
      match markup i with
      | None => collect all acc rest
      | Some f =>
          match dict_get (field_name f) all with
          | None => Raise (KeyError (field_name f))
          | Some v => collect all (dict_set (field_name f) v acc) rest
          end
      end
  end.

Fixpoint all_digits (s : string) : bool :=
  match s with
  | EmptyString => true
  | String c r =>
      (Nat.leb 48 (nat_of_ascii c) && Nat.leb (nat_of_ascii c) 57)
      && all_digits r
  end.

Fixpoint has_char (x : ascii) (s : string) : bool :=
  match s with
  | EmptyString => false
  | String c r => Ascii.eqb c x || has_char x r
  end.

(** The object a replacement field names, for keyword arguments only:
    an empty or numeric name indexes the (empty) positional arguments;
    attribute and index access on the value are outside the model. *)
Definition get_field (n : string) (kw : dict string) : result string :=
  if has_char "." n || has_char "[" n then Raise Beyond_model
  else if all_digits n then Raise IndexError
  else match dict_get n kw with
       | Some v => Ok v
       | None => Raise (KeyError n)
       end.

(** [format(value, spec)] after the conversion, for a [str] value: the
    model covers the plain field and [!s] with an empty spec; an
    unknown conversion is a [ValueError]; [!r], [!a] and non-empty
    specs are outside the model. *)
Definition format_value (v : string) (cv : option ascii) (spec : string)
  : result string :=
  match cv with
  | None => if String.eqb spec "" then Ok v else Raise Beyond_model
  | Some c =>
      if Ascii.eqb c "s" then
        if String.eqb spec "" then Ok v else Raise Beyond_model
      else if Ascii.eqb c "r" || Ascii.eqb c "a" then Raise Beyond_model
      else Raise ValueError
  end.

Fixpoint render (kw : dict string) (p : parsed) : result string :=
  match p with
  | PEnd => Ok ""
  | PError => Raise ValueError
  | PItem i rest =>
      match markup i with
      | None =>
          match render kw rest with
          | Ok r => Ok (literal_text i +:+ r)
          | Raise e => Raise e
          end
      | Some f =>
          match get_field (field_name f) kw with
          | Raise e => Raise e
          | Ok v =>
              match format_value v (conversion f) (format_spec f) with
              | Raise e => Raise e
              | Ok s =>
                  match render kw rest with
                  | Ok r => Ok (literal_text i +:+ s +:+ r)
                  | Raise e => Raise e
                  end
              end
          end
      end
  end.

(** [template.format] with the keyword arguments [kw] *)
Definition format (template : string) (kw : dict string) : result string :=
  render kw (parse template).

Definition lift {A} (r : result A) : M A :=
  match r with
  | Ok a => ret a
  | Raise e => raise e
  end.

(** ** [json.dumps(obj, indent=4, sort_keys=True)] *)

#[local] Set Warnings "-register-all".
Inductive json :=
| JNull
| JInt (z : Z)
| JStr (s : string)
| JArr (l : list json)
| JObj (l : list (string * json)).

Definition hex_digit (n : nat) : ascii :=
  if Nat.ltb n 10 then ascii_of_nat (48 + n) else ascii_of_nat (87 + n).

Definition backslash : ascii := "\"%char.

(** [ensure_ascii] escaping: the quote, the backslash and every
    character outside [' '..'~']. *)
Definition escape_char (c : ascii) : string :=
  let n := nat_of_ascii c in
  if Ascii.eqb c dquote then String backslash (String dquote "")
  else if Ascii.eqb c backslash then String backslash (String backslash "")
  else if Nat.eqb n 10 then String backslash "n"
  else if Nat.eqb n 13 then String backslash "r"
  else if Nat.eqb n 9 then String backslash "t"
  else if Nat.eqb n 8 then String backslash "b"
  else if Nat.eqb n 12 then String backslash "f"
  else if Nat.leb 32 n && Nat.leb n 126 then String c ""
  else String backslash
         (String "u" (String "0" (String "0"
            (String (hex_digit (n / 16)) (String (hex_digit (n mod 16)) ""))))).

Fixpoint escape (s : string) : string :=
  match s with
  | EmptyString => EmptyString
  | String c r => escape_char c +:+ escape r
  end.

Definition encode_str (s : string) : string :=
  String dquote (escape s +:+ String dquote "").

Fixpoint spaces (n : nat) : string :=
  match n with
  | O => ""
  | S k => String " " (spaces k)
  end.

(** A newline, then four spaces per level. *)
Definition newline_indent (level : nat) : string := NL +:+ spaces (4 * level).

(** [sorted(dct.items())]: insertion by key, code-point order. *)
Fixpoint insert_item {V} (kv : string * V) (l : list (string * V))
  : list (string * V) :=
  match l with
  | [] => [kv]
  | kv' :: r =>
      if String.leb (fst kv) (fst kv') then kv :: l
      else kv' :: insert_item kv r
  end.

Definition sorted_items {V} (l : list (string * V)) : list (string * V) :=
  fold_right insert_item [] l.

Definition bracketed (open close : string) (level : nat) (chunks : list string)
  : string :=
  match chunks with
  | [] => open +:+ close
  | _ =>
      open +:+ newline_indent (S level)
      +:+ String.concat ("," +:+ newline_indent (S level)) chunks
      +:+ newline_indent level +:+ close
  end.

Fixpoint encode (level : nat) (v : json) : string :=
  match v with
  | JNull => "null"
  | JInt z => str_int z
  | JStr s => encode_str s
  | JArr l => bracketed "[" "]" level (List.map (encode (S level)) l)
  | JObj l =>
      bracketed "{" "}" level
        (List.map (fun kv => encode_str (fst kv) +:+ ": " +:+ snd kv)
           (sorted_items
              (List.map (fun kv => (fst kv, encode (S level) (snd kv))) l)))
  end.

Definition dumps (v : json) : string := encode 0 v.

Definition json_opt {A} (f : A -> json) (o : option A) : json :=
  match o with
  | Some a => f a
  | None => JNull
  end.

(** [challenge.__dict__], fields in declaration order. *)
Definition to_dict (c : Challenge) : json :=
  JObj [ ("type", JStr (value (type c)));
         ("name", JStr (name c));
         ("author", JStr (author c));
         ("description", JStr (description c));
         ("difficulty", JStr (difficulty c));
         ("flag", JStr (flag c));
         ("provides", JArr (List.map JStr (provides c)));
         ("ports", JArr (List.map JInt (ports c)));
         ("remote", json_opt (fun l => JArr (List.map JStr l)) (remote c));
         ("target", json_opt JStr (target c)) ].

(** ** The generated texts *)

Definition deploy_sh (cmd : list string) : string :=
  "#!/bin/bash" +:+ NL +:+ String.concat " " cmd.

Definition makefile (n : string) : string :=
  "CC=" +:+ NL +:+
  "CXX=" +:+ NL +:+
  "CFLAGS=" +:+ NL +:+
  "CXXFLAGS=" +:+ NL +:+
  "LDFLAGS=" +:+ NL +:+
  NL +:+
  "all: " +:+ n +:+ NL +:+
  NL +:+
  n +:+ ": " +:+ n +:+ ".c" +:+ NL +:+
  TAB +:+ "$(CC) $(CFLAGS) $(LDFLAGS) -o $@ $^" +:+ NL.

(** ** [create_challenge] *)

(** The first loop: every entry of the template directory is opened
    and read into [templates_to_write], keyed by its name. *)
Fixpoint read_entries (entries : list (string * node)) (acc : dict string)
  : result (dict string) :=
  match entries with
  | [] => Ok acc
  | (n, Dir) :: _ => Raise IsADirectoryError
  | (n, File text) :: r => read_entries r (dict_set n text acc)
  end.

Definition read_templates (E : env) : M (dict string) :=
  log ReadTemplates ;;;
  match template_dir E with
  | None => raise FileNotFoundError
  | Some entries => lift (read_entries entries [])
  end.

Fixpoint for_each {A} (f : A -> M unit) (l : list A) : M unit :=
  match l with
  | [] => ret tt
  | x :: r => f x ;;; for_each f r
  end.

(** One turn of the second loop: the target is opened for writing
    first, the formatters are computed inside the [with] block. *)
Definition write_template (E : env) (chal_dir : Path)
    (all_formatters : dict string) (t : string * string) : M unit :=
  template_target <- open_w E (joinpath (joinpath chal_dir "deploy") (fst t)) ;;
  formatters <- lift (collect all_formatters [] (parse (snd t))) ;;
  text <- lift (format (snd t) formatters) ;;
  write template_target text.

(** The body of [if challenge.remote is not None]. *)
Definition deploy (E : env) (challenge : Challenge) (chal_dir : Path)
    (cmd : list string) : M unit :=
  mkdir E (joinpath chal_dir "deploy") ;;;
  deploy_file <- open_w E (joinpath chal_dir "deploy.sh") ;;
  write deploy_file (deploy_sh cmd) ;;;
  templates_to_write <- read_templates E ;;
  port <- match ports challenge with
          | p :: _ => ret (str_int p)
          | [] => raise IndexError
          end ;;
  let all_formatters :=
    [ ("name", name challenge);
      ("dist_path", path_str (joinpath chal_dir "dist"));
      ("port", port) ] in
  for_each (write_template E chal_dir all_formatters) templates_to_write.

Definition create_challenge (E : env) (challenge : Challenge) : M unit :=
  cld <- match target challenge with
         | None =>
             repo <- get_repo E ;;
             ret (joinpath repo (value (type challenge)))
         | Some t => ret (Path_of t)
         end ;;
  e <- path_exists E cld ;;
  (if e then ret tt else mkdir_parents E cld) ;;;
  let chal_dir := joinpath cld (name challenge) in
  e <- path_exists E chal_dir ;;
  (if e then ret tt else mkdir E chal_dir) ;;;
  chal_desc <- open_w E (joinpath chal_dir "chal.json") ;;
  write chal_desc (dumps (to_dict challenge)) ;;;
  match remote challenge with
  | Some cmd => deploy E challenge chal_dir cmd
  | None => ret tt
  end ;;;
  mkdir E (joinpath chal_dir "solve") ;;;
  flag_file <- open_w E (joinpath (joinpath chal_dir "solve") "flag.txt") ;;
  write flag_file (flag challenge) ;;;
  mkdir E (joinpath chal_dir "src") ;;;
  make_file <- open_w E (joinpath (joinpath chal_dir "src") "Makefile") ;;
  write make_file (makefile (name challenge)) ;;;
  mkdir E (joinpath chal_dir "dist").

(** The statements of [create_challenge] that follow the choice of
    [cld], as a function of it. *)
Definition scaffold (E : env) (challenge : Challenge) (cld : Path) : M unit :=
  e <- path_exists E cld ;;
  (if e then ret tt else mkdir_parents E cld) ;;;
  let chal_dir := joinpath cld (name challenge) in
  e <- path_exists E chal_dir ;;
  (if e then ret tt else mkdir E chal_dir) ;;;
  chal_desc <- open_w E (joinpath chal_dir "chal.json") ;;
  write chal_desc (dumps (to_dict challenge)) ;;;
  match remote challenge with
  | Some cmd => deploy E challenge chal_dir cmd
  | None => ret tt
  end ;;;
  mkdir E (joinpath chal_dir "solve") ;;;
  flag_file <- open_w E (joinpath (joinpath chal_dir "solve") "flag.txt") ;;
  write flag_file (flag challenge) ;;;
  mkdir E (joinpath chal_dir "src") ;;;
  make_file <- open_w E (joinpath (joinpath chal_dir "src") "Makefile") ;;
  write make_file (makefile (name challenge)) ;;;
  mkdir E (joinpath chal_dir "dist").

(** The last seven statements: [solve/flag.txt], [src/Makefile],
    [dist]. *)
Definition stubs (E : env) (challenge : Challenge) (chal_dir : Path) : M unit :=
  mkdir E (joinpath chal_dir "solve") ;;;
  flag_file <- open_w E (joinpath (joinpath chal_dir "solve") "flag.txt") ;;
  write flag_file (flag challenge) ;;;
  mkdir E (joinpath chal_dir "src") ;;;
  make_file <- open_w E (joinpath (joinpath chal_dir "src") "Makefile") ;;
  write make_file (makefile (name challenge)) ;;;
  mkdir E (joinpath chal_dir "dist").

(** Where the challenge goes: [cld], and the key of [chal_dir]. *)
Definition category_dir (E : env) (c : Challenge) (fs : fsmap) : option Path :=
  match target c with
  | Some t => Some (Path_of t)
  | None =>
      match search_up fs (rev (cwd E)) with
      | Some k =>
          Some (joinpath {| anchored := true; parts := k |} (value (type c)))
      | None => None
      end
  end.

Definition challenge_dir (E : env) (c : Challenge) (fs : fsmap) : option Path :=
  match category_dir E c fs with
  | Some cld => Some (joinpath cld (name c))
  | None => None
  end.

Definition challenge_key (E : env) (c : Challenge) (fs : fsmap) : option key :=
  match challenge_dir E c fs with
  | Some d => resolve E d
  | None => None
  end.

(** A run from a given file system. *)
Definition run {A} (m : M A) (fs : fsmap) : world * result A :=
  m {| files := fs; trace := [] |}.

(** ** Reading [chal.json] back ([json.loads])

    The decoder covers the values [dumps] produces for a [Challenge]:
    [null], integers, strings, arrays and objects, with white space
    between tokens.  It accepts numerals with leading zeros, which
    [json.loads] refuses; it never reads a text differently. *)

Definition is_ws (c : ascii) : bool :=
  let n := nat_of_ascii c in
  Nat.eqb n 32 || Nat.eqb n 9 || Nat.eqb n 10 || Nat.eqb n 13.

Fixpoint skip_ws (s : string) : string :=
  match s with
  | EmptyString => EmptyString
  | String c r => if is_ws c then skip_ws r else s
  end.

Fixpoint strip_prefix (p s : string) : option string :=
  match p with
  | EmptyString => Some s
  | String a p' =>
      match s with
      | EmptyString => None
      | String b s' => if Ascii.eqb a b then strip_prefix p' s' else None
      end
  end.

Definition hex_val (c : ascii) : option nat :=
  let n := nat_of_ascii c in
  if Nat.leb 48 n && Nat.leb n 57 then Some (n - 48)
  else if Nat.leb 97 n && Nat.leb n 102 then Some (n - 87)
  else if Nat.leb 65 n && Nat.leb n 70 then Some (n - 55)
  else None.

Definition hex4 (a b c d : ascii) : option nat :=
  match hex_val a, hex_val b, hex_val c, hex_val d with
  | Some x, Some y, Some z, Some t => Some (((x * 16 + y) * 16 + z) * 16 + t)
  | _, _, _, _ => None
  end.

Definition unescape (e : ascii) : option ascii :=
  if Ascii.eqb e dquote then Some dquote
  else if Ascii.eqb e backslash then Some backslash
  else if Ascii.eqb e "/" then Some "/"%char
  else if Ascii.eqb e "b" then Some (ascii_of_nat 8)
  else if Ascii.eqb e "f" then Some (ascii_of_nat 12)
  else if Ascii.eqb e "n" then Some (ascii_of_nat 10)
  else if Ascii.eqb e "r" then Some (ascii_of_nat 13)
  else if Ascii.eqb e "t" then Some (ascii_of_nat 9)
  else None.

Definition cons_char (c : ascii) (o : option (string * string))
  : option (string * string) :=
  match o with
  | Some (s, r) => Some (String c s, r)
  | None => None
  end.

(** The body of a string literal, after its opening quote. *)
Fixpoint scan_string (s : string) : option (string * string) :=
  match s with
  | EmptyString => None
  | String c r =>
      if Ascii.eqb c dquote then Some (EmptyString, r)
      else if Ascii.eqb c backslash then
        match r with
        | EmptyString => None
        | String e r2 =>
            if Ascii.eqb e "u" then
              match r2 with
              | String h1 (String h2 (String h3 (String h4 r3))) =>
                  match hex4 h1 h2 h3 h4 with
                  | Some n =>
                      if Nat.ltb n 256
                      then cons_char (ascii_of_nat n) (scan_string r3)
                      else None
                  | None => None
                  end
              | _ => None
              end
            else
              match unescape e with
              | Some ch => cons_char ch (scan_string r2)
              | None => None
              end
        end
      else if Nat.ltb (nat_of_ascii c) 32 then None
      else cons_char c (scan_string r)
  end.

Definition digit_of (c : ascii) : option (Decimal.uint -> Decimal.uint) :=
  if Ascii.eqb c "0" then Some Decimal.D0
  else if Ascii.eqb c "1" then Some Decimal.D1
  else if Ascii.eqb c "2" then Some Decimal.D2
  else if Ascii.eqb c "3" then Some Decimal.D3
  else if Ascii.eqb c "4" then Some Decimal.D4
  else if Ascii.eqb c "5" then Some Decimal.D5
  else if Ascii.eqb c "6" then Some Decimal.D6
  else if Ascii.eqb c "7" then Some Decimal.D7
  else if Ascii.eqb c "8" then Some Decimal.D8
  else if Ascii.eqb c "9" then Some Decimal.D9
  else None.

(** The longest prefix of digits, as a decimal numeral. *)
Fixpoint scan_uint (s : string) : Decimal.uint * string :=
  match s with
  | EmptyString => (Decimal.Nil, EmptyString)
  | String c r =>
      match digit_of c with
      | Some d => let (u, r') := scan_uint r in (d u, r')
      | None => (Decimal.Nil, s)
      end
  end.

Definition starts_fraction (s : string) : bool :=
  match s with
  | String c _ => Ascii.eqb c "." || Ascii.eqb c "e" || Ascii.eqb c "E"
  | EmptyString => false
  end.

(** An integer literal; a fraction or an exponent is refused. *)
Definition scan_int (s : string) : option (Z * string) :=
  let (neg, body) :=
    match s with
    | String c r => if Ascii.eqb c "-" then (true, r) else (false, s)
    | EmptyString => (false, s)
    end in
  match scan_uint body with
  | (Decimal.Nil, _) => None
  | (u, r) =>
      if starts_fraction r then None
      else Some (if neg then Z.opp (Z.of_uint u) else Z.of_uint u, r)
  end.

Fixpoint parse_value (fuel : nat) (s : string) : option (json * string) :=
  match fuel with
  | O => None
  | S f =>
      match skip_ws s with
      | EmptyString => None
      | String c r =>
          if Ascii.eqb c "n" then
            match strip_prefix "ull" r with
            | Some r' => Some (JNull, r')
            | None => None
            end
          else if Ascii.eqb c dquote then
            match scan_string r with
            | Some (x, r') => Some (JStr x, r')
            | None => None
            end
          else if Ascii.eqb c "[" then
            match skip_ws r with
            | String c' r' =>
                if Ascii.eqb c' "]" then Some (JArr [], r')
                else match parse_elems f r with
                     | Some (l, r'') => Some (JArr l, r'')
                     | None => None
                     end
            | EmptyString => None
            end
          else if Ascii.eqb c "{" then
            match skip_ws r with
            | String c' r' =>
                if Ascii.eqb c' "}" then Some (JObj [], r')
                else match parse_members f r with
                     | Some (l, r'') => Some (JObj l, r'')
                     | None => None
                     end
            | EmptyString => None
            end
          else
            match scan_int (String c r) with
            | Some (z, r') => Some (JInt z, r')
            | None => None
            end
      end
  end
with parse_elems (fuel : nat) (s : string) : option (list json * string) :=
  match fuel with
  | O => None
  | S f =>
      match parse_value f s with
      | None => None
      | Some (v, r) =>
          match skip_ws r with
          | String c r' =>
              if Ascii.eqb c "," then
                match parse_elems f r' with
                | Some (l, r'') => Some (v :: l, r'')
                | None => None
                end
              else if Ascii.eqb c "]" then Some ([v], r')
              else None
          | EmptyString => None
          end
      end
  end
with parse_members (fuel : nat) (s : string)
  : option (list (string * json) * string) :=
  match fuel with
  | O => None
  | S f =>
      match skip_ws s with
      | String q r0 =>
          if Ascii.eqb q dquote then
            match scan_string r0 with
            | None => None
            | Some (k, r1) =>
                match skip_ws r1 with
                | String c r2 =>
                    if Ascii.eqb c ":" then
                      match parse_value f r2 with
                      | None => None
                      | Some (v, r3) =>
                          match skip_ws r3 with
                          | String c' r4 =>
                              if Ascii.eqb c' "," then
                                match parse_members f r4 with
                                | Some (l, r5) => Some ((k, v) :: l, r5)
                                | None => None
                                end
                              else if Ascii.eqb c' "}" then Some ([(k, v)], r4)
                              else None
                          | EmptyString => None
                          end
                      end
                    else None
                | EmptyString => None
                end
            end
          else None
      | EmptyString => None
      end
  end.

Definition loads (s : string) : option json :=
  match parse_value (2 * String.length s + 2) s with
  | Some (v, r) =>
      match skip_ws r with
      | EmptyString => Some v
      | _ => None
      end
  | None => None
  end.

(** A [Challenge] from the parsed object: every field by its name. *)
Definition type_of_value (s : string) : option ChalType :=
  if String.eqb s "rev" then Some REV
  else if String.eqb s "pwn" then Some PWN
  else if String.eqb s "crypto" then Some CRYPTO
  else if String.eqb s "web" then Some WEB
  else if String.eqb s "misc" then Some MISC
  else None.

Definition as_str (v : json) : option string :=
  match v with
  | JStr s => Some s
  | _ => None
  end.

Definition as_int (v : json) : option Z :=
  match v with
  | JInt z => Some z
  | _ => None
  end.

Fixpoint all_some {A} (l : list (option A)) : option (list A) :=
  match l with
  | [] => Some []
  | Some a :: r =>
      match all_some r with
      | Some r' => Some (a :: r')
      | None => None
      end
  | None :: _ => None
  end.

Definition as_list {A} (f : json -> option A) (v : json) : option (list A) :=
  match v with
  | JArr l => all_some (List.map f l)
  | _ => None
  end.

Definition as_nullable {A} (f : json -> option A) (v : json)
  : option (option A) :=
  match v with
  | JNull => Some None
  | _ => match f v with
         | Some a => Some (Some a)
         | None => None
         end
  end.

Definition from_dict (v : json) : option Challenge :=
  match v with
  | JObj d =>
      match dict_get "type" d, dict_get "name" d, dict_get "author" d,
            dict_get "description" d, dict_get "difficulty" d,
            dict_get "flag" d, dict_get "provides" d, dict_get "ports" d,
            dict_get "remote" d, dict_get "target" d with
      | Some ty, Some na, Some au, Some de, Some di,
        Some fl, Some pr, Some po, Some re, Some ta =>
          match match as_str ty with
                | Some s => type_of_value s
                | None => None
                end,
                as_str na, as_str au, as_str de, as_str di, as_str fl,
                as_list as_str pr, as_list as_int po,
                as_nullable (as_list as_str) re, as_nullable as_str ta with
          | Some ty', Some na', Some au', Some de', Some di', Some fl',
            Some pr', Some po', Some re', Some ta' =>
              Some (mkChallenge ty' na' au' de' di' fl' pr' po' re' ta')
          | _, _, _, _, _, _, _, _, _, _ => None
          end
      | _, _, _, _, _, _, _, _, _, _ => None
      end
  | _ => None
  end.

(** ** [main]

    [argparse] first matches the words of the command line against the
    declared option strings; the model starts from the result of that
    matching: the occurrences of options, each with the words taken as
    its arguments, in command-line order.  What follows (arity, [type]
    conversion, [choices], [required], [-h]) is fixed by the
    [add_argument] calls of [main]. *)

Inductive option_id :=
| Otype | Oname | Oauthor | Odescription | Odifficulty
| Oflag | Oprovides | Oports | Oremote | Otarget.

Inductive arg :=
| Opt (o : option_id) (values : list string)
| Help
| Unrecognized (word : string).

(** [args]: one slot per [dest], [None] until the option is seen. *)
Record namespace := mkNamespace {
  ns_type : option ChalType;
  ns_name : option string;
  ns_author : option string;
  ns_description : option (list string);
  ns_difficulty : option string;
  ns_flag : option string;
  ns_provides : option (list Path);
  ns_ports : option (list Z);
  ns_remote : option (list string);
  ns_target : option string;
  extras : list string
}.

Definition empty_namespace : namespace :=
  mkNamespace None None None None None None None None None None [].

(** [int(s)] for a command-line word: surrounding white space, a sign,
    decimal digits with single underscores between them. *)
Definition is_py_space (c : ascii) : bool :=
  let n := nat_of_ascii c in
  (Nat.leb 9 n && Nat.leb n 13) || (Nat.leb 28 n && Nat.leb n 32)
  || Nat.eqb n 133 || Nat.eqb n 160.

Fixpoint lstrip (s : string) : string :=
  match s with
  | EmptyString => EmptyString
  | String c r => if is_py_space c then lstrip r else s
  end.

Fixpoint all_space (s : string) : bool :=
  match s with
  | EmptyString => true
  | String c r => is_py_space c && all_space r
  end.

Definition digit_val (c : ascii) : option Z :=
  let n := nat_of_ascii c in
  if Nat.leb 48 n && Nat.leb n 57 then Some (Z.of_nat (n - 48)) else None.

Fixpoint int_digits (acc : Z) (after_digit : bool) (s : string) : option Z :=
  match s with
  | EmptyString => if after_digit then Some acc else None
  | String c r =>
      match digit_val c with
      | Some d => int_digits (acc * 10 + d) true r
      | None =>
          if Ascii.eqb c "_" then
            if after_digit then int_digits acc false r else None
          else if after_digit && all_space (String c r) then Some acc
          else None
      end
  end.

Definition py_int (s : string) : option Z :=
  match lstrip s with
  | String c r =>
      if Ascii.eqb c "-" then
        match int_digits 0 false r with
        | Some z => Some (- z)%Z
        | None => None
        end
      else if Ascii.eqb c "+" then int_digits 0 false r
      else int_digits 0 false (String c r)
  | EmptyString => None
  end.

Definition difficulty_choices : list string := ["Easy"; "Medium"; "Hard"].

Definition in_choices (s : string) (l : list string) : bool :=
  existsb (String.eqb s) l.

(** The outcome of [parser.parse_args()]. *)
Inductive parse_outcome :=
| Parsed (ns : namespace)
| Usage
| HelpShown.

(** An option declared without [nargs] takes one word; a second word
    after it is left over as an unrecognized argument. *)
Definition single (values : list string) (ns : namespace)
    (store : string -> option namespace) : option namespace :=
  match values with
  | [] => None
  | v :: more =>
      match store v with
      | Some ns' =>
          Some (mkNamespace (ns_type ns') (ns_name ns') (ns_author ns')
                  (ns_description ns') (ns_difficulty ns') (ns_flag ns')
                  (ns_provides ns') (ns_ports ns') (ns_remote ns')
                  (ns_target ns') (extras ns' ++ more))
      | None => None
      end
  end.

(** One occurrence of an option: arity, conversion, choices, store.
    [None] is [parser.error]. *)
Definition take_action (o : option_id) (values : list string) (ns : namespace)
  : option namespace :=
  match o with
  | Otype =>
      single values ns (fun v =>
        match type_of_value v with
        | Some t =>
            Some (mkNamespace (Some t) (ns_name ns) (ns_author ns)
                    (ns_description ns) (ns_difficulty ns) (ns_flag ns)
                    (ns_provides ns) (ns_ports ns) (ns_remote ns)
                    (ns_target ns) (extras ns))
        | None => None
        end)
  | Oname =>
      single values ns (fun v =>
        Some (mkNamespace (ns_type ns) (Some v) (ns_author ns)
                (ns_description ns) (ns_difficulty ns) (ns_flag ns)
                (ns_provides ns) (ns_ports ns) (ns_remote ns)
                (ns_target ns) (extras ns)))
  | Oauthor =>
      single values ns (fun v =>
        Some (mkNamespace (ns_type ns) (ns_name ns) (Some v)
                (ns_description ns) (ns_difficulty ns) (ns_flag ns)
                (ns_provides ns) (ns_ports ns) (ns_remote ns)
                (ns_target ns) (extras ns)))
  | Odescription =>
      match values with
      | [] => None
      | _ =>
          Some (mkNamespace (ns_type ns) (ns_name ns) (ns_author ns)
                  (Some values) (ns_difficulty ns) (ns_flag ns)
                  (ns_provides ns) (ns_ports ns) (ns_remote ns)
                  (ns_target ns) (extras ns))
      end
  | Odifficulty =>
      single values ns (fun v =>
        if in_choices v difficulty_choices then
          Some (mkNamespace (ns_type ns) (ns_name ns) (ns_author ns)
                  (ns_description ns) (Some v) (ns_flag ns)
                  (ns_provides ns) (ns_ports ns) (ns_remote ns)
                  (ns_target ns) (extras ns))
        else None)
  | Oflag =>
      single values ns (fun v =>
        Some (mkNamespace (ns_type ns) (ns_name ns) (ns_author ns)
                (ns_description ns) (ns_difficulty ns) (Some v)
                (ns_provides ns) (ns_ports ns) (ns_remote ns)
                (ns_target ns) (extras ns)))
  | Oprovides =>
      match values with
      | [] => None
      | _ =>
          Some (mkNamespace (ns_type ns) (ns_name ns) (ns_author ns)
                  (ns_description ns) (ns_difficulty ns) (ns_flag ns)
                  (Some (List.map Path_of values)) (ns_ports ns)
                  (ns_remote ns) (ns_target ns) (extras ns))
      end
  | Oports =>
      match values with
      | [] => None
      | _ =>
          match all_some (List.map py_int values) with
          | Some zs =>
              Some (mkNamespace (ns_type ns) (ns_name ns) (ns_author ns)
                      (ns_description ns) (ns_difficulty ns) (ns_flag ns)
                      (ns_provides ns) (Some zs) (ns_remote ns)
                      (ns_target ns) (extras ns))
          | None => None
          end
      end
  | Oremote =>
      match values with
      | [] => None
      | _ =>
          Some (mkNamespace (ns_type ns) (ns_name ns) (ns_author ns)
                  (ns_description ns) (ns_difficulty ns) (ns_flag ns)
                  (ns_provides ns) (ns_ports ns) (Some values)
                  (ns_target ns) (extras ns))
      end
  | Otarget =>
      single values ns (fun v =>
        Some (mkNamespace (ns_type ns) (ns_name ns) (ns_author ns)
                (ns_description ns) (ns_difficulty ns) (ns_flag ns)
                (ns_provides ns) (ns_ports ns) (ns_remote ns)
                (Some v) (extras ns)))
  end.

(** The options declared with [required=True] have all been seen. *)
Definition required_present (ns : namespace) : bool :=
  match ns_type ns, ns_name ns, ns_author ns, ns_description ns,
        ns_difficulty ns, ns_flag ns, ns_provides ns, ns_ports ns with
  | Some _, Some _, Some _, Some _, Some _, Some _, Some _, Some _ => true
  | _, _, _, _, _, _, _, _ => false
  end.

(** Occurrences are handled from left to right; [-h] prints the help
    and exits where it stands; missing required options and left-over
    words are reported once the command line is consumed. *)
Fixpoint consume (args : list arg) (ns : namespace) : parse_outcome :=
  match args with
  | [] =>
      if required_present ns then
        match extras ns with
        | [] => Parsed ns
        | _ => Usage
        end
      else Usage
  | Help :: _ => HelpShown
  | Unrecognized w :: r =>
      consume r (mkNamespace (ns_type ns) (ns_name ns) (ns_author ns)
                   (ns_description ns) (ns_difficulty ns) (ns_flag ns)
                   (ns_provides ns) (ns_ports ns) (ns_remote ns)
                   (ns_target ns) (extras ns ++ [w]))
  | Opt o values :: r =>
      match take_action o values ns with
      | Some ns' => consume r ns'
      | None => Usage
      end
  end.

Definition parse_args (args : list arg) : parse_outcome :=
  consume args empty_namespace.

(** How the process ends. *)
Inductive ending :=
| Done
| Usage_error
| Help_printed
| Traceback (e : exn).

Definition exit_status (e : ending) : Z :=
  match e with
  | Done => 0
  | Usage_error => 2
  | Help_printed => 0
  | Traceback _ => 1
  end.

(** Usage text reaches the terminal on a usage error (with the error
    message) and as the first lines of the help. *)
Definition prints_usage (e : ending) : bool :=
  match e with
  | Usage_error | Help_printed => true
  | _ => false
  end.

(** [Challenge(...)] from the parsed arguments. *)
Definition challenge_of (ns : namespace) : option Challenge :=
  match ns_type ns, ns_name ns, ns_author ns, ns_description ns,
        ns_difficulty ns, ns_flag ns, ns_provides ns, ns_ports ns with
  | Some t, Some n, Some a, Some d, Some di, Some f, Some pr, Some po =>
      Some (mkChallenge t n a (String.concat " " d) di f
              (List.map path_str pr) po (ns_remote ns) (ns_target ns))
  | _, _, _, _, _, _, _, _ => None
  end.

Definition main (E : env) (args : list arg) : world -> world * ending :=
  fun w =>
    match parse_args args with
    | Usage => (w, Usage_error)
    | HelpShown => (w, Help_printed)
    | Parsed ns =>
        match challenge_of ns with
        | None => (w, Usage_error)
        | Some chal =>
            match create_challenge E chal w with
            | (w', Ok _) => (w', Done)
            | (w', Raise e) => (w', Traceback e)
            end
        end
    end.

(** ** Templates as text with holes

    A template written as pieces of plain text and placeholders for
    the three keys of [all_formatters]; its text puts [{key}] at every
    placeholder, and filling it puts the value there. *)

Inductive placeholder := Pname | Pdist_path | Pport.

Definition key_of (p : placeholder) : string :=
  match p with
  | Pname => "name"
  | Pdist_path => "dist_path"
  | Pport => "port"
  end.

Inductive segment :=
| Text (s : string)
| Hole (p : placeholder).

Definition segment_text (g : segment) : string :=
  match g with
  | Text s => s
  | Hole p => "{" +:+ key_of p +:+ "}"
  end.

Fixpoint template_text (segs : list segment) : string :=
  match segs with
  | [] => ""
  | g :: r => segment_text g +:+ template_text r
  end.

Definition fill_segment (all : dict string) (g : segment) : string :=
  match g with
  | Text s => s
  | Hole p => match dict_get (key_of p) all with
              | Some v => v
              | None => ""
              end
  end.

Fixpoint filled (all : dict string) (segs : list segment) : string :=
  match segs with
  | [] => ""
  | g :: r => fill_segment all g +:+ filled all r
  end.

Definition brace_free (s : string) : bool :=
  negb (has_char "{" s) && negb (has_char "}" s).

Definition plain_segment (g : segment) : bool :=
  match g with
  | Text s => brace_free s
  | Hole _ => true
  end.

(** Replacement of the placeholders as text: wherever [{key}] stands
    for a key of the table, the value is written instead and the
    [{key}] is skipped; every other character is copied. *)
Fixpoint find_placeholder (all : dict string) (s : string)
  : option (string * string) :=
  match all with
  | [] => None
  | (k, v) :: r =>
      match strip_prefix ("{" +:+ k +:+ "}") s with
      | Some _ => Some (k, v)
      | None => find_placeholder r s
      end
  end.

Fixpoint substitute (all : dict string) (skip : nat) (s : string) : string :=
  match s with
  | EmptyString => EmptyString
  | String c r =>
      match skip with
      | S n => substitute all n r
      | O =>
          match find_placeholder all s with
          | Some (k, v) => v +:+ substitute all (S (String.length k)) r
          | None => String c (substitute all 0 r)
          end
      end
  end.

(** The fields a template names, in order. *)
Fixpoint fields_of (p : parsed) : list string :=
  match p with
  | PItem i rest =>
      match markup i with
      | Some f => field_name f :: fields_of rest
      | None => fields_of rest
      end
  | _ => []
  end.

Definition known_key (k : string) : bool :=
  String.eqb k "name" || String.eqb k "dist_path" || String.eqb k "port".

(** ** The goal [make] builds by default

    The target of the first rule of a makefile: the first line that is
    neither a recipe (tab), a comment nor a variable assignment and
    has a colon; the target is what stands before the colon. *)

Inductive scan_state :=
| LineStart
| InTarget (t : string)
| SkipLine.

Fixpoint goal_scan (st : scan_state) (s : string) : option string :=
  match s with
  | EmptyString => None
  | String c r =>
      let n := nat_of_ascii c in
      if Nat.eqb n 10 then goal_scan LineStart r
      else
        match st with
        | SkipLine => goal_scan SkipLine r
        | LineStart =>
            if Nat.eqb n 9 || Ascii.eqb c "#" || Ascii.eqb c "="
            then goal_scan SkipLine r
            else if Ascii.eqb c ":" then Some ""
            else goal_scan (InTarget (String c "")) r
        | InTarget t =>
            if Ascii.eqb c ":" then Some t
            else if Ascii.eqb c "=" then goal_scan SkipLine r
            else goal_scan (InTarget (snoc t c)) r
        end
  end.

Definition default_goal (text : string) : option string :=
  goal_scan LineStart text.

(** The file system and the events after [stubs] has run in the
    directory of key [kd]. *)
Definition stubs_files (c : Challenge) (kd : key) (m : fsmap) : fsmap :=
  <[kd ++ ["dist"] := Dir]>
    (<[(kd ++ ["src"]) ++ ["Makefile"] := File (makefile (name c))]>
       (<[kd ++ ["src"] := Dir]>
          (<[(kd ++ ["solve"]) ++ ["flag.txt"] := File (flag c)]>
             (<[kd ++ ["solve"] := Dir]> m)))).

Definition stubs_events (kd : key) : list event :=
  [ Mkdir (kd ++ ["solve"]);
    OpenW ((kd ++ ["solve"]) ++ ["flag.txt"]);
    WriteText ((kd ++ ["solve"]) ++ ["flag.txt"]);
    Mkdir (kd ++ ["src"]);
    OpenW ((kd ++ ["src"]) ++ ["Makefile"]);
    WriteText ((kd ++ ["src"]) ++ ["Makefile"]);
    Mkdir (kd ++ ["dist"]) ].

(** Lines, each followed by a newline. *)
Fixpoint unlines (l : list string) : string :=
  match l with
  | [] => ""
  | x :: r => x +:+ NL +:+ unlines r
  end.

(** The running example: no remote command, an explicit target. *)
Definition example_challenge : Challenge :=
  mkChallenge PWN "stack1" "alice" "simple overflow" "Easy" "flag{test}"
    ["dist/stack1"] [1337%Z] None (Some "/tmp/out").

Definition example_env : env :=
  mkEnv ["home"; "alice"] (Some [("docker-compose.yml",
                                  File "{name}:{port}")]).

Definition empty_fs : fsmap := ∅.

(** [c] with another [ports] list. *)
Definition with_ports (c : Challenge) (ps : list Z) : Challenge :=
  mkChallenge (type c) (name c) (author c) (description c) (difficulty c)
    (flag c) (provides c) ps (remote c) (target c).

(** The key of [chal.json]. *)
Definition chal_json_key (E : env) (c : Challenge) (fs : fsmap) : option key :=
  match challenge_dir E c fs with
  | Some d => resolve E (joinpath d "chal.json")
  | None => None
  end.

(** Two worlds that went through the same events and hold the same
    entries, except for the text of the regular file at [kj]. *)
Definition shape (o : option node) : option bool :=
  match o with
  | None => None
  | Some Dir => Some true
  | Some (File _) => Some false
  end.

Definition sim (kj : option key) (w1 w2 : world) : Prop :=
  trace w1 = trace w2 /\
  forall k, shape (files w1 !! k) = shape (files w2 !! k) /\
            (Some k <> kj -> files w1 !! k = files w2 !! k).

(** Two computations that, from similar worlds, end the same way in
    similar worlds, with a result satisfying [Q]. *)
Definition related {A} (kj : option key) (Q : A -> Prop) (m1 m2 : M A) : Prop :=
  forall w1 w2,
    sim kj w1 w2 ->
    sim kj (fst (m1 w1)) (fst (m2 w2)) /\
    snd (m1 w1) = snd (m2 w2) /\
    (forall a, snd (m1 w1) = Ok a -> Q a).

(** The statements of [create_challenge] from the opening of
    [chal.json] on, in the challenge directory [chal_dir]. *)
Definition populate (E : env) (challenge : Challenge) (chal_dir : Path)
  : M unit :=
  chal_desc <- open_w E (joinpath chal_dir "chal.json") ;;
  write chal_desc (dumps (to_dict challenge)) ;;;
  match remote challenge with
  | Some cmd => deploy E challenge chal_dir cmd
  | None => ret tt
  end ;;;
  stubs E challenge chal_dir.

(** A name that is one ordinary path component: not empty, not ["."]
    or [".."], without [/] and without NUL. *)
Definition simple_name (n : string) : bool :=
  keep_part n && plain_part n && negb (has_char slash n).

(** The table [all_formatters] of a challenge in [chal_dir]. *)
Definition all_formatters_of (c : Challenge) (chal_dir : Path) (port : Z)
  : dict string :=
  [ ("name", name c);
    ("dist_path", path_str (joinpath chal_dir "dist"));
    ("port", str_int port) ].

(** What one template becomes: the formatters it needs, then
    [format]. *)
Definition render_template (all : dict string) (text : string)
  : result string :=
  match collect all [] (parse text) with
  | Ok formatters => format text formatters
  | Raise e => Raise e
  end.

Definition rendered (all : dict string) (text : string) : string :=
  match render_template all text with
  | Ok s => s
  | Raise _ => ""
  end.

(** The rendered templates, written into [deploy] one after the other. *)
Definition template_files (kd : key) (all : dict string) (ts : dict string)
    (m : fsmap) : fsmap :=
  fold_left
    (fun m' t => <[kd ++ ["deploy"; fst t] := File (rendered all (snd t))]> m')
    ts m.

(** A template the loop can write: its name is one path component, it
    renders, and no directory stands where its file goes. *)
Definition not_dir (o : option node) : Prop := o <> Some Dir.

Definition ready_template (all : dict string) (kd : key) (m : fsmap)
    (t : string * string) : Prop :=
  simple_name (fst t) = true /\
  (exists s, render_template all (snd t) = Ok s) /\
  not_dir (m !! (kd ++ ["deploy"; fst t])).

(** The file system once [populate] has run in the directory of key
    [kd], from the file system [m]. *)
Definition deploy_files (kd : key) (all : dict string) (cmd : list string)
    (ts : dict string) (m : fsmap) : fsmap :=
  template_files kd all ts
    (<[kd ++ ["deploy.sh"] := File (deploy_sh cmd)]>
       (<[kd ++ ["deploy"] := Dir]> m)).

Definition populated (c : Challenge) (kd : key) (all : dict string)
    (ts : dict string) (m : fsmap) : fsmap :=
  let described := <[kd ++ ["chal.json"] := File (dumps (to_dict c))]> m in
  stubs_files c kd
    (match remote c with
     | Some cmd => deploy_files kd all cmd ts described
     | None => described
     end).

(** The entries of a challenge directory, by their path inside it. *)
Definition layout (c : Challenge) (all : dict string) (ts : dict string)
  : fsmap :=
  populated c [] all ts (<[[] := Dir]> empty_fs).

(** What [populate] needs from the file system [m] to go through in
    the directory of key [kd]: room for its entries and, with a remote
    command, a first port and templates that render; [all] is then the
    formatter table and [ts] the templates read. *)
Definition deploy_ready (E : env) (c : Challenge) (d : Path) (kd : key)
    (all : dict string) (ts : dict string) (m : fsmap) : Prop :=
  match remote c with
  | None => True
  | Some _ =>
      m !! (kd ++ ["deploy"]) = None /\
      not_dir (m !! (kd ++ ["deploy.sh"])) /\
      (exists entries,
          template_dir E = Some entries /\ read_entries entries [] = Ok ts) /\
      (exists p ps, ports c = p :: ps /\ all = all_formatters_of c d p) /\
      Forall (ready_template all kd m) ts
  end.

Definition populate_ready (E : env) (c : Challenge) (d : Path) (kd : key)
    (all : dict string) (ts : dict string) (m : fsmap) : Prop :=
  stat m kd = Some Dir /\
  not_dir (m !! (kd ++ ["chal.json"])) /\
  deploy_ready E c d kd all ts m /\
  m !! (kd ++ ["solve"]) = None /\
  m !! (kd ++ ["src"]) = None /\
  m !! (kd ++ ["dist"]) = None /\
  not_dir (m !! (kd ++ ["solve"; "flag.txt"])) /\
  not_dir (m !! (kd ++ ["src"; "Makefile"])).

(** With a remote command: a template directory that can be read, a
    first port, and templates that render and are named by one path
    component. *)
Definition remote_ready (E : env) (c : Challenge) (d : Path)
    (all : dict string) (ts : dict string) : Prop :=
  match remote c with
  | None => True
  | Some _ =>
      (exists entries,
          template_dir E = Some entries /\ read_entries entries [] = Ok ts) /\
      (exists p ps, ports c = p :: ps /\ all = all_formatters_of c d p) /\
      Forall (fun t => simple_name (fst t) = true /\
                       exists s, render_template all (snd t) = Ok s) ts
  end.

(** The paths of the persisted layout, inside the challenge directory
    (the empty path is the directory itself). *)
Definition expected_paths (c : Challenge) (ts : dict string) : list key :=
  [ []; ["chal.json"]; ["solve"]; ["solve"; "flag.txt"];
    ["src"]; ["src"; "Makefile"]; ["dist"] ]
  ++ match remote c with
     | Some _ =>
         [["deploy"]; ["deploy.sh"]]
         ++ List.map (fun t => ["deploy"; fst t]) ts
     | None => []
     end.

(** [m], below the directory of key [kd], is [l]. *)
Definition same_under (kd : key) (m l : fsmap) : Prop :=
  forall s, m !! (kd ++ s) = l !! s.

(** The same challenge with a remote command. *)
Definition example_remote : Challenge :=
  mkChallenge PWN "stack1" "alice" "simple overflow" "Easy" "flag{test}"
    ["dist/stack1"] [1337%Z] (Some ["docker-compose"; "up"])
    (Some "/tmp/out").

(** A target in which the challenge directory is already there, with
    an older [chal.json] in it. *)
Definition existing_fs : fsmap :=
  <[["tmp"; "out"; "stack1"; "chal.json"] := File "old"]>
    (<[["tmp"; "out"; "stack1"] := Dir]>
       (<[["tmp"; "out"] := Dir]> (<[["tmp"] := Dir]> empty_fs))).

(** The file system a first run of the example leaves behind. *)
Definition after_first_run : fsmap :=
  files (fst (run (create_challenge example_env example_challenge) empty_fs)).

(** A template directory whose only template names a key that
    [all_formatters] does not have. *)
Definition image_template : string * string :=
  ("docker-compose.yml", "image: {image}").

Definition image_env : env :=
  mkEnv ["home"; "alice"]
    (Some [(fst image_template, File (snd image_template))]).

(** Literal text in front of what follows, character by character. *)
Fixpoint prepend_str (s : string) (p : parsed) : parsed :=
  match s with
  | EmptyString => p
  | String c r => prepend c (prepend_str r p)
  end.

(** The value the table has for a placeholder. *)
Definition value_of (all : dict string) (p : placeholder) : string :=
  match dict_get (key_of p) all with
  | Some v => v
  | None => ""
  end.

(** The formatters the comprehension gathers for a template given by
    its segments: one entry per placeholder that occurs. *)
Definition needed (all : dict string) (segs : list segment)
    (acc : dict string) : dict string :=
  fold_left
    (fun a g => match g with
                | Hole p => dict_set (key_of p) (value_of all p) a
                | Text _ => a
                end)
    segs acc.

(** The example with a relative target, and a template that uses
    [dist_path] and doubled braces. *)
Definition relative_challenge : Challenge :=
  mkChallenge PWN "stack1" "alice" "simple overflow" "Easy" "flag{test}"
    ["dist/stack1"] [1337%Z] (Some ["docker-compose"; "up"]) (Some "out").

Definition volume_template : string * string :=
  ("docker-compose.yml", "{dist_path}:/srv ${{PORT}}").

Definition volume_env : env :=
  mkEnv ["home"; "alice"]
    (Some [(fst volume_template, File (snd volume_template))]).

(** No file in the way of a path: none of its prefixes is a regular
    file. *)
Definition clear_path (m : fsmap) (k : key) : Prop :=
  forall pre, pre `prefix_of` k -> is_file (stat m pre) = false.

Definition anything {A} (a : A) : Prop := True.

(** A world in which [deploy] has been made, as when the template
    loop starts. *)
Definition deploy_world : world :=
  {| files := <[["tmp"; "out"; "stack1"; "deploy"] := Dir]> empty_fs;
     trace := [] |}.

(** ** Command lines that [parse_args] must refuse *)

Definition option_code (o : option_id) : nat :=
  match o with
  | Otype => 0 | Oname => 1 | Oauthor => 2 | Odescription => 3
  | Odifficulty => 4 | Oflag => 5 | Oprovides => 6 | Oports => 7
  | Oremote => 8 | Otarget => 9
  end.

Definition same_option (o o' : option_id) : bool :=
  Nat.eqb (option_code o) (option_code o').

(** The options declared with [required=True]. *)
Definition required_options : list option_id :=
  [Otype; Oname; Oauthor; Odescription; Odifficulty; Oflag; Oprovides; Oports].

Definition is_option (o : option_id) (a : arg) : bool :=
  match a with
  | Opt o' _ => same_option o o'
  | _ => false
  end.

(** The option occurs on the command line. *)
Definition supplied (o : option_id) (args : list arg) : bool :=
  existsb (is_option o) args.

Definition missing_required (args : list arg) : bool :=
  existsb (fun o => negb (supplied o args)) required_options.

Definition is_none {A} (o : option A) : bool :=
  match o with
  | None => true
  | Some _ => false
  end.

(** An occurrence with a [type] outside the enumeration, a
    [difficulty] outside the choices, or a port that is not an
    integer. *)
Definition bad_value (a : arg) : bool :=
  match a with
  | Opt Otype (v :: _) => is_none (type_of_value v)
  | Opt Odifficulty (v :: _) => negb (in_choices v difficulty_choices)
  | Opt Oports vs => existsb (fun v => is_none (py_int v)) vs
  | _ => false
  end.

Definition invalid (args : list arg) : bool :=
  missing_required args || existsb bad_value args.

Definition is_help (a : arg) : bool :=
  match a with
  | Help => true
  | _ => false
  end.

(** The slot of an option in the namespace is filled. *)
Definition slot_set (o : option_id) (ns : namespace) : bool :=
  match o with
  | Otype => negb (is_none (ns_type ns))
  | Oname => negb (is_none (ns_name ns))
  | Oauthor => negb (is_none (ns_author ns))
  | Odescription => negb (is_none (ns_description ns))
  | Odifficulty => negb (is_none (ns_difficulty ns))
  | Oflag => negb (is_none (ns_flag ns))
  | Oprovides => negb (is_none (ns_provides ns))
  | Oports => negb (is_none (ns_ports ns))
  | Oremote => negb (is_none (ns_remote ns))
  | Otarget => negb (is_none (ns_target ns))
  end.

(** ** What [loads] gives back for a dumped value

    Objects come back with their members in key order. *)
Fixpoint norm (v : json) : json :=
  match v with
  | JArr l => JArr (List.map norm l)
  | JObj l =>
      JObj (sorted_items (List.map (fun kv => (fst kv, norm (snd kv))) l))
  | _ => v
  end.

(** A character that may follow a value in the text [dumps] writes: a
    comma or a newline. *)
Definition closes_value (rest : string) : bool :=
  match rest with
  | EmptyString => true
  | String c _ => Ascii.eqb c "," || Nat.eqb (nat_of_ascii c) 10
  end.

(** The first character of an encoded value. *)
Definition value_start (c : ascii) : bool :=
  Ascii.eqb c "n" || Ascii.eqb c dquote || Ascii.eqb c "[" || Ascii.eqb c "{"
  || Ascii.eqb c "-"
  || (Nat.leb 48 (nat_of_ascii c) && Nat.leb (nat_of_ascii c) 57).

(** The object [chal.json] holds, members in key order. *)
Definition members (c : Challenge) : list (string * json) :=
  [ ("author", JStr (author c));
    ("description", JStr (description c));
    ("difficulty", JStr (difficulty c));
    ("flag", JStr (flag c));
    ("name", JStr (name c));
    ("ports", JArr (List.map JInt (ports c)));
    ("provides", JArr (List.map JStr (provides c)));
    ("remote", json_opt (fun l => JArr (List.map JStr l)) (remote c));
    ("target", json_opt JStr (target c));
    ("type", JStr (value (type c))) ].

Definition sorted_dict (c : Challenge) : json := JObj (members c).

(** Values: induction through the lists of arrays and objects *)

Fixpoint json_nested_ind (P : json -> Prop)
    (HNull : P JNull)
    (HInt : forall z, P (JInt z))
    (HStr : forall s, P (JStr s))
    (HArr : forall l, Forall P l -> P (JArr l))
    (HObj : forall l, Forall (fun kv => P (snd kv)) l -> P (JObj l))
    (v : json) : P v :=
  match v with
  | JNull => HNull
  | JInt z => HInt z
  | JStr s => HStr s
  | JArr l =>
      HArr l
        ((fix all (l : list json) : Forall P l :=
            match l with
            | [] => @List.Forall_nil json P
            | x :: r =>
                @List.Forall_cons json P x r
                  (json_nested_ind P HNull HInt HStr HArr HObj x) (all r)
            end) l)
  | JObj l =>
      HObj l
        ((fix all (l : list (string * json))
            : Forall (fun kv => P (snd kv)) l :=
            match l with
            | [] => @List.Forall_nil (string * json) (fun kv => P (snd kv))
            | x :: r =>
                @List.Forall_cons (string * json) (fun kv => P (snd kv)) x r
                  (json_nested_ind P HNull HInt HStr HArr HObj (snd x))
                  (all r)
            end) l)
  end.

(** The text of a value, followed by [rest], is read back as the
    value, leaving [rest]. *)
Definition reads_back (v : json) : Prop :=
  forall level rest fuel,
    closes_value rest = true ->
    2 * String.length (encode level v +:+ rest) + 2 <= fuel ->
    parse_value fuel (encode level v +:+ rest) = Some (norm v, rest).

(** One member of an object as [dumps] writes it. *)
Definition member_text (level : nat) (kv : string * json) : string :=
  encode_str (fst kv) +:+ ": " +:+ encode (S level) (snd kv).

(** A property of the world that a computation keeps, whatever its
    outcome. *)
Definition keeps {A} (P : world -> Prop) (m : M A) : Prop :=
  forall w, P w -> P (fst (m w)).

(** ** What a run may do to the file system

    One change: a directory made, or a file created, where nothing was
    and the parent is a directory; or the text of a regular file
    replaced.  [area] holds of the key that changes. *)
Inductive alters (area : key -> Prop) : fsmap -> fsmap -> Prop :=
| alters_mkdir m k :
    area k -> k <> [] -> m !! k = None -> stat m (parent k) = Some Dir ->
    alters area m (<[k := Dir]> m)
| alters_create m k :
    area k -> k <> [] -> m !! k = None -> stat m (parent k) = Some Dir ->
    alters area m (<[k := File ""]> m)
| alters_text m k old new :
    area k -> m !! k = Some (File old) ->
    alters area m (<[k := File new]> m).

(** The file system of a world is reached from [m0] by such changes. *)
Definition reached (area : key -> Prop) (m0 : fsmap) (w : world) : Prop :=
  rtc (alters area) m0 (files w).

(** Every entry has a directory for parent. *)
Definition well_formed (m : fsmap) : Prop :=
  forall k n, m !! k = Some n -> stat m (parent k) = Some Dir.

Definition any_key (k : key) : Prop := True.

(** [deploy] after its first statement: [deploy.sh] and the templates. *)
Definition artifacts (E : env) (challenge : Challenge) (chal_dir : Path)
    (cmd : list string) : M unit :=
  deploy_file <- open_w E (joinpath chal_dir "deploy.sh") ;;
  write deploy_file (deploy_sh cmd) ;;;
  templates_to_write <- read_templates E ;;
  port <- match ports challenge with
          | p :: _ => ret (str_int p)
          | [] => raise IndexError
          end ;;
  let all_formatters :=
    [ ("name", name challenge);
      ("dist_path", path_str (joinpath chal_dir "dist"));
      ("port", port) ] in
  for_each (write_template E chal_dir all_formatters) templates_to_write.

(** The names of the templates are not absolute paths (the entries of
    a directory never are). *)
Definition relative_names (E : env) : Prop :=
  forall entries,
    template_dir E = Some entries ->
    Forall (fun e => starts_with_slash (fst e) = false) entries.

(** The keys a run works on: the category directory and the
    directories above it, and what lies in the challenge directory. *)
Definition within (kc kd : key) (k : key) : Prop :=
  k `prefix_of` kc \/ kd `prefix_of` k.

(** A target directory with another challenge in it. *)
Definition shared_fs : fsmap :=
  <[["tmp"; "out"; "heap2"; "chal.json"] := File "{}"]>
    (<[["tmp"; "out"; "heap2"] := Dir]>
       (<[["tmp"; "out"] := Dir]> (<[["tmp"] := Dir]> empty_fs))).

(** Two challenges that agree on what [create_challenge] reads outside
    [dumps(challenge.__dict__)]: the name, the flag, the remote
    command, the target, the first port, and the type when it names
    the category directory. *)
Definition same_inputs (c1 c2 : Challenge) : Prop :=
  name c1 = name c2 /\
  flag c1 = flag c2 /\
  remote c1 = remote c2 /\
  target c1 = target c2 /\
  hd_error (ports c1) = hd_error (ports c2) /\
  (target c1 = None -> type c1 = type c2).

(** The example with other metadata and another type. *)
Definition example_edited : Challenge :=
  mkChallenge WEB "stack1" "bob" "another text" "Hard" "flag{test}"
    ["dist/stack1"; "dist/libc.so"] [1337%Z; 8080%Z] None (Some "/tmp/out").

(** A replacement field [str.format] is modelled for: a plain name,
    no format spec, no [!r] or [!a] conversion. *)
Definition plain_field (f : field) : bool :=
  String.eqb (format_spec f) ""
  && negb (has_char "." (field_name f) || has_char "[" (field_name f))
  && match conversion f with
     | None => true
     | Some cv => negb (Ascii.eqb cv "r" || Ascii.eqb cv "a")
     end.

(** A template all of whose fields are such. *)
Fixpoint covered (p : parsed) : bool :=
  match p with
  | PItem i rest =>
      match markup i with
      | Some f => plain_field f && covered rest
      | None => covered rest
      end
  | _ => true
  end.

(** ** The exceptions a run can end with *)

(** Every exception the computation raises is one of [allowed]. *)
Definition raises {A} (allowed : exn -> Prop) (m : M A) : Prop :=
  forall w w' e, m w = (w', Raise e) -> allowed e.

(** How [create_challenge] can fail for a given challenge: with an
    [OSError] from a [mkdir] or an [open]; with
    [InvalidGitRepositoryError] when no target is given; with
    [KeyError], for a key outside the formatter table, or [ValueError]
    from a template, and with [IndexError] from [ports[0]], when a
    remote command is given.  [Beyond_model], where the model stops,
    is let through. *)
Definition expected_failure (c : Challenge) (e : exn) : Prop :=
  match e with
  | FileExistsError | FileNotFoundError
  | NotADirectoryError | IsADirectoryError => True
  | InvalidGitRepositoryError => target c = None
  | KeyError k => remote c <> None /\ known_key k = false
  | ValueError => remote c <> None
  | IndexError => remote c <> None /\ ports c = []
  | Beyond_model => True
  end.

(** ** What [parse_args] lets through *)

(** What [nargs="+"] and [choices] guarantee of the slots that are
    filled. *)
Definition validated (ns : namespace) : Prop :=
  ns_description ns <> Some [] /\
  ns_provides ns <> Some [] /\
  ns_ports ns <> Some [] /\
  ns_remote ns <> Some [] /\
  forall d, ns_difficulty ns = Some d -> In d difficulty_choices.

(** A complete command line. *)
Definition example_args : list arg :=
  [ Opt Otype ["pwn"]; Opt Oname ["stack1"]; Opt Oauthor ["alice"];
    Opt Odescription ["simple"; "overflow"]; Opt Odifficulty ["Easy"];
    Opt Oflag ["flag{test}"]; Opt Oprovides ["dist/stack1"];
    Opt Oports ["1337"]; Opt Otarget ["/tmp/out"] ].

(** The keys inside the directory of key [k]. *)
Definition inside (k : key) (k' : key) : Prop := k `prefix_of` k'.

(** A regular file where the target directory should be. *)
Definition blocked_fs : fsmap :=
  <[["tmp"; "out"] := File "notes"]> (<[["tmp"] := Dir]> empty_fs).

(** Why [deploy] stops before the template loop: the template
    directory is not there, or it is read and [ports] is empty. *)
Definition stops_before_templates (E : env) (c : Challenge) (e : exn) : Prop :=
  (template_dir E = None /\ e = FileNotFoundError) \/
  (exists entries ts,
      template_dir E = Some entries /\ read_entries entries [] = Ok ts /\
      ports c = [] /\ e = IndexError).

(** The challenge directory when [deploy] has stopped there. *)
Definition half_deployed (c : Challenge) (cmd : list string) : fsmap :=
  <[["deploy.sh"] := File (deploy_sh cmd)]>
    (<[["deploy"] := Dir]>
       (<[["chal.json"] := File (dumps (to_dict c))]>
          (<[[] := Dir]> empty_fs))).

(** The remote example without a port. *)
Definition example_portless : Challenge :=
  mkChallenge PWN "stack1" "alice" "simple overflow" "Easy" "flag{test}"
    ["dist/stack1"] [] (Some ["docker-compose"; "up"]) (Some "/tmp/out").

(** The number a decimal numeral stands for, digits first to last. *)
Fixpoint uint_value (acc : Z) (d : Decimal.uint) : Z :=
  match d with
  | Decimal.Nil => acc
  | Decimal.D0 l => uint_value (acc * 10 + 0) l
  | Decimal.D1 l => uint_value (acc * 10 + 1) l
  | Decimal.D2 l => uint_value (acc * 10 + 2) l
  | Decimal.D3 l => uint_value (acc * 10 + 3) l
  | Decimal.D4 l => uint_value (acc * 10 + 4) l
  | Decimal.D5 l => uint_value (acc * 10 + 5) l
  | Decimal.D6 l => uint_value (acc * 10 + 6) l
  | Decimal.D7 l => uint_value (acc * 10 + 7) l
  | Decimal.D8 l => uint_value (acc * 10 + 8) l
  | Decimal.D9 l => uint_value (acc * 10 + 9) l
  end.

(** Printable ASCII, or a newline. *)
Definition plain_char (c : ascii) : bool :=
  let n := nat_of_ascii c in
  (Nat.leb 32 n && Nat.leb n 126) || Nat.eqb n 10.

Fixpoint plain_text (s : string) : bool :=
  match s with
  | EmptyString => true
  | String c r => plain_char c && plain_text r
  end.

(** A part as [pathlib] keeps it: not empty, not ["."], without [/]. *)
Definition proper_part (s : string) : bool :=
  keep_part s && negb (has_char slash s).

Definition normal (p : Path) : bool := forallb proper_part (parts p).

(** ** Words the parser has no use for *)

(** The options declared without [nargs]: they take one word. *)
Definition takes_one (o : option_id) : bool :=
  match o with
  | Otype | Oname | Oauthor | Odifficulty | Oflag | Otarget => true
  | Odescription | Oprovides | Oports | Oremote => false
  end.

(** A word that matches no option, or a second word after an option
    that takes one. *)
Definition surplus (a : arg) : bool :=
  match a with
  | Unrecognized _ => true
  | Opt o (_ :: _ :: _) => takes_one o
  | _ => false
  end.

(** The example with an absolute path for name, and a file system in
    which the directory above that path is there. *)
Definition example_absolute : Challenge :=
  mkChallenge PWN "/srv/stack1" "alice" "simple overflow" "Easy" "flag{test}"
    ["dist/stack1"] [1337%Z] None (Some "/tmp/out").

Definition srv_fs : fsmap := <[["srv"] := Dir]> empty_fs.

(** * Properties *)

Arguments os_mkdir : simpl never.
Arguments open_w : simpl never.
Arguments write : simpl never.
Arguments mkdir : simpl never.
Arguments mkdir_parents : simpl never.
Arguments path_exists : simpl never.
Arguments get_repo : simpl never.
Arguments read_templates : simpl never.

(** ** The monad *)

Lemma bind_ok_inv {A B} (m : M A) (f : A -> M B) w w' b :
  bind m f w = (w', Ok b) ->
  exists a w1, m w = (w1, Ok a) /\ f a w1 = (w', Ok b).
Proof.
  unfold bind. destruct (m w) as [w1 [a|e]]; intros H.
  - exists a, w1. split; [reflexivity | exact H].
  - discriminate H.
Qed.

Lemma bind_eq {A B} (m : M A) (f : A -> M B) w w1 a :
  m w = (w1, Ok a) -> bind m f w = f a w1.
Proof. intros H. unfold bind. rewrite H. reflexivity. Qed.

Lemma bind_raise {A B} (m : M A) (f : A -> M B) w w1 e :
  m w = (w1, Raise e) -> bind m f w = (w1, Raise e).
Proof. intros H. unfold bind. rewrite H. reflexivity. Qed.

Lemma mkdir_parents_from_eq ok rk w :
  mkdir_parents_from ok rk w =
  match os_mkdir (rev rk) w with
  | (w', Ok _) => (w', Ok tt)
  | (w', Raise FileNotFoundError) =>
      match rk with
      | [] => (w', Raise FileNotFoundError)
      | _ :: rp =>
          match mkdir_parents_from true rp w' with
          | (w'', Ok _) =>
              match os_mkdir (rev rk) w'' with
              | (w3, Raise e) => except_exist_ok ok (rev rk) w3 e
              | r => r
              end
          | r => r
          end
      end
  | (w', Raise e) => except_exist_ok ok (rev rk) w' e
  end.
Proof. destruct rk; reflexivity. Qed.

Lemma keeps_ret {A} P (a : A) : keeps P (ret a).
Proof. intros w H. exact H. Qed.

Lemma keeps_raise {A} P e : keeps P (@raise A e).
Proof. intros w H. exact H. Qed.

Lemma keeps_bind {A B} P (m : M A) (f : A -> M B) :
  keeps P m -> (forall a, keeps P (f a)) -> keeps P (bind m f).
Proof.
  intros Hm Hf w H. unfold bind.
  specialize (Hm w H). destruct (m w) as [w1 [a|e]]; simpl in *.
  - apply Hf. exact Hm.
  - exact Hm.
Qed.

Lemma keeps_lift {A} P (r : result A) : keeps P (lift r).
Proof. destruct r; [apply keeps_ret | apply keeps_raise]. Qed.

Lemma keeps_for_each {A} P (f : A -> M unit) l :
  (forall a, keeps P (f a)) -> keeps P (for_each f l).
Proof.
  intros Hf. induction l as [|x r IH]; simpl.
  - apply keeps_ret.
  - apply keeps_bind; [apply Hf | intros _; exact IH].
Qed.

(** A property of the trace alone, kept by every event but some. *)
Section TraceInvariant.
Variable Q : list event -> Prop.
Variable allowed : event -> Prop.
Hypothesis Q_snoc : forall t e, allowed e -> Q t -> Q (t ++ [e]).

Let P (w : world) : Prop := Q (trace w).

Lemma keeps_log e : allowed e -> keeps P (log e).
Proof. intros He w H. unfold P, log. simpl. apply Q_snoc; assumption. Qed.

Lemma keeps_get_files : keeps P get_files.
Proof. intros w H. exact H. Qed.

Lemma keeps_set_files m : keeps P (set_files m).
Proof. intros w H. exact H. Qed.

Lemma keeps_resolved E p : keeps P (resolved E p).
Proof.
  unfold resolved. destruct (resolve E p); [apply keeps_ret | apply keeps_raise].
Qed.

Lemma keeps_path_exists E p : keeps P (path_exists E p).
Proof.
  unfold path_exists. apply keeps_bind; [apply keeps_resolved | intros k].
  apply keeps_bind; [apply keeps_get_files | intros m]. apply keeps_ret.
Qed.

Hypothesis allowed_mkdir : forall k, allowed (Mkdir k).
Hypothesis allowed_open : forall k, allowed (OpenW k).
Hypothesis allowed_write : forall k, allowed (WriteText k).
Hypothesis allowed_read : allowed ReadTemplates.

Lemma keeps_os_mkdir k : keeps P (os_mkdir k).
Proof.
  unfold os_mkdir. apply keeps_bind; [apply keeps_log, allowed_mkdir | intros _].
  apply keeps_bind; [apply keeps_get_files | intros m].
  destruct (stat m k); [apply keeps_raise |].
  destruct (stat m (parent k)) as [[|s]|].
  - apply keeps_set_files.
  - apply keeps_raise.
  - destruct (file_above m [] k); apply keeps_raise.
Qed.

Lemma keeps_mkdir E p : keeps P (mkdir E p).
Proof.
  unfold mkdir. apply keeps_bind; [apply keeps_resolved | intros k].
  apply keeps_os_mkdir.
Qed.

Lemma keeps_except_exist_ok ok k w e :
  P w -> P (fst (except_exist_ok ok k w e)).
Proof.
  intros H. unfold except_exist_ok. destruct (ok && _); exact H.
Qed.

Lemma keeps_mkdir_parents_from ok rk : keeps P (mkdir_parents_from ok rk).
Proof.
  revert ok. induction rk as [|x rp IH]; intros ok w H;
    rewrite mkdir_parents_from_eq.
  - pose proof (keeps_os_mkdir (rev []) w H) as H1.
    destruct (os_mkdir (rev []) w) as [w1 [u|e]]; [exact H1 |].
    destruct e; try (apply keeps_except_exist_ok; exact H1); exact H1.
  - pose proof (keeps_os_mkdir (rev (x :: rp)) w H) as H1.
    destruct (os_mkdir (rev (x :: rp)) w) as [w1 [u|e]]; [exact H1 |].
    destruct e; try (apply keeps_except_exist_ok; exact H1).
    pose proof (IH true w1 H1) as H2.
    destruct (mkdir_parents_from true rp w1) as [w2 [u|e]]; [| exact H2].
    pose proof (keeps_os_mkdir (rev (x :: rp)) w2 H2) as H3.
    destruct (os_mkdir (rev (x :: rp)) w2) as [w3 [u'|e]]; [exact H3 |].
    apply keeps_except_exist_ok; exact H3.
Qed.

Lemma keeps_mkdir_parents E p : keeps P (mkdir_parents E p).
Proof.
  unfold mkdir_parents. apply keeps_bind; [apply keeps_resolved | intros k].
  apply keeps_mkdir_parents_from.
Qed.

Lemma keeps_open_w E p : keeps P (open_w E p).
Proof.
  unfold open_w. apply keeps_bind; [apply keeps_resolved | intros k].
  apply keeps_bind; [apply keeps_log, allowed_open | intros _].
  apply keeps_bind; [apply keeps_get_files | intros m].
  assert (Hset : keeps P (set_files (<[k:=File ""]> m);;; ret k)).
  { apply keeps_bind; [apply keeps_set_files | intros _; apply keeps_ret]. }
  destruct (stat m k) as [[|s]|]; [apply keeps_raise | exact Hset |].
  destruct (stat m (parent k)) as [[|s]|];
    [exact Hset | apply keeps_raise |].
  destruct (file_above m [] k); apply keeps_raise.
Qed.

Lemma keeps_write k s : keeps P (write k s).
Proof.
  unfold write. apply keeps_bind; [apply keeps_log, allowed_write | intros _].
  apply keeps_bind; [apply keeps_get_files | intros m].
  destruct (m !! k) as [[|old]|];
    [apply keeps_raise | apply keeps_set_files | apply keeps_raise].
Qed.

Lemma keeps_read_templates E : keeps P (read_templates E).
Proof.
  unfold read_templates.
  apply keeps_bind; [apply keeps_log, allowed_read | intros _].
  destruct (template_dir E); [apply keeps_lift | apply keeps_raise].
Qed.

Lemma keeps_write_template E d all t : keeps P (write_template E d all t).
Proof.
  unfold write_template. apply keeps_bind; [apply keeps_open_w | intros k].
  apply keeps_bind; [apply keeps_lift | intros kw].
  apply keeps_bind; [apply keeps_lift | intros text]. apply keeps_write.
Qed.

Lemma keeps_deploy E c d cmd : keeps P (deploy E c d cmd).
Proof.
  unfold deploy. apply keeps_bind; [apply keeps_mkdir | intros _].
  apply keeps_bind; [apply keeps_open_w | intros k].
  apply keeps_bind; [apply keeps_write | intros _].
  apply keeps_bind; [apply keeps_read_templates | intros ts].
  apply keeps_bind.
  - destruct (ports c); [apply keeps_raise | apply keeps_ret].
  - intros port. apply keeps_for_each. intros t. apply keeps_write_template.
Qed.

Lemma keeps_scaffold E c cld : keeps P (scaffold E c cld).
Proof.
  unfold scaffold.
  apply keeps_bind; [apply keeps_path_exists | intros e].
  apply keeps_bind;
    [destruct e; [apply keeps_ret | apply keeps_mkdir_parents] | intros _].
  apply keeps_bind; [apply keeps_path_exists | intros e'].
  apply keeps_bind;
    [destruct e'; [apply keeps_ret | apply keeps_mkdir] | intros _].
  apply keeps_bind; [apply keeps_open_w | intros k].
  apply keeps_bind; [apply keeps_write | intros _].
  apply keeps_bind;
    [destruct (remote c); [apply keeps_deploy | apply keeps_ret] | intros _].
  apply keeps_bind; [apply keeps_mkdir | intros _].
  apply keeps_bind; [apply keeps_open_w | intros k'].
  apply keeps_bind; [apply keeps_write | intros _].
  apply keeps_bind; [apply keeps_mkdir | intros _].
  apply keeps_bind; [apply keeps_open_w | intros k''].
  apply keeps_bind; [apply keeps_write | intros _].
  apply keeps_mkdir.
Qed.
End TraceInvariant.

(** ** [create_challenge], by the choice of [cld] *)

Lemma get_repo_eq E w :
  get_repo E w =
  ({| files := files w; trace := trace w ++ [RepoLookup] |},
   match search_up (files w) (rev (cwd E)) with
   | Some k => Ok {| anchored := true; parts := k |}
   | None => Raise InvalidGitRepositoryError
   end).
Proof.
  unfold get_repo, bind, log, get_files, ret, raise. simpl.
  destruct (search_up (files w) (rev (cwd E))); reflexivity.
Qed.

Lemma create_challenge_eq E c w :
  create_challenge E c w =
  match target c with
  | Some t => scaffold E c (Path_of t) w
  | None =>
      match get_repo E w with
      | (w1, Ok repo) => scaffold E c (joinpath repo (value (type c))) w1
      | (w1, Raise e) => (w1, Raise e)
      end
  end.
Proof.
  unfold create_challenge, scaffold. destruct (target c) as [t|].
  - reflexivity.
  - unfold bind at 1. unfold bind at 1.
    destruct (get_repo E w) as [w1 [repo|e]]; reflexivity.
Qed.

(** C9: the repository root is looked up exactly when [target] is
    absent; and when it is absent and no directory from the working
    directory up to the root holds a [.git] entry, the call raises
    [InvalidGitRepositoryError] with the file system untouched and the
    lookup as the only thing attempted: no directory creation, no
    file opened or written. *)
Theorem repo_lookup_only_without_target E c fs :
  (In RepoLookup (trace (fst (run (create_challenge E c) fs)))
   <-> target c = None) /\
  (target c = None ->
   search_up fs (rev (cwd E)) = None ->
   run (create_challenge E c) fs =
   ({| files := fs; trace := [RepoLookup] |}, Raise InvalidGitRepositoryError)).
Proof.
  unfold run. split; [split |].
  - intros Hin. rewrite create_challenge_eq in Hin.
    destruct (target c) as [t|]; [exfalso | reflexivity].
    revert Hin.
    apply (keeps_scaffold (fun tr => ~ In RepoLookup tr)
             (fun e => e <> RepoLookup)).
    + intros tr e He Htr Hin. apply in_app_or in Hin.
      destruct Hin as [Hin | [Heq | []]]; [exact (Htr Hin) | congruence].
    + discriminate.
    + discriminate.
    + discriminate.
    + discriminate.
    + simpl. tauto.
  - intros Ht. rewrite create_challenge_eq, Ht, get_repo_eq. simpl.
    assert (H0 : In RepoLookup
                   (trace {| files := fs; trace := [RepoLookup] |})).
    { simpl. left. reflexivity. }
    destruct (search_up fs (rev (cwd E))); [| exact H0].
    revert H0.
    apply (keeps_scaffold (fun tr => In RepoLookup tr) (fun _ => True));
      try (intros; exact I).
    intros tr e _ Htr. apply in_or_app. left. exact Htr.
  - intros Ht Hs. rewrite create_challenge_eq, Ht, get_repo_eq. simpl.
    rewrite Hs. reflexivity.
Qed.

(** ** Paths and keys *)

Lemma resolve_join E p k x :
  resolve E p = Some k ->
  Path_of x = {| anchored := false; parts := [x] |} ->
  plain_part x = true ->
  resolve E (joinpath p x) = Some (k ++ [x]).
Proof.
  unfold resolve, joinpath. intros Hp Hx Hplain. rewrite Hx. simpl.
  rewrite forallb_app. simpl. rewrite Hplain.
  destruct (forallb plain_part (parts p)); [| discriminate Hp].
  simpl. inversion Hp. rewrite app_assoc. reflexivity.
Qed.

(** Keys built from one directory key by appending names differ as
    soon as the appended names do. *)
Ltac key_neq :=
  let H := fresh "Hk" in
  intros H; repeat rewrite <- app_assoc in H; simpl in H;
  first [ apply app_inv_head in H; discriminate H
        | apply (f_equal (@List.length string)) in H; simpl in H;
          repeat rewrite length_app in H; simpl in H; lia ].

Lemma snoc_not_nil (k : key) x : k ++ [x] <> [].
Proof. destruct k; discriminate. Qed.

Lemma stat_lookup (m : fsmap) k : k <> [] -> stat m k = m !! k.
Proof. destruct k; [congruence | reflexivity]. Qed.

Lemma stat_insert_ne (m : fsmap) k k' n :
  k <> k' -> stat (<[k := n]> m) k' = stat m k'.
Proof.
  intros Hne. destruct k'; [reflexivity |]. simpl.
  apply lookup_insert_ne. exact Hne.
Qed.

Lemma parent_snoc (k : key) x : parent (k ++ [x]) = k.
Proof. unfold parent. apply removelast_last. Qed.

(** ** The file-system calls, read from their outcome *)

Lemma os_mkdir_eq k w :
  os_mkdir k w =
  let w1 := {| files := files w; trace := trace w ++ [Mkdir k] |} in
  match stat (files w) k with
  | Some _ => (w1, Raise FileExistsError)
  | None =>
      match stat (files w) (parent k) with
      | Some Dir =>
          ({| files := <[k := Dir]> (files w);
              trace := trace w ++ [Mkdir k] |}, Ok tt)
      | Some (File _) => (w1, Raise NotADirectoryError)
      | None =>
          if file_above (files w) [] k then (w1, Raise NotADirectoryError)
          else (w1, Raise FileNotFoundError)
      end
  end.
Proof.
  unfold os_mkdir, bind, log, get_files, set_files, raise. simpl.
  destruct (stat (files w) k); [reflexivity |].
  destruct (stat (files w) (parent k)) as [[|s]|]; try reflexivity.
  destruct (file_above (files w) [] k); reflexivity.
Qed.

Lemma os_mkdir_ok_inv k w w' u :
  os_mkdir k w = (w', Ok u) ->
  k <> [] /\ files w !! k = None /\ stat (files w) (parent k) = Some Dir /\
  w' = {| files := <[k := Dir]> (files w); trace := trace w ++ [Mkdir k] |}.
Proof.
  rewrite os_mkdir_eq. simpl.
  destruct k as [|x k']; [simpl; discriminate |].
  destruct (stat (files w) (x :: k')) eqn:Hs; [discriminate |].
  destruct (stat (files w) (parent (x :: k'))) as [[|s]|] eqn:Hp;
    try discriminate.
  - intros H. inversion H. repeat split; try assumption. discriminate.
  - destruct (file_above (files w) [] (x :: k')); discriminate.
Qed.

Lemma resolved_ok_inv E p w w' k :
  resolved E p w = (w', Ok k) -> resolve E p = Some k /\ w' = w.
Proof.
  unfold resolved. destruct (resolve E p); intros H; inversion H; auto.
Qed.

Lemma mkdir_ok_inv E p w w' u :
  mkdir E p w = (w', Ok u) ->
  exists k, resolve E p = Some k /\ k <> [] /\ files w !! k = None /\
            stat (files w) (parent k) = Some Dir /\
            w' = {| files := <[k := Dir]> (files w);
                    trace := trace w ++ [Mkdir k] |}.
Proof.
  unfold mkdir. intros H. apply bind_ok_inv in H as (k & w1 & H1 & H2).
  apply resolved_ok_inv in H1 as [Hr ->].
  apply os_mkdir_ok_inv in H2. exists k. tauto.
Qed.

Lemma open_w_eq E p w :
  open_w E p w =
  match resolve E p with
  | None => (w, Raise Beyond_model)
  | Some k =>
      let w1 := {| files := files w; trace := trace w ++ [OpenW k] |} in
      let w2 := {| files := <[k := File ""]> (files w);
                   trace := trace w ++ [OpenW k] |} in
      match stat (files w) k with
      | Some Dir => (w1, Raise IsADirectoryError)
      | Some (File _) => (w2, Ok k)
      | None =>
          match stat (files w) (parent k) with
          | Some Dir => (w2, Ok k)
          | Some (File _) => (w1, Raise NotADirectoryError)
          | None =>
              if file_above (files w) [] k then (w1, Raise NotADirectoryError)
              else (w1, Raise FileNotFoundError)
          end
      end
  end.
Proof.
  unfold open_w, resolved, bind, log, get_files, set_files, raise, ret.
  destruct (resolve E p) as [k|]; [| reflexivity]. simpl.
  destruct (stat (files w) k) as [[|s]|]; try reflexivity.
  destruct (stat (files w) (parent k)) as [[|s]|]; try reflexivity.
  destruct (file_above (files w) [] k); reflexivity.
Qed.

Lemma open_w_ok_inv E p w w' k :
  open_w E p w = (w', Ok k) ->
  resolve E p = Some k /\ k <> [] /\
  w' = {| files := <[k := File ""]> (files w); trace := trace w ++ [OpenW k] |}.
Proof.
  rewrite open_w_eq. destruct (resolve E p) as [k0|]; [| discriminate]. simpl.
  destruct k0 as [|x k']; [simpl; discriminate |].
  destruct (stat (files w) (x :: k')) as [[|s]|].
  - discriminate.
  - intros H. inversion H. subst. repeat split. discriminate.
  - destruct (stat (files w) (parent (x :: k'))) as [[|s]|]; try discriminate.
    + intros H. inversion H. subst. repeat split. discriminate.
    + destruct (file_above (files w) [] (x :: k')); discriminate.
Qed.

Lemma write_eq k s w :
  write k s w =
  let w1 := {| files := files w; trace := trace w ++ [WriteText k] |} in
  match files w !! k with
  | Some (File old) =>
      ({| files := <[k := File (old +:+ s)]> (files w);
          trace := trace w ++ [WriteText k] |}, Ok tt)
  | _ => (w1, Raise Beyond_model)
  end.
Proof.
  unfold write, bind, log, get_files, set_files, raise. simpl.
  destruct (files w !! k) as [[|old]|]; reflexivity.
Qed.

(** Opening a path and writing one text to the stream. *)
Lemma open_write_ok_inv E p s w w' f w2 u :
  open_w E p w = (w', Ok f) ->
  write f s w' = (w2, Ok u) ->
  resolve E p = Some f /\ f <> [] /\
  w2 = {| files := <[f := File s]> (files w);
          trace := trace w ++ [OpenW f; WriteText f] |}.
Proof.
  intros Ho Hw. apply open_w_ok_inv in Ho as (Hr & Hne & ->).
  rewrite write_eq in Hw. simpl in Hw.
  rewrite lookup_insert_eq in Hw. inversion Hw.
  repeat split; try assumption.
  rewrite insert_insert_eq, <- app_assoc. reflexivity.
Qed.

(** ** The stubs: [solve/flag.txt], [src/Makefile], [dist] *)

Lemma lookup_none_insert_inv (m : fsmap) k k' n :
  <[k := n]> m !! k' = None -> k <> k' /\ m !! k' = None.
Proof.
  intros H. destruct (decide (k = k')) as [->|Hne].
  - rewrite lookup_insert_eq in H. discriminate.
  - rewrite lookup_insert_ne in H by assumption. auto.
Qed.

Lemma stubs_ok_inv E c d kd w w' u :
  resolve E d = Some kd ->
  stubs E c d w = (w', Ok u) ->
  stat (files w) kd = Some Dir /\
  files w !! (kd ++ ["solve"]) = None /\
  files w !! (kd ++ ["src"]) = None /\
  files w !! (kd ++ ["dist"]) = None /\
  w' = {| files := stubs_files c kd (files w);
          trace := trace w ++ stubs_events kd |}.
Proof.
  intros Hd H. unfold stubs in H.
  pose proof (resolve_join E d kd "solve" Hd eq_refl eq_refl) as Rsolve.
  pose proof (resolve_join E d kd "src" Hd eq_refl eq_refl) as Rsrc.
  pose proof (resolve_join E d kd "dist" Hd eq_refl eq_refl) as Rdist.
  pose proof (resolve_join E _ _ "flag.txt" Rsolve eq_refl eq_refl) as Rflag.
  pose proof (resolve_join E _ _ "Makefile" Rsrc eq_refl eq_refl) as Rmake.
  apply bind_ok_inv in H as (u1 & w1 & H1 & H).
  apply mkdir_ok_inv in H1 as (k1 & R1 & _ & N1 & P1 & ->).
  rewrite Rsolve in R1. inversion R1; subst k1. clear R1.
  rewrite parent_snoc in P1.
  apply bind_ok_inv in H as (f2 & w2 & H2 & H).
  apply bind_ok_inv in H as (u2 & w2' & H2' & H).
  destruct (open_write_ok_inv _ _ _ _ _ _ _ _ H2 H2') as (R2 & _ & ->).
  rewrite Rflag in R2. inversion R2; subst f2. clear R2 H2 H2'.
  apply bind_ok_inv in H as (u3 & w3 & H3 & H).
  apply mkdir_ok_inv in H3 as (k3 & R3 & _ & N3 & _ & ->).
  rewrite Rsrc in R3. inversion R3; subst k3. clear R3.
  apply bind_ok_inv in H as (f4 & w4 & H4 & H).
  apply bind_ok_inv in H as (u4 & w4' & H4' & H).
  destruct (open_write_ok_inv _ _ _ _ _ _ _ _ H4 H4') as (R4 & _ & ->).
  rewrite Rmake in R4. inversion R4; subst f4. clear R4 H4 H4'.
  apply mkdir_ok_inv in H as (k5 & R5 & _ & N5 & _ & ->).
  rewrite Rdist in R5. inversion R5; subst k5. clear R5.
  simpl in N3, N5.
  apply lookup_none_insert_inv in N3 as [_ N3].
  apply lookup_none_insert_inv in N3 as [_ N3].
  apply lookup_none_insert_inv in N5 as [_ N5].
  apply lookup_none_insert_inv in N5 as [_ N5].
  apply lookup_none_insert_inv in N5 as [_ N5].
  apply lookup_none_insert_inv in N5 as [_ N5].
  repeat split; try assumption.
  unfold stubs_files, stubs_events. simpl.
  repeat rewrite <- app_assoc. reflexivity.
Qed.

Lemma mkdir_ok E p k w :
  resolve E p = Some k ->
  k <> [] ->
  files w !! k = None ->
  stat (files w) (parent k) = Some Dir ->
  mkdir E p w =
  ({| files := <[k := Dir]> (files w); trace := trace w ++ [Mkdir k] |}, Ok tt).
Proof.
  intros Hr Hne Hk Hp. unfold mkdir, resolved. rewrite Hr.
  unfold bind, ret. rewrite os_mkdir_eq. simpl.
  rewrite (stat_lookup _ _ Hne), Hk, Hp. reflexivity.
Qed.

Lemma open_w_ok E p k w :
  resolve E p = Some k ->
  k <> [] ->
  not_dir (files w !! k) ->
  stat (files w) (parent k) = Some Dir ->
  open_w E p w =
  ({| files := <[k := File ""]> (files w); trace := trace w ++ [OpenW k] |},
   Ok k).
Proof.
  intros Hr Hne Hk Hp. rewrite open_w_eq, Hr. simpl.
  rewrite (stat_lookup _ _ Hne), Hp.
  destruct (files w !! k) as [[|s]|]; [exfalso; apply Hk |..]; reflexivity.
Qed.

(** [with p.open("w") as f: f.write(s)] *)
Lemma write_file_ok {B} E p k s (g : unit -> M B) w :
  resolve E p = Some k ->
  k <> [] ->
  not_dir (files w !! k) ->
  stat (files w) (parent k) = Some Dir ->
  bind (open_w E p) (fun f => bind (write f s) g) w =
  g tt {| files := <[k := File s]> (files w);
          trace := trace w ++ [OpenW k; WriteText k] |}.
Proof.
  intros Hr Hne Hk Hp.
  rewrite (bind_eq _ _ _ _ _ (open_w_ok E p k w Hr Hne Hk Hp)).
  unfold bind. rewrite write_eq. simpl. rewrite lookup_insert_eq.
  rewrite insert_insert_eq, <- app_assoc. reflexivity.
Qed.

Lemma stubs_ok E c d kd w :
  resolve E d = Some kd ->
  stat (files w) kd = Some Dir ->
  files w !! (kd ++ ["solve"]) = None ->
  files w !! (kd ++ ["src"]) = None ->
  files w !! (kd ++ ["dist"]) = None ->
  not_dir (files w !! ((kd ++ ["solve"]) ++ ["flag.txt"])) ->
  not_dir (files w !! ((kd ++ ["src"]) ++ ["Makefile"])) ->
  stubs E c d w =
  ({| files := stubs_files c kd (files w);
      trace := trace w ++ stubs_events kd |}, Ok tt).
Proof.
  intros Hd Hkd N1 N3 N5 F2 F4. unfold stubs.
  pose proof (resolve_join E d kd "solve" Hd eq_refl eq_refl) as Rsolve.
  pose proof (resolve_join E d kd "src" Hd eq_refl eq_refl) as Rsrc.
  pose proof (resolve_join E d kd "dist" Hd eq_refl eq_refl) as Rdist.
  pose proof (resolve_join E _ _ "flag.txt" Rsolve eq_refl eq_refl) as Rflag.
  pose proof (resolve_join E _ _ "Makefile" Rsrc eq_refl eq_refl) as Rmake.
  erewrite bind_eq;
    [| apply (mkdir_ok E _ _ _ Rsolve);
       [apply snoc_not_nil | exact N1 | rewrite parent_snoc; exact Hkd]].
  rewrite (write_file_ok E _ _ _ _ _ Rflag); cycle 1.
  { apply snoc_not_nil. }
  { simpl. rewrite lookup_insert_ne by key_neq. exact F2. }
  { simpl. rewrite parent_snoc, stat_lookup by apply snoc_not_nil.
    apply lookup_insert_eq. }
  erewrite bind_eq; cycle 1.
  { apply (mkdir_ok E _ _ _ Rsrc).
    - apply snoc_not_nil.
    - simpl. rewrite !lookup_insert_ne by key_neq. exact N3.
    - simpl. rewrite parent_snoc, !stat_insert_ne by key_neq. exact Hkd. }
  rewrite (write_file_ok E _ _ _ _ _ Rmake); cycle 1.
  { apply snoc_not_nil. }
  { simpl. rewrite !lookup_insert_ne by key_neq. exact F4. }
  { simpl. rewrite parent_snoc, stat_lookup by apply snoc_not_nil.
    apply lookup_insert_eq. }
  rewrite (mkdir_ok E _ _ _ Rdist); cycle 1.
  { apply snoc_not_nil. }
  { simpl. rewrite !lookup_insert_ne by key_neq. exact N5. }
  { simpl. rewrite parent_snoc, !stat_insert_ne by key_neq. exact Hkd. }
  unfold stubs_files, stubs_events. simpl.
  repeat rewrite <- app_assoc. reflexivity.
Qed.

(** ** A successful run ends with the stubs *)

Lemma path_exists_ok_inv E p w w' b :
  path_exists E p w = (w', Ok b) ->
  exists k, resolve E p = Some k /\ w' = w /\ b = present (stat (files w) k).
Proof.
  unfold path_exists. intros H.
  apply bind_ok_inv in H as (k & w1 & H1 & H).
  apply resolved_ok_inv in H1 as [Hr ->].
  unfold bind, get_files, ret in H. inversion H. exists k. auto.
Qed.

Lemma scaffold_ok_inv E c cld w w' u :
  scaffold E c cld w = (w', Ok u) ->
  exists kd w0,
    resolve E (joinpath cld (name c)) = Some kd /\
    stubs E c (joinpath cld (name c)) w0 = (w', Ok u).
Proof.
  unfold scaffold. intros H.
  apply bind_ok_inv in H as (e1 & w1 & _ & H).
  apply bind_ok_inv in H as (u1 & w2 & _ & H).
  apply bind_ok_inv in H as (e2 & w3 & H3 & H).
  apply path_exists_ok_inv in H3 as (kd & Hkd & _ & _).
  apply bind_ok_inv in H as (u2 & w4 & _ & H).
  apply bind_ok_inv in H as (f & w5 & _ & H).
  apply bind_ok_inv in H as (u3 & w6 & _ & H).
  apply bind_ok_inv in H as (u4 & w7 & _ & H).
  exists kd, w7. split; [exact Hkd | exact H].
Qed.

Lemma create_challenge_ok_inv E c fs w' u :
  run (create_challenge E c) fs = (w', Ok u) ->
  exists kd w0,
    challenge_key E c fs = Some kd /\
    stat (files w0) kd = Some Dir /\
    w' = {| files := stubs_files c kd (files w0);
            trace := trace w0 ++ stubs_events kd |}.
Proof.
  unfold run. rewrite create_challenge_eq.
  unfold challenge_key, challenge_dir, category_dir.
  destruct (target c) as [t|].
  - intros H. apply scaffold_ok_inv in H as (kd & w0 & Hkd & H).
    destruct (stubs_ok_inv _ _ _ _ _ _ _ Hkd H) as (Hd & _ & _ & _ & ->).
    exists kd, w0. auto.
  - rewrite get_repo_eq. simpl.
    destruct (search_up fs (rev (cwd E))) as [k|]; [| discriminate].
    intros H. apply scaffold_ok_inv in H as (kd & w0 & Hkd & H).
    destruct (stubs_ok_inv _ _ _ _ _ _ _ Hkd H) as (Hd & _ & _ & _ & ->).
    exists kd, w0. auto.
Qed.

Lemma stubs_files_flag c kd m :
  stubs_files c kd m !! (kd ++ ["solve"; "flag.txt"]) = Some (File (flag c)).
Proof.
  unfold stubs_files. rewrite !lookup_insert_ne by key_neq.
  rewrite <- app_assoc. apply lookup_insert_eq.
Qed.

Lemma stubs_files_makefile c kd m :
  stubs_files c kd m !! (kd ++ ["src"; "Makefile"])
  = Some (File (makefile (name c))).
Proof.
  unfold stubs_files. rewrite !lookup_insert_ne by key_neq.
  rewrite <- app_assoc. apply lookup_insert_eq.
Qed.

(** C6: after a run that succeeds, [solve/flag.txt] in the challenge
    directory holds exactly the [flag] field: the same characters,
    nothing added after them. *)
Theorem flag_file_holds_flag E c fs w' :
  run (create_challenge E c) fs = (w', Ok tt) ->
  exists kd,
    challenge_key E c fs = Some kd /\
    files w' !! (kd ++ ["solve"; "flag.txt"]) = Some (File (flag c)).
Proof.
  intros H. apply create_challenge_ok_inv in H as (kd & w0 & Hk & _ & ->).
  exists kd. split; [exact Hk |]. simpl. apply stubs_files_flag.
Qed.

(** ** The Makefile *)

Lemma append_cons x (a b : string) : String x a +:+ b = String x (a +:+ b).
Proof. reflexivity. Qed.

Lemma append_nil_l (b : string) : "" +:+ b = b.
Proof. reflexivity. Qed.

Lemma append_assoc3 (a b c : string) : (a +:+ b) +:+ c = a +:+ b +:+ c.
Proof.
  induction a as [|x a IH]; [reflexivity |].
  rewrite !append_cons, IH. reflexivity.
Qed.

Lemma append_nil_r (a : string) : a +:+ "" = a.
Proof.
  induction a as [|x a IH]; [reflexivity |].
  rewrite append_cons, IH. reflexivity.
Qed.

Lemma makefile_lines n :
  makefile n =
  unlines [ "CC="; "CXX="; "CFLAGS="; "CXXFLAGS="; "LDFLAGS="; "";
            "all: " +:+ n; "";
            n +:+ ": " +:+ n +:+ ".c";
            TAB +:+ "$(CC) $(CFLAGS) $(LDFLAGS) -o $@ $^" ].
Proof.
  unfold makefile, unlines. rewrite !append_assoc3. reflexivity.
Qed.

Lemma makefile_default_goal n : default_goal (makefile n) = Some "all".
Proof. reflexivity. Qed.



Lemma flag_file_holds_flag_witness :
  exists kd,
    challenge_key example_env example_challenge empty_fs = Some kd /\
    files (fst (run (create_challenge example_env example_challenge) empty_fs))
      !! (kd ++ ["solve"; "flag.txt"]) = Some (File "flag{test}").
Proof.
  apply (flag_file_holds_flag example_env example_challenge empty_fs).
  vm_compute. reflexivity.
Defined.


Lemma repo_lookup_only_without_target_witness :
  run (create_challenge example_env
         (mkChallenge PWN "stack1" "alice" "simple overflow" "Easy"
            "flag{test}" ["dist/stack1"] [1337%Z] None None)) empty_fs =
  ({| files := empty_fs; trace := [RepoLookup] |},
   Raise InvalidGitRepositoryError).
Proof.
  apply (proj2 (repo_lookup_only_without_target example_env
                  (mkChallenge PWN "stack1" "alice" "simple overflow" "Easy"
                     "flag{test}" ["dist/stack1"] [1337%Z] None None)
                  empty_fs)).
  - reflexivity.
  - vm_compute. reflexivity.
Defined.

(** ** Two runs that differ in the text of [chal.json] only *)

Section Similar.
Variable kj : option key.

Lemma related_ret {A} (Q : A -> Prop) a : Q a -> related kj Q (ret a) (ret a).
Proof.
  intros Ha w1 w2 H. simpl. repeat split; try apply H.
  intros a' Heq. inversion Heq. subst. exact Ha.
Qed.

Lemma related_raise {A} (Q : A -> Prop) e : related kj Q (raise e) (raise e).
Proof.
  intros w1 w2 H. simpl. repeat split; try apply H. discriminate.
Qed.

Lemma related_bind {A B} (Q : A -> Prop) (Q' : B -> Prop)
    (m1 m2 : M A) (f1 f2 : A -> M B) :
  related kj Q m1 m2 ->
  (forall a, Q a -> related kj Q' (f1 a) (f2 a)) ->
  related kj Q' (bind m1 f1) (bind m2 f2).
Proof.
  intros Hm Hf w1 w2 H. unfold bind.
  destruct (Hm w1 w2 H) as (Hs & Hr & Hq).
  destruct (m1 w1) as [w1' [a1|e1]], (m2 w2) as [w2' [a2|e2]];
    simpl in *; try discriminate.
  - inversion Hr. subst a2. apply Hf; [apply Hq; reflexivity | exact Hs].
  - inversion Hr. subst e2. repeat split; try apply Hs. discriminate.
Qed.

Lemma related_lift {A} (r : result A) : related kj anything (lift r) (lift r).
Proof.
  destruct r; [apply related_ret; exact I | apply related_raise].
Qed.

Lemma related_for_each {A} (f1 f2 : A -> M unit) l :
  (forall a, related kj anything (f1 a) (f2 a)) ->
  related kj anything (for_each f1 l) (for_each f2 l).
Proof.
  intros Hf. induction l as [|x r IH]; simpl.
  - apply related_ret. exact I.
  - eapply related_bind; [apply Hf | intros _ _; exact IH].
Qed.

Lemma sim_stat w1 w2 k :
  sim kj w1 w2 -> shape (stat (files w1) k) = shape (stat (files w2) k).
Proof.
  intros [_ H]. destruct k; [reflexivity | apply H].
Qed.

Lemma sim_log w1 w2 e :
  sim kj w1 w2 ->
  sim kj {| files := files w1; trace := trace w1 ++ [e] |}
         {| files := files w2; trace := trace w2 ++ [e] |}.
Proof.
  intros [Ht H]. split; simpl; [rewrite Ht; reflexivity | exact H].
Qed.

Lemma sim_insert w1 w2 k n e :
  sim kj w1 w2 ->
  sim kj {| files := <[k := n]> (files w1); trace := trace w1 ++ [e] |}
         {| files := <[k := n]> (files w2); trace := trace w2 ++ [e] |}.
Proof.
  intros [Ht H]. split; simpl; [rewrite Ht; reflexivity |].
  intros k'. destruct (decide (k = k')) as [->|Hne].
  - rewrite !lookup_insert_eq. auto.
  - rewrite !lookup_insert_ne by assumption. apply H.
Qed.

Lemma sim_insert_text w1 w2 k s1 s2 e :
  Some k = kj ->
  sim kj w1 w2 ->
  sim kj {| files := <[k := File s1]> (files w1); trace := trace w1 ++ [e] |}
         {| files := <[k := File s2]> (files w2); trace := trace w2 ++ [e] |}.
Proof.
  intros Hk [Ht H]. split; simpl; [rewrite Ht; reflexivity |].
  intros k'. destruct (decide (k = k')) as [->|Hne].
  - rewrite !lookup_insert_eq. split; [reflexivity | congruence].
  - rewrite !lookup_insert_ne by assumption. apply H.
Qed.

Lemma sim_file_above w1 w2 pre k :
  sim kj w1 w2 -> file_above (files w1) pre k = file_above (files w2) pre k.
Proof.
  intros H. revert pre. induction k as [|x r IH]; intros pre; simpl.
  - reflexivity.
  - rewrite IH. f_equal. pose proof (sim_stat w1 w2 pre H) as Hs.
    destruct (stat (files w1) pre) as [[|?]|],
             (stat (files w2) pre) as [[|?]|]; simpl in *;
      congruence.
Qed.

Ltac same_shape H w1 w2 k :=
  let Hs := fresh "Hs" in
  pose proof (sim_stat w1 w2 k H) as Hs;
  destruct (stat (files w1) k) as [[|?]|],
           (stat (files w2) k) as [[|?]|];
  simpl in Hs; try discriminate Hs; clear Hs.

Ltac related_done H :=
  simpl;
  split;
  [ first [ exact H | apply sim_log; exact H | apply sim_insert; exact H ]
  | split; [ reflexivity | intros; exact I ] ].

Lemma related_os_mkdir k : related kj anything (os_mkdir k) (os_mkdir k).
Proof.
  intros w1 w2 H. rewrite !os_mkdir_eq. simpl.
  same_shape H w1 w2 k; try related_done H.
  same_shape H w1 w2 (parent k); try related_done H.
  rewrite (sim_file_above w1 w2 [] k H).
  destruct (file_above (files w2) [] k); related_done H.
Qed.
Lemma related_resolved E p :
  related kj (fun k => resolve E p = Some k) (resolved E p) (resolved E p).
Proof.
  unfold resolved. destruct (resolve E p) as [k|].
  - apply related_ret. reflexivity.
  - apply related_raise.
Qed.

Lemma related_path_exists E p :
  related kj anything (path_exists E p) (path_exists E p).
Proof.
  intros w1 w2 H. unfold path_exists, resolved, bind, get_files, ret, raise.
  destruct (resolve E p) as [k|]; [| related_done H]. simpl.
  same_shape H w1 w2 k; related_done H.
Qed.

Lemma related_mkdir E p : related kj anything (mkdir E p) (mkdir E p).
Proof.
  unfold mkdir. eapply related_bind; [apply related_resolved |].
  intros k _. apply related_os_mkdir.
Qed.

Lemma related_mkdir_parents_from ok rk :
  related kj anything (mkdir_parents_from ok rk) (mkdir_parents_from ok rk).
Proof.
  assert (Hx : forall ok k w1 w2 e,
             sim kj w1 w2 ->
             sim kj (fst (except_exist_ok ok k w1 e))
                    (fst (except_exist_ok ok k w2 e)) /\
             snd (except_exist_ok ok k w1 e) = snd (except_exist_ok ok k w2 e) /\
             (forall a : unit,
                 snd (except_exist_ok ok k w1 e) = Ok a -> anything a)).
  { intros ok0 k w1 w2 e H. unfold except_exist_ok.
    same_shape H w1 w2 k; destruct ok0; related_done H. }
  revert ok. induction rk as [|x rp IH]; intros ok w1 w2 H;
    rewrite !mkdir_parents_from_eq.
  - destruct (related_os_mkdir (rev []) w1 w2 H) as (Hs & Hr & _).
    destruct (os_mkdir (rev []) w1) as [w1' [u1|e1]],
             (os_mkdir (rev []) w2) as [w2' [u2|e2]];
      simpl in Hs, Hr; try discriminate Hr.
    + related_done Hs.
    + inversion Hr. subst e2. destruct e1; try (apply Hx; exact Hs).
      related_done Hs.
  - destruct (related_os_mkdir (rev (x :: rp)) w1 w2 H) as (Hs & Hr & _).
    destruct (os_mkdir (rev (x :: rp)) w1) as [w1' [u1|e1]],
             (os_mkdir (rev (x :: rp)) w2) as [w2' [u2|e2]];
      simpl in Hs, Hr; try discriminate Hr.
    + related_done Hs.
    + inversion Hr. subst e2. destruct e1; try (apply Hx; exact Hs).
      destruct (IH true w1' w2' Hs) as (Hs2 & Hr2 & _).
      destruct (mkdir_parents_from true rp w1') as [w1'' [v1|e1]],
               (mkdir_parents_from true rp w2') as [w2'' [v2|e2]];
        simpl in Hs2, Hr2; try discriminate Hr2.
      * destruct (related_os_mkdir (rev (x :: rp)) w1'' w2'' Hs2)
          as (Hs3 & Hr3 & _).
        destruct (os_mkdir (rev (x :: rp)) w1'') as [a1 [t1|e1]],
                 (os_mkdir (rev (x :: rp)) w2'') as [a2 [t2|e2]];
          simpl in Hs3, Hr3; try discriminate Hr3.
        -- destruct t1, t2. related_done Hs3.
        -- inversion Hr3. subst e2. apply Hx. exact Hs3.
      * inversion Hr2. subst e2. related_done Hs2.
Qed.

Lemma related_mkdir_parents E p :
  related kj anything (mkdir_parents E p) (mkdir_parents E p).
Proof.
  unfold mkdir_parents. eapply related_bind; [apply related_resolved |].
  intros k _. apply related_mkdir_parents_from.
Qed.

Lemma related_open_w E p :
  related kj (fun k => resolve E p = Some k) (open_w E p) (open_w E p).
Proof.
  intros w1 w2 H. rewrite !open_w_eq.
  destruct (resolve E p) as [k|]; [| simpl; split; [exact H |];
                                     split; [reflexivity | discriminate]].
  assert (Hpost : forall a : key, @Ok key k = Ok a -> Some k = Some a).
  { intros a Ha. inversion Ha. reflexivity. }
  simpl.
  same_shape H w1 w2 k;
    try (simpl; split; [apply sim_log; exact H |];
         split; [reflexivity | discriminate]);
    try (simpl; split; [apply sim_insert; exact H |];
         split; [reflexivity | exact Hpost]).
  same_shape H w1 w2 (parent k);
    try (simpl; split; [apply sim_log; exact H |];
         split; [reflexivity | discriminate]);
    try (simpl; split; [apply sim_insert; exact H |];
         split; [reflexivity | exact Hpost]).
  rewrite (sim_file_above w1 w2 [] k H).
  destruct (file_above (files w2) [] k);
    simpl; (split; [apply sim_log; exact H |]);
    (split; [reflexivity | discriminate]).
Qed.

(** The same text to any stream. *)
Lemma related_write k s : related kj anything (write k s) (write k s).
Proof.
  intros w1 w2 H. rewrite !write_eq. simpl.
  destruct H as [Ht Hf]. destruct (Hf k) as [Hshape Heq].
  assert (H : sim kj w1 w2) by (split; assumption).
  destruct (decide (Some k = kj)) as [Hk|Hk].
  - destruct (files w1 !! k) as [[|o1]|], (files w2 !! k) as [[|o2]|];
      simpl in Hshape; try discriminate Hshape; try related_done H.
    simpl. split; [apply sim_insert_text; assumption |].
    split; [reflexivity | intros; exact I].
  - rewrite (Heq Hk).
    destruct (files w2 !! k) as [[|o2]|]; related_done H.
Qed.

(** Two texts to the stream of [chal.json]. *)
Lemma related_write_text k s1 s2 :
  Some k = kj -> related kj anything (write k s1) (write k s2).
Proof.
  intros Hk w1 w2 H. rewrite !write_eq. simpl.
  destruct H as [Ht Hf]. destruct (Hf k) as [Hshape _].
  assert (H : sim kj w1 w2) by (split; assumption).
  destruct (files w1 !! k) as [[|o1]|], (files w2 !! k) as [[|o2]|];
    simpl in Hshape; try discriminate Hshape; try related_done H.
  simpl. split; [apply sim_insert_text; assumption |].
  split; [reflexivity | intros; exact I].
Qed.

Lemma related_read_templates E :
  related kj anything (read_templates E) (read_templates E).
Proof.
  intros w1 w2 H. unfold read_templates, bind, log, lift, ret, raise.
  destruct (template_dir E) as [entries|]; simpl.
  - destruct (read_entries entries []); related_done H.
  - related_done H.
Qed.

Lemma sim_search_up w1 w2 rk :
  sim kj w1 w2 -> search_up (files w1) rk = search_up (files w2) rk.
Proof.
  intros [_ H]. induction rk as [|x rp IH].
  - simpl. unfold has_marker. destruct (H ([] ++ [".git"])) as [Hs _].
    destruct (files w1 !! ([] ++ [".git"])) as [[|?]|],
             (files w2 !! ([] ++ [".git"])) as [[|?]|];
      simpl in *; congruence.
  - cbn [search_up]. rewrite IH. unfold has_marker.
    destruct (H (rev (x :: rp) ++ [".git"])) as [Hs _].
    destruct (files w1 !! (rev (x :: rp) ++ [".git"])) as [[|?]|],
             (files w2 !! (rev (x :: rp) ++ [".git"])) as [[|?]|];
      simpl in *; congruence.
Qed.

Lemma related_get_repo E : related kj anything (get_repo E) (get_repo E).
Proof.
  intros w1 w2 H. rewrite !get_repo_eq.
  rewrite (sim_search_up w1 w2 _ H).
  destruct (search_up (files w2) (rev (cwd E))); related_done H.
Qed.

Lemma related_write_template E d all t :
  related kj anything (write_template E d all t) (write_template E d all t).
Proof.
  unfold write_template. eapply related_bind; [apply related_open_w |].
  intros k _. eapply related_bind; [apply related_lift |].
  intros kw _. eapply related_bind; [apply related_lift |].
  intros text _. apply related_write.
Qed.

Lemma related_stubs E c d : related kj anything (stubs E c d) (stubs E c d).
Proof.
  unfold stubs.
  eapply related_bind; [apply related_mkdir | intros _ _].
  eapply related_bind; [apply related_open_w | intros k _].
  eapply related_bind; [apply related_write | intros _ _].
  eapply related_bind; [apply related_mkdir | intros _ _].
  eapply related_bind; [apply related_open_w | intros k' _].
  eapply related_bind; [apply related_write | intros _ _].
  apply related_mkdir.
Qed.
Lemma related_deploy E c d cmd :
  related kj anything (deploy E c d cmd) (deploy E c d cmd).
Proof.
  unfold deploy.
  eapply related_bind; [apply related_mkdir | intros _ _].
  eapply related_bind; [apply related_open_w | intros k _].
  eapply related_bind; [apply related_write | intros _ _].
  eapply related_bind; [apply related_read_templates | intros ts _].
  eapply related_bind with (Q := anything).
  - destruct (ports c); [apply related_raise | apply related_ret; exact I].
  - intros port _. apply related_for_each. intros t.
    apply related_write_template.
Qed.

Lemma deploy_with_ports E c p r d cmd :
  deploy E (with_ports c (p :: r)) d cmd = deploy E (with_ports c [p]) d cmd.
Proof. reflexivity. Qed.

Lemma related_scaffold E c p r1 r2 cld :
  kj = resolve E (joinpath (joinpath cld (name c)) "chal.json") ->
  related kj anything
    (scaffold E (with_ports c (p :: r1)) cld)
    (scaffold E (with_ports c (p :: r2)) cld).
Proof.
  intros Hkj. unfold scaffold.
  eapply related_bind; [apply related_path_exists | intros e _].
  eapply related_bind with (Q := anything).
  { destruct e; [apply related_ret; exact I | apply related_mkdir_parents]. }
  intros _ _. cbn [name with_ports].
  eapply related_bind; [apply related_path_exists | intros e' _].
  eapply related_bind with (Q := anything).
  { destruct e'; [apply related_ret; exact I | apply related_mkdir]. }
  intros _ _.
  eapply related_bind; [apply related_open_w | intros k Hk].
  eapply related_bind with (Q := anything).
  { apply related_write_text. rewrite Hkj. symmetry. exact Hk. }
  intros _ _. cbn [remote with_ports].
  eapply related_bind with (Q := anything).
  { destruct (remote c) as [cmd|]; [| apply related_ret; exact I].
    rewrite (deploy_with_ports E c p r1), (deploy_with_ports E c p r2).
    apply related_deploy. }
  intros _ _. apply (related_stubs E c).
Qed.
End Similar.

Lemma sim_refl kj w : sim kj w w.
Proof. split; [reflexivity | intros k; split; reflexivity]. Qed.

(** C10: two challenges that differ only in their ports after the
    first end the same way, after the same sequence of calls, and leave
    the same entry at every path except [chal.json]: the later ports
    reach no other file. *)
Theorem ports_tail_noninterference E c p r1 r2 fs :
  snd (run (create_challenge E (with_ports c (p :: r1))) fs)
  = snd (run (create_challenge E (with_ports c (p :: r2))) fs) /\
  trace (fst (run (create_challenge E (with_ports c (p :: r1))) fs))
  = trace (fst (run (create_challenge E (with_ports c (p :: r2))) fs)) /\
  forall k,
    Some k <> chal_json_key E (with_ports c (p :: r1)) fs ->
    files (fst (run (create_challenge E (with_ports c (p :: r1))) fs)) !! k
    = files (fst (run (create_challenge E (with_ports c (p :: r2))) fs)) !! k.
Proof.
  unfold run. rewrite !create_challenge_eq.
  unfold chal_json_key, challenge_dir, category_dir.
  cbn [target type name with_ports].
  set (w0 := {| files := fs; trace := [] |}).
  destruct (target c) as [t|].
  - destruct (related_scaffold _ E c p r1 r2 (Path_of t) eq_refl w0 w0
                (sim_refl _ w0)) as ([Ht Hf] & Hr & _).
    split; [exact Hr |]. split; [exact Ht |].
    intros k Hk. apply Hf. exact Hk.
  - rewrite get_repo_eq. subst w0. cbn [files trace app].
    destruct (search_up fs (rev (cwd E))) as [kr|].
    + set (w1 := {| files := fs; trace := [RepoLookup] |}).
      destruct (related_scaffold _ E c p r1 r2
                  (joinpath {| anchored := true; parts := kr |}
                     (value (type c)))
                  eq_refl w1 w1 (sim_refl _ w1)) as ([Ht Hf] & Hr & _).
      split; [exact Hr |]. split; [exact Ht |].
      intros k Hk. apply Hf. exact Hk.
    + simpl. auto.
Qed.

(** ** Simple names *)

Lemma split_slash_no_slash n : has_char slash n = false -> split_slash n = [n].
Proof.
  induction n as [|c r IH]; simpl; [reflexivity |].
  destruct (Ascii.eqb c slash); simpl; [discriminate |].
  intros H. rewrite (IH H). reflexivity.
Qed.

Lemma Path_of_simple n :
  simple_name n = true -> Path_of n = {| anchored := false; parts := [n] |}.
Proof.
  unfold simple_name, Path_of. intros H.
  apply andb_prop in H as [H Hslash]. apply andb_prop in H as [Hkeep _].
  apply negb_true_iff in Hslash.
  rewrite (split_slash_no_slash n Hslash). simpl. rewrite Hkeep. f_equal.
  destruct n as [|c r]; [reflexivity |]. simpl in *.
  destruct (Ascii.eqb c slash); [discriminate | reflexivity].
Qed.

Lemma simple_name_plain n : simple_name n = true -> plain_part n = true.
Proof.
  unfold simple_name. intros H.
  apply andb_prop in H as [H _]. apply andb_prop in H as [_ H]. exact H.
Qed.

Lemma resolve_join_simple E p k n :
  resolve E p = Some k ->
  simple_name n = true ->
  resolve E (joinpath p n) = Some (k ++ [n]).
Proof.
  intros Hp Hn. apply resolve_join;
    [exact Hp | apply Path_of_simple, Hn | apply simple_name_plain, Hn].
Qed.

(** ** [mkdir(parents=True)] when no file is in the way *)

Lemma file_above_clear m pre k :
  (forall j, j `prefix_of` k -> is_file (stat m (pre ++ j)) = false) ->
  file_above m pre k = false.
Proof.
  revert pre. induction k as [|x r IH]; intros pre H; simpl; [reflexivity |].
  rewrite <- (app_nil_r pre) at 1.
  rewrite (H [] (prefix_nil _)). simpl. apply IH.
  intros j Hj. rewrite <- app_assoc. simpl. apply H.
  apply prefix_cons. exact Hj.
Qed.

Lemma mkdir_parents_from_ok rk ok w :
  clear_path (files w) (rev rk) ->
  (ok = false -> stat (files w) (rev rk) = None) ->
  snd (mkdir_parents_from ok rk w) = Ok tt /\
  stat (files (fst (mkdir_parents_from ok rk w))) (rev rk) = Some Dir /\
  forall k, ~ k `prefix_of` (rev rk) ->
            files (fst (mkdir_parents_from ok rk w)) !! k = files w !! k.
Proof.
  revert ok w. induction rk as [|x rp IH]; intros ok w Hclear Hok.
  - rewrite mkdir_parents_from_eq, os_mkdir_eq. simpl.
    destruct ok; [| specialize (Hok eq_refl); discriminate Hok].
    simpl. auto.
  - rewrite mkdir_parents_from_eq, os_mkdir_eq.
    cbn zeta. cbn [rev] in *. rewrite parent_snoc.
    assert (Hne : rev rp ++ [x] <> []) by apply snoc_not_nil.
    pose proof (Hclear (rev rp ++ [x]) (reflexivity _)) as Hself.
    destruct (stat (files w) (rev rp ++ [x])) as [[|s]|] eqn:Hs.
    + destruct ok; [| specialize (Hok eq_refl); congruence].
      unfold except_exist_ok. cbn [files andb]. rewrite Hs. cbn [is_dir].
      cbn [fst snd]. auto.
    + simpl in Hself. discriminate Hself.
    + pose proof (Hclear (rev rp) (prefix_app_r _ _ [x] (reflexivity _)))
        as Hpar.
      destruct (stat (files w) (rev rp)) as [[|s]|] eqn:Hp.
      * cbn [fst snd files]. split; [reflexivity |]. split.
        -- rewrite stat_lookup by exact Hne. apply lookup_insert_eq.
        -- intros k Hk. apply lookup_insert_ne. intros Heq. apply Hk.
           rewrite <- Heq. reflexivity.
      * simpl in Hpar. discriminate Hpar.
      * rewrite file_above_clear; cycle 1.
        { intros j Hj. apply Hclear. exact Hj. }
        set (w1 := {| files := files w;
                      trace := trace w ++ [Mkdir (rev rp ++ [x])] |}).
        destruct (IH true w1) as (Hrun & Hdir & Hsame).
        { intros pre Hpre. apply Hclear. apply prefix_app_r. exact Hpre. }
        { discriminate. }
        destruct (mkdir_parents_from true rp w1) as [w2 r2].
        cbn [fst snd] in Hrun, Hdir, Hsame. subst r2.
        rewrite os_mkdir_eq. cbn zeta. rewrite parent_snoc.
        assert (Hnp : ~ (rev rp ++ [x]) `prefix_of` rev rp).
        { intros Hpre. apply prefix_length in Hpre.
          rewrite length_app in Hpre. simpl in Hpre. lia. }
        rewrite (stat_lookup _ _ Hne), (Hsame _ Hnp).
        rewrite <- (stat_lookup _ _ Hne). cbn [files w1]. rewrite Hs, Hdir.
        cbn [fst snd files]. split; [reflexivity |]. split.
        -- rewrite stat_lookup by exact Hne. apply lookup_insert_eq.
        -- intros k Hk. rewrite lookup_insert_ne.
           ++ apply Hsame. intros Hpre. apply Hk.
              apply prefix_app_r. exact Hpre.
           ++ intros Heq. apply Hk. rewrite <- Heq. reflexivity.
Qed.

(** ** The deploy artifacts *)

Lemma bind_fst {A B} (m : M A) (f : A -> M B) w a :
  snd (m w) = Ok a -> bind m f w = f a (fst (m w)).
Proof.
  unfold bind. destruct (m w) as [w1 r]. simpl. intros ->. reflexivity.
Qed.

Lemma render_template_ok all text s :
  render_template all text = Ok s ->
  exists kw, collect all [] (parse text) = Ok kw /\ format text kw = Ok s.
Proof.
  unfold render_template. destruct (collect all [] (parse text)) as [kw|e];
    [| discriminate].
  intros H. exists kw. auto.
Qed.

Lemma write_template_ok E d kd all t s w :
  resolve E d = Some kd ->
  simple_name (fst t) = true ->
  stat (files w) (kd ++ ["deploy"]) = Some Dir ->
  not_dir (files w !! (kd ++ ["deploy"; fst t])) ->
  render_template all (snd t) = Ok s ->
  write_template E d all t w =
  ({| files := <[kd ++ ["deploy"; fst t] := File s]> (files w);
      trace := trace w ++ [OpenW (kd ++ ["deploy"; fst t]);
                           WriteText (kd ++ ["deploy"; fst t])] |}, Ok tt).
Proof.
  intros Hd Hn Hdir Hnd Hr.
  apply render_template_ok in Hr as (kw & Hc & Hf).
  pose proof (resolve_join E d kd "deploy" Hd eq_refl eq_refl) as Rdep.
  pose proof (resolve_join_simple E _ _ _ Rdep Hn) as Rt.
  rewrite <- app_assoc in Rt. simpl in Rt.
  unfold write_template.
  erewrite bind_eq; cycle 1.
  { apply (open_w_ok E _ _ _ Rt).
    - destruct kd; discriminate.
    - exact Hnd.
    - change (kd ++ ["deploy"; fst t]) with (kd ++ ["deploy"] ++ [fst t]).
      rewrite app_assoc, parent_snoc. exact Hdir. }
  rewrite Hc. erewrite (bind_eq (lift (Ok kw))) by reflexivity.
  rewrite Hf. erewrite (bind_eq (lift (Ok s))) by reflexivity.
  rewrite write_eq. cbn [files trace].
  rewrite lookup_insert_eq, insert_insert_eq, <- app_assoc. reflexivity.
Qed.

Lemma for_each_templates_ok E d kd all ts w :
  resolve E d = Some kd ->
  stat (files w) (kd ++ ["deploy"]) = Some Dir ->
  Forall (ready_template all kd (files w)) ts ->
  snd (for_each (write_template E d all) ts w) = Ok tt /\
  files (fst (for_each (write_template E d all) ts w))
  = template_files kd all ts (files w).
Proof.
  intros Hd. revert w. induction ts as [|t r IH]; intros w Hdir Hall.
  - simpl. auto.
  - inversion Hall as [|t' r' (Hn & (s & Hs) & Hnd) Hrest]; subst.
    cbn [for_each].
    erewrite bind_eq;
      [| apply (write_template_ok E d kd all t s w Hd Hn Hdir Hnd Hs)].
    unfold template_files. cbn [fold_left]. unfold rendered at 2.
    rewrite Hs.
    apply IH.
    + cbn [files]. rewrite stat_insert_ne by key_neq. exact Hdir.
    + cbn [files]. eapply Forall_impl; [exact Hrest |].
      intros t2 (Hn2 & Hs2 & Hnd2). repeat split; try assumption.
      unfold not_dir in *.
      destruct (decide (kd ++ ["deploy"; fst t] = kd ++ ["deploy"; fst t2]))
        as [Heq|Hne].
      * rewrite Heq, lookup_insert_eq. discriminate.
      * rewrite lookup_insert_ne by exact Hne. exact Hnd2.
Qed.

Lemma template_files_other kd all ts m k :
  (forall x, k <> kd ++ ["deploy"; x]) ->
  template_files kd all ts m !! k = m !! k.
Proof.
  intros Hk. unfold template_files. revert m.
  induction ts as [|t r IH]; intros m; simpl; [reflexivity |].
  rewrite IH. apply lookup_insert_ne. intros Heq. apply (Hk (fst t)).
  symmetry. exact Heq.
Qed.

Lemma stat_template_files_other kd all ts m k :
  (forall x, k <> kd ++ ["deploy"; x]) ->
  stat (template_files kd all ts m) k = stat m k.
Proof.
  intros Hk. destruct k; [reflexivity |]. simpl.
  apply template_files_other. exact Hk.
Qed.

Lemma read_templates_ok E entries ts w :
  template_dir E = Some entries ->
  read_entries entries [] = Ok ts ->
  read_templates E w =
  ({| files := files w; trace := trace w ++ [ReadTemplates] |}, Ok ts).
Proof.
  intros He Hr. unfold read_templates, bind, log, lift, ret.
  rewrite He, Hr. reflexivity.
Qed.

Lemma deploy_ok E c d kd cmd all ts w :
  resolve E d = Some kd ->
  stat (files w) kd = Some Dir ->
  remote c = Some cmd ->
  deploy_ready E c d kd all ts (files w) ->
  snd (deploy E c d cmd w) = Ok tt /\
  files (fst (deploy E c d cmd w)) = deploy_files kd all cmd ts (files w).
Proof.
  intros Hd Hkd Hrem Hready. unfold deploy_ready in Hready.
  rewrite Hrem in Hready.
  destruct Hready as (Ndep & Nsh & (entries & He & Hr) &
                      (p & ps & Hp & Hall) & Hts).
  pose proof (resolve_join E d kd "deploy" Hd eq_refl eq_refl) as Rdep.
  pose proof (resolve_join E d kd "deploy.sh" Hd eq_refl eq_refl) as Rsh.
  unfold deploy.
  erewrite bind_eq; cycle 1.
  { apply (mkdir_ok E _ _ _ Rdep);
      [apply snoc_not_nil | exact Ndep | rewrite parent_snoc; exact Hkd]. }
  rewrite (write_file_ok E _ _ _ _ _ Rsh); cycle 1.
  { apply snoc_not_nil. }
  { cbn [files]. rewrite lookup_insert_ne by key_neq. exact Nsh. }
  { cbn [files]. rewrite parent_snoc, stat_insert_ne by key_neq. exact Hkd. }
  erewrite bind_eq; [| apply (read_templates_ok E entries ts _ He Hr)].
  rewrite Hp. erewrite (bind_eq (ret (str_int p))) by reflexivity.
  change [("name", name c); ("dist_path", path_str (joinpath d "dist"));
          ("port", str_int p)] with (all_formatters_of c d p).
  rewrite <- Hall. unfold deploy_files.
  apply for_each_templates_ok.
  - exact Hd.
  - cbn [files]. rewrite stat_insert_ne by key_neq.
    rewrite stat_lookup by apply snoc_not_nil. apply lookup_insert_eq.
  - cbn [files]. eapply Forall_impl; [exact Hts |].
    intros t (Hn & Hs & Hnd). repeat split; try assumption.
    rewrite !lookup_insert_ne by key_neq. exact Hnd.
Qed.

Lemma populate_ok E c d kd all ts w :
  resolve E d = Some kd ->
  populate_ready E c d kd all ts (files w) ->
  snd (populate E c d w) = Ok tt /\
  files (fst (populate E c d w)) = populated c kd all ts (files w).
Proof.
  intros Hd (Hkd & Njson & Hdep & N1 & N3 & N5 & F2 & F4).
  pose proof (resolve_join E d kd "chal.json" Hd eq_refl eq_refl) as Rjson.
  unfold populate, populated.
  rewrite (write_file_ok E _ _ _ _ _ Rjson); cycle 1.
  { apply snoc_not_nil. }
  { exact Njson. }
  { rewrite parent_snoc. exact Hkd. }
  set (w1 := {| files := <[kd ++ ["chal.json"] := File (dumps (to_dict c))]>
                           (files w);
                trace := trace w ++ [OpenW (kd ++ ["chal.json"]);
                                     WriteText (kd ++ ["chal.json"])] |}).
  assert (Hkd1 : stat (files w1) kd = Some Dir).
  { cbn [files w1]. rewrite stat_insert_ne by key_neq. exact Hkd. }
  unfold deploy_ready in Hdep.
  destruct (remote c) as [cmd|] eqn:Hrem.
  - destruct (deploy_ok E c d kd cmd all ts w1 Hd Hkd1 Hrem) as [Hok Hfiles].
    { unfold deploy_ready. rewrite Hrem.
      destruct Hdep as (Ndep & Nsh & Hent & Hport & Hts).
      cbn [files w1]. rewrite !lookup_insert_ne by key_neq.
      repeat split; try assumption.
      eapply Forall_impl; [exact Hts |].
      intros t (Hn & Hs & Hnd). repeat split; try assumption.
      rewrite lookup_insert_ne by key_neq. exact Hnd. }
    rewrite (bind_fst _ _ _ _ Hok).
    set (w2 := fst (deploy E c d cmd w1)) in *.
    rewrite (stubs_ok E c d kd w2 Hd); rewrite ?Hfiles; unfold deploy_files.
    + cbn [fst snd files]. fold w1. auto.
    + rewrite stat_template_files_other by (intros x; key_neq).
      rewrite !stat_insert_ne by key_neq. exact Hkd1.
    + rewrite template_files_other by (intros x; key_neq).
      cbn [files w1]. rewrite !lookup_insert_ne by key_neq. exact N1.
    + rewrite template_files_other by (intros x; key_neq).
      cbn [files w1]. rewrite !lookup_insert_ne by key_neq. exact N3.
    + rewrite template_files_other by (intros x; key_neq).
      cbn [files w1]. rewrite !lookup_insert_ne by key_neq. exact N5.
    + rewrite template_files_other by (intros x; key_neq).
      cbn [files w1]. rewrite !lookup_insert_ne by key_neq.
      rewrite <- app_assoc. exact F2.
    + rewrite template_files_other by (intros x; key_neq).
      cbn [files w1]. rewrite !lookup_insert_ne by key_neq.
      rewrite <- app_assoc. exact F4.
  - erewrite (bind_eq (ret tt)) by reflexivity.
    rewrite (stubs_ok E c d kd w1 Hd).
    + cbn [fst snd files w1]. auto.
    + exact Hkd1.
    + cbn [files w1]. rewrite !lookup_insert_ne by key_neq. exact N1.
    + cbn [files w1]. rewrite !lookup_insert_ne by key_neq. exact N3.
    + cbn [files w1]. rewrite !lookup_insert_ne by key_neq. exact N5.
    + cbn [files w1]. rewrite !lookup_insert_ne by key_neq.
      rewrite <- app_assoc. exact F2.
    + cbn [files w1]. rewrite !lookup_insert_ne by key_neq.
      rewrite <- app_assoc. exact F4.
Qed.

(** ** [scaffold] in a directory that is there, and in a fresh one *)

Lemma path_exists_eq E p k w :
  resolve E p = Some k ->
  path_exists E p w = (w, Ok (present (stat (files w) k))).
Proof.
  intros Hr. unfold path_exists, resolved, bind, get_files, ret.
  rewrite Hr. reflexivity.
Qed.

Lemma scaffold_populate E c cld kc kd w :
  resolve E cld = Some kc ->
  resolve E (joinpath cld (name c)) = Some kd ->
  stat (files w) kc = Some Dir ->
  stat (files w) kd = Some Dir ->
  scaffold E c cld w = populate E c (joinpath cld (name c)) w.
Proof.
  intros Hc Hd Hkc Hkd. unfold scaffold.
  rewrite (bind_eq _ _ _ _ _ (path_exists_eq E cld kc w Hc)), Hkc.
  cbn [present]. erewrite (bind_eq (ret tt)) by reflexivity.
  rewrite (bind_eq _ _ _ _ _ (path_exists_eq E _ kd w Hd)), Hkd.
  cbn [present]. erewrite (bind_eq (ret tt)) by reflexivity.
  reflexivity.
Qed.

Lemma scaffold_existing E c cld kc all ts w :
  resolve E cld = Some kc ->
  simple_name (name c) = true ->
  stat (files w) kc = Some Dir ->
  populate_ready E c (joinpath cld (name c)) (kc ++ [name c]) all ts (files w) ->
  snd (scaffold E c cld w) = Ok tt /\
  files (fst (scaffold E c cld w))
  = populated c (kc ++ [name c]) all ts (files w).
Proof.
  intros Hc Hn Hkc Hready.
  pose proof (resolve_join_simple E cld kc (name c) Hc Hn) as Hd.
  rewrite (scaffold_populate E c cld kc _ w Hc Hd Hkc (proj1 Hready)).
  apply populate_ok; assumption.
Qed.

Lemma mkdir_parents_ok E p k w :
  resolve E p = Some k ->
  clear_path (files w) k ->
  stat (files w) k = None ->
  snd (mkdir_parents E p w) = Ok tt /\
  stat (files (fst (mkdir_parents E p w))) k = Some Dir /\
  forall k', ~ k' `prefix_of` k ->
             files (fst (mkdir_parents E p w)) !! k' = files w !! k'.
Proof.
  intros Hr Hclear Hnone. unfold mkdir_parents, resolved. rewrite Hr.
  erewrite (bind_eq (ret k)) by reflexivity.
  rewrite <- (rev_involutive k) in Hclear, Hnone.
  destruct (mkdir_parents_from_ok (rev k) false w Hclear (fun _ => Hnone))
    as (H1 & H2 & H3).
  rewrite (rev_involutive k) in H2, H3. auto.
Qed.

Lemma scaffold_fresh_populate E c cld kc w :
  resolve E cld = Some kc ->
  simple_name (name c) = true ->
  clear_path (files w) kc ->
  (forall s, files w !! ((kc ++ [name c]) ++ s) = None) ->
  exists w2 m1,
    scaffold E c cld w = populate E c (joinpath cld (name c)) w2 /\
    files w2 = <[kc ++ [name c] := Dir]> m1 /\
    (forall k, ~ k `prefix_of` kc -> m1 !! k = files w !! k) /\
    (forall s, s <> [] -> files w2 !! ((kc ++ [name c]) ++ s) = None).
Proof.
  intros Hc Hn Hclear Hfresh.
  pose proof (resolve_join_simple E cld kc (name c) Hc Hn) as Hd.
  set (kd := kc ++ [name c]) in *.
  assert (Hnp : forall s, ~ (kd ++ s) `prefix_of` kc).
  { intros s Hp. apply prefix_length in Hp. subst kd.
    rewrite !length_app in Hp. simpl in Hp. lia. }
  (* the category directory *)
  assert (Hcat : exists w1,
             (forall g : unit -> M unit,
                 bind (path_exists E cld)
                   (fun e => bind (if e then ret tt else mkdir_parents E cld) g)
                   w = g tt w1) /\
             stat (files w1) kc = Some Dir /\
             forall k, ~ k `prefix_of` kc -> files w1 !! k = files w !! k).
  { pose proof (Hclear kc (reflexivity _)) as Hself.
    destruct (stat (files w) kc) as [[|s]|] eqn:Hs.
    - exists w. split; [| auto]. intros g.
      rewrite (bind_eq _ _ _ _ _ (path_exists_eq E cld kc w Hc)), Hs.
      cbn [present]. erewrite (bind_eq (ret tt)) by reflexivity. reflexivity.
    - simpl in Hself. discriminate Hself.
    - destruct (mkdir_parents_ok E cld kc w Hc Hclear Hs) as (H1 & H2 & H3).
      exists (fst (mkdir_parents E cld w)). split; [| auto]. intros g.
      rewrite (bind_eq _ _ _ _ _ (path_exists_eq E cld kc w Hc)), Hs.
      cbn [present]. apply bind_fst. exact H1. }
  destruct Hcat as (w1 & Hrun1 & Hkc1 & Hsame1).
  unfold scaffold. rewrite Hrun1.
  (* the challenge directory *)
  assert (Hkd1 : files w1 !! kd = None).
  { rewrite <- (app_nil_r kd), (Hsame1 _ (Hnp [])). apply Hfresh. }
  rewrite (bind_eq _ _ _ _ _ (path_exists_eq E _ kd w1 Hd)).
  rewrite (stat_lookup _ kd) by apply snoc_not_nil. rewrite Hkd1.
  cbn [present].
  erewrite bind_eq; cycle 1.
  { apply (mkdir_ok E _ _ _ Hd);
      [apply snoc_not_nil | exact Hkd1 |].
    unfold kd. rewrite parent_snoc. exact Hkc1. }
  set (w2 := {| files := <[kd := Dir]> (files w1);
                trace := trace w1 ++ [Mkdir kd] |}).
  assert (Hunder : forall s, s <> [] -> files w2 !! (kd ++ s) = None).
  { intros s Hs. cbn [files w2]. rewrite lookup_insert_ne.
    - rewrite (Hsame1 _ (Hnp s)). apply Hfresh.
    - intros Heq. apply Hs. rewrite <- (app_nil_r kd) in Heq at 1.
      apply app_inv_head in Heq. symmetry. exact Heq. }
  exists w2, (files w1). split; [reflexivity |].
  split; [reflexivity |]. split; [exact Hsame1 | exact Hunder].
Qed.

Lemma scaffold_fresh E c cld kc all ts w :
  resolve E cld = Some kc ->
  simple_name (name c) = true ->
  clear_path (files w) kc ->
  (forall s, files w !! ((kc ++ [name c]) ++ s) = None) ->
  remote_ready E c (joinpath cld (name c)) all ts ->
  snd (scaffold E c cld w) = Ok tt /\
  exists m1,
    files (fst (scaffold E c cld w))
    = populated c (kc ++ [name c]) all ts (<[kc ++ [name c] := Dir]> m1) /\
    forall k, ~ k `prefix_of` kc -> m1 !! k = files w !! k.
Proof.
  intros Hc Hn Hclear Hfresh Hrem.
  pose proof (resolve_join_simple E cld kc (name c) Hc Hn) as Hd.
  destruct (scaffold_fresh_populate E c cld kc w Hc Hn Hclear Hfresh)
    as (w2 & m1 & -> & Hw2 & Hsame1 & Hunder).
  set (kd := kc ++ [name c]) in *.
  destruct (populate_ok E c (joinpath cld (name c)) kd all ts w2 Hd)
    as [Hok Hfiles].
  { assert (Hnot : forall s, s <> [] -> not_dir (files w2 !! (kd ++ s))).
    { intros s Hs. rewrite (Hunder s Hs). discriminate. }
    unfold populate_ready. repeat split.
    - rewrite Hw2, stat_lookup by apply snoc_not_nil.
      apply lookup_insert_eq.
    - apply Hnot. discriminate.
    - unfold deploy_ready. unfold remote_ready in Hrem.
      destruct (remote c); [| exact I].
      destruct Hrem as (Hent & Hport & Hts).
      repeat split; try assumption.
      + apply Hunder. discriminate.
      + apply Hnot. discriminate.
      + eapply Forall_impl; [exact Hts |].
        intros t (Hn2 & Hs2). repeat split; try assumption.
        apply Hnot. discriminate.
    - apply Hunder. discriminate.
    - apply Hunder. discriminate.
    - apply Hunder. discriminate.
    - apply Hnot. discriminate.
    - apply Hnot. discriminate. }
  split; [exact Hok |]. exists m1. rewrite <- Hw2.
  split; [exact Hfiles | exact Hsame1].
Qed.


(** ** The layout inside the challenge directory *)

Lemma under_insert kd m l r n :
  same_under kd m l -> same_under kd (<[kd ++ r := n]> m) (<[r := n]> l).
Proof.
  intros H s. destruct (decide (r = s)) as [->|Hne].
  - rewrite !lookup_insert_eq. reflexivity.
  - rewrite !lookup_insert_ne; [apply H | exact Hne |].
    intros Heq. apply Hne. apply app_inv_head in Heq. exact Heq.
Qed.

Lemma under_template_files kd all ts m l :
  same_under kd m l ->
  same_under kd (template_files kd all ts m) (template_files [] all ts l).
Proof.
  unfold template_files. revert m l.
  induction ts as [|t r IH]; intros m l H; simpl; [exact H |].
  apply IH. apply (under_insert kd m l ["deploy"; fst t]). exact H.
Qed.

Lemma under_populated c kd all ts m l :
  same_under kd m l ->
  same_under kd (populated c kd all ts m) (populated c [] all ts l).
Proof.
  intros H. unfold populated, stubs_files, deploy_files.
  rewrite <- !app_assoc. cbn [app].
  repeat apply under_insert.
  destruct (remote c).
  - apply under_template_files. repeat apply under_insert. exact H.
  - apply under_insert. exact H.
Qed.

Lemma insert_not_none (m : fsmap) (k : key) n (s : key) :
  <[k := n]> m !! s <> None <-> k = s \/ m !! s <> None.
Proof.
  destruct (decide (k = s)) as [->|Hne].
  - rewrite lookup_insert_eq. split; [auto | discriminate].
  - rewrite lookup_insert_ne by exact Hne. tauto.
Qed.

Lemma template_files_not_none (all ts : dict string) (m : fsmap) (s : key) :
  template_files [] all ts m !! s <> None <->
  In s (List.map (fun t => ["deploy"; fst t]) ts) \/ m !! s <> None.
Proof.
  unfold template_files. revert m.
  induction ts as [|t r IH]; intros m; simpl; [tauto |].
  rewrite IH, insert_not_none. tauto.
Qed.

Lemma layout_paths c (all ts : dict string) (s : key) :
  layout c all ts !! s <> None <-> In s (expected_paths c ts).
Proof.
  unfold layout, populated, stubs_files, deploy_files, expected_paths.
  cbn [app]. rewrite !insert_not_none.
  destruct (remote c).
  - rewrite template_files_not_none, !insert_not_none.
    unfold empty_fs. rewrite lookup_empty. rewrite ?in_app_iff. simpl.
    intuition congruence.
  - rewrite !insert_not_none.
    unfold empty_fs. rewrite lookup_empty. rewrite ?in_app_iff. simpl.
    intuition congruence.
Qed.

Lemma run_create_challenge E c fs cld :
  category_dir E c fs = Some cld ->
  exists tr,
    run (create_challenge E c) fs
    = scaffold E c cld {| files := fs; trace := tr |}.
Proof.
  unfold run, category_dir. rewrite create_challenge_eq.
  destruct (target c) as [t|].
  - intros H. inversion H. exists []. reflexivity.
  - rewrite get_repo_eq. cbn [files].
    destruct (search_up fs (rev (cwd E))) as [k|]; [| discriminate].
    intros H. inversion H. eexists. reflexivity.
Qed.

Lemma expected_deploy c ts :
  In ["deploy"] (expected_paths c ts) <-> remote c <> None.
Proof.
  unfold expected_paths. destruct (remote c); simpl.
  - split; [discriminate | auto 10].
  - split; [| congruence]. intros H.
    repeat (destruct H as [H|H]; [discriminate H |]). destruct H.
Qed.

Lemma expected_deploy_sh c ts :
  In ["deploy.sh"] (expected_paths c ts) <-> remote c <> None.
Proof.
  unfold expected_paths. destruct (remote c); simpl.
  - split; [discriminate | auto 10].
  - split; [| congruence]. intros H.
    repeat (destruct H as [H|H]; [discriminate H |]). destruct H.
Qed.

Lemma expected_dist_empty c ts x s :
  ~ In ("dist" :: x :: s) (expected_paths c ts).
Proof.
  unfold expected_paths. intros H. apply in_app_or in H as [H|H].
  - simpl in H. repeat (destruct H as [H|H]; [discriminate H |]). destruct H.
  - destruct (remote c); [| destruct H].
    simpl in H. destruct H as [H|[H|H]]; try discriminate H.
    apply in_map_iff in H as (t & Ht & _). discriminate Ht.
Qed.

(** C1: for a challenge whose name is one path component, whose
    category directory has no regular file among its ancestors, whose
    challenge directory is not there yet, and (with a remote command)
    with a first port and templates that render, the run succeeds and
    the challenge directory holds exactly the persisted layout:
    [chal.json], [solve/flag.txt], [src/Makefile], an empty [dist],
    and [deploy] with [deploy.sh] and the rendered templates if and
    only if [remote] is set. *)
Theorem fresh_run_creates_layout E c fs cld kc all ts :
  category_dir E c fs = Some cld ->
  resolve E cld = Some kc ->
  simple_name (name c) = true ->
  clear_path fs kc ->
  (forall s, fs !! ((kc ++ [name c]) ++ s) = None) ->
  remote_ready E c (joinpath cld (name c)) all ts ->
  snd (run (create_challenge E c) fs) = Ok tt /\
  (forall s,
      files (fst (run (create_challenge E c) fs)) !! ((kc ++ [name c]) ++ s)
      = layout c all ts !! s) /\
  (forall s, layout c all ts !! s <> None <-> In s (expected_paths c ts)) /\
  (In ["deploy"] (expected_paths c ts) <-> remote c <> None) /\
  (In ["deploy.sh"] (expected_paths c ts) <-> remote c <> None) /\
  (forall x s, layout c all ts !! ("dist" :: x :: s) = None).
Proof.
  intros Hcat Hc Hn Hclear Hfresh Hrem.
  destruct (run_create_challenge E c fs cld Hcat) as (tr & ->).
  destruct (scaffold_fresh E c cld kc all ts {| files := fs; trace := tr |}
              Hc Hn Hclear Hfresh Hrem) as (Hok & m1 & Hfiles & Hsame).
  split; [exact Hok |]. split; [| split; [| split; [| split]]].
  - rewrite Hfiles. apply under_populated. intros s.
    destruct s as [|x s].
    + rewrite app_nil_r, !lookup_insert_eq. reflexivity.
    + rewrite !lookup_insert_ne.
      * unfold empty_fs. rewrite lookup_empty, Hsame; [apply Hfresh |].
        intros Hp. apply prefix_length in Hp.
        rewrite !length_app in Hp. simpl in Hp. lia.
      * discriminate.
      * intros Heq. rewrite <- (app_nil_r (kc ++ [name c])) in Heq at 1.
        apply app_inv_head in Heq. discriminate Heq.
  - intros s. apply layout_paths.
  - apply expected_deploy.
  - apply expected_deploy_sh.
  - intros x s.
    destruct (layout c all ts !! ("dist" :: x :: s)) eqn:Hl; [| reflexivity].
    exfalso. apply (expected_dist_empty c ts x s).
    apply (proj1 (layout_paths c all ts ("dist" :: x :: s))).
    rewrite Hl. discriminate.
Qed.

Lemma clear_path_empty k : clear_path empty_fs k.
Proof.
  intros pre _. destruct pre; [reflexivity |]. simpl.
  unfold empty_fs. rewrite lookup_empty. reflexivity.
Qed.

Lemma fresh_run_creates_layout_witness :
  snd (run (create_challenge example_env example_remote) empty_fs) = Ok tt /\
  (forall s,
      files (fst (run (create_challenge example_env example_remote) empty_fs))
        !! ((["tmp"; "out"] ++ ["stack1"]) ++ s)
      = layout example_remote
          (all_formatters_of example_remote
             (joinpath (Path_of "/tmp/out") "stack1") 1337)
          [("docker-compose.yml", "{name}:{port}")] !! s) /\
  (forall s,
      layout example_remote
        (all_formatters_of example_remote
           (joinpath (Path_of "/tmp/out") "stack1") 1337)
        [("docker-compose.yml", "{name}:{port}")] !! s <> None
      <-> In s (expected_paths example_remote
                  [("docker-compose.yml", "{name}:{port}")])) /\
  (In ["deploy"] (expected_paths example_remote
                    [("docker-compose.yml", "{name}:{port}")])
   <-> remote example_remote <> None) /\
  (In ["deploy.sh"] (expected_paths example_remote
                       [("docker-compose.yml", "{name}:{port}")])
   <-> remote example_remote <> None) /\
  (forall x s,
      layout example_remote
        (all_formatters_of example_remote
           (joinpath (Path_of "/tmp/out") "stack1") 1337)
        [("docker-compose.yml", "{name}:{port}")] !! ("dist" :: x :: s)
      = None).
Proof.
  apply (fresh_run_creates_layout example_env example_remote empty_fs
           (Path_of "/tmp/out") ["tmp"; "out"]).
  - reflexivity.
  - reflexivity.
  - reflexivity.
  - apply clear_path_empty.
  - intros s. apply lookup_empty.
  - simpl. split; [| split].
    + eexists. split; reflexivity.
    + eexists _, _. split; reflexivity.
    + constructor; [| constructor].
      split; [reflexivity | eexists; reflexivity].
Defined.

(** ** A challenge directory that is already there *)

Lemma populated_chal_json c kd all ts m :
  populated c kd all ts m !! (kd ++ ["chal.json"])
  = Some (File (dumps (to_dict c))).
Proof.
  unfold populated, stubs_files, deploy_files.
  rewrite !lookup_insert_ne by key_neq.
  destruct (remote c).
  - rewrite template_files_other by (intros x; key_neq).
    rewrite !lookup_insert_ne by key_neq. apply lookup_insert_eq.
  - apply lookup_insert_eq.
Qed.




(** ** A template that names an unknown key *)

Lemma known_key_formatters c d p k :
  dict_get k (all_formatters_of c d p) = None <-> known_key k = false.
Proof.
  unfold all_formatters_of, known_key. simpl.
  destruct (String.eqb k "name"), (String.eqb k "dist_path"),
           (String.eqb k "port"); simpl; split; congruence.
Qed.

Lemma collect_unknown all p acc :
  (exists k, In k (fields_of p) /\ dict_get k all = None) ->
  exists k,
    In k (fields_of p) /\ dict_get k all = None /\
    collect all acc p = Raise (KeyError k).
Proof.
  revert acc. induction p as [| |i rest IH]; intros acc (k & Hin & Hk).
  - destruct Hin.
  - destruct Hin.
  - simpl in *. destruct (markup i) as [f|].
    + destruct (dict_get (field_name f) all) as [v|] eqn:Hf.
      * destruct Hin as [Heq|Hin]; [congruence |].
        destruct (IH (dict_set (field_name f) v acc))
          as (k' & Hin' & Hk' & Hc); [exists k; auto |].
        exists k'. simpl. auto.
      * exists (field_name f). simpl. auto.
    + destruct (IH acc) as (k' & Hin' & Hk' & Hc); [exists k; auto |].
      exists k'. auto.
Qed.

Lemma write_template_keyerror E d kd all t k w :
  resolve E d = Some kd ->
  simple_name (fst t) = true ->
  stat (files w) (kd ++ ["deploy"]) = Some Dir ->
  not_dir (files w !! (kd ++ ["deploy"; fst t])) ->
  collect all [] (parse (snd t)) = Raise (KeyError k) ->
  write_template E d all t w =
  ({| files := <[kd ++ ["deploy"; fst t] := File ""]> (files w);
      trace := trace w ++ [OpenW (kd ++ ["deploy"; fst t])] |},
   Raise (KeyError k)).
Proof.
  intros Hd Hn Hdir Hnd Hc.
  pose proof (resolve_join E d kd "deploy" Hd eq_refl eq_refl) as Rdep.
  pose proof (resolve_join_simple E _ _ _ Rdep Hn) as Rt.
  rewrite <- app_assoc in Rt. simpl in Rt.
  unfold write_template.
  erewrite bind_eq; cycle 1.
  { apply (open_w_ok E _ _ _ Rt).
    - destruct kd; discriminate.
    - exact Hnd.
    - change (kd ++ ["deploy"; fst t]) with (kd ++ ["deploy"] ++ [fst t]).
      rewrite app_assoc, parent_snoc. exact Hdir. }
  rewrite Hc. reflexivity.
Qed.

Lemma for_each_app {A} (f : A -> M unit) l1 l2 w :
  for_each f (l1 ++ l2) w = bind (for_each f l1) (fun _ => for_each f l2) w.
Proof.
  revert w. induction l1 as [|x r IH]; intros w; simpl.
  - reflexivity.
  - unfold bind.
    destruct (f x w) as [w1 [u|e]]; [rewrite IH |]; reflexivity.
Qed.

Lemma for_each_templates_keyerror E d kd all good t rest k w :
  resolve E d = Some kd ->
  stat (files w) (kd ++ ["deploy"]) = Some Dir ->
  Forall (ready_template all kd (files w)) good ->
  simple_name (fst t) = true ->
  not_dir (template_files kd all good (files w) !! (kd ++ ["deploy"; fst t])) ->
  collect all [] (parse (snd t)) = Raise (KeyError k) ->
  snd (for_each (write_template E d all) (good ++ t :: rest) w)
  = Raise (KeyError k) /\
  files (fst (for_each (write_template E d all) (good ++ t :: rest) w))
  = <[kd ++ ["deploy"; fst t] := File ""]>
      (template_files kd all good (files w)).
Proof.
  intros Hd Hdir Hgood Hn Hnd Hc. rewrite for_each_app.
  destruct (for_each_templates_ok E d kd all good w Hd Hdir Hgood)
    as [Hok Hfiles].
  rewrite (bind_fst _ _ _ _ Hok). cbn [for_each].
  erewrite bind_raise; cycle 1.
  { apply (write_template_keyerror E d kd all t k _ Hd Hn); [| | exact Hc].
    - rewrite Hfiles, stat_template_files_other by (intros x; key_neq).
      exact Hdir.
    - rewrite Hfiles. exact Hnd. }
  cbn [fst snd files]. rewrite Hfiles. auto.
Qed.

Lemma bind_fst_raise {A B} (m : M A) (f : A -> M B) w e :
  snd (m w) = Raise e -> bind m f w = (fst (m w), Raise e).
Proof.
  unfold bind. destruct (m w) as [w1 r]. simpl. intros ->. reflexivity.
Qed.

Lemma template_files_not_dir kd all ts m k :
  not_dir (m !! k) -> not_dir (template_files kd all ts m !! k).
Proof.
  unfold template_files. revert m.
  induction ts as [|t r IH]; intros m H; simpl; [exact H |].
  apply IH. unfold not_dir in *.
  destruct (decide (kd ++ ["deploy"; fst t] = k)) as [<-|Hne].
  - rewrite lookup_insert_eq. discriminate.
  - rewrite lookup_insert_ne by exact Hne. exact H.
Qed.

Lemma deploy_keyerror E c d kd cmd p ps entries good t rest k w :
  resolve E d = Some kd ->
  stat (files w) kd = Some Dir ->
  (forall s, s <> [] -> s <> ["chal.json"] -> files w !! (kd ++ s) = None) ->
  ports c = p :: ps ->
  template_dir E = Some entries ->
  read_entries entries [] = Ok (good ++ t :: rest) ->
  Forall (fun t' => simple_name (fst t') = true /\
                    exists s, render_template (all_formatters_of c d p)
                                (snd t') = Ok s) good ->
  simple_name (fst t) = true ->
  collect (all_formatters_of c d p) [] (parse (snd t)) = Raise (KeyError k) ->
  snd (deploy E c d cmd w) = Raise (KeyError k) /\
  files (fst (deploy E c d cmd w)) !! (kd ++ ["deploy"; fst t])
  = Some (File "").
Proof.
  intros Hd Hkd Hfree Hp He Hr Hgood Hn Hc.
  pose proof (resolve_join E d kd "deploy" Hd eq_refl eq_refl) as Rdep.
  pose proof (resolve_join E d kd "deploy.sh" Hd eq_refl eq_refl) as Rsh.
  unfold deploy.
  erewrite bind_eq; cycle 1.
  { apply (mkdir_ok E _ _ _ Rdep);
      [apply snoc_not_nil | apply Hfree; discriminate
      | rewrite parent_snoc; exact Hkd]. }
  rewrite (write_file_ok E _ _ _ _ _ Rsh); cycle 1.
  { apply snoc_not_nil. }
  { cbn [files]. rewrite lookup_insert_ne by key_neq.
    rewrite Hfree by discriminate. discriminate. }
  { cbn [files]. rewrite parent_snoc, stat_insert_ne by key_neq. exact Hkd. }
  erewrite bind_eq; [| apply (read_templates_ok E entries _ _ He Hr)].
  rewrite Hp. erewrite (bind_eq (ret (str_int p))) by reflexivity.
  change [("name", name c); ("dist_path", path_str (joinpath d "dist"));
          ("port", str_int p)] with (all_formatters_of c d p).
  match goal with
  | |- context [for_each _ _ ?w0] => set (w1 := w0)
  end.
  assert (Hfree1 : forall x, not_dir (files w1 !! (kd ++ ["deploy"; x]))).
  { intros x. cbn [files w1]. rewrite !lookup_insert_ne by key_neq.
    rewrite Hfree by discriminate. discriminate. }
  destruct (for_each_templates_keyerror E d kd (all_formatters_of c d p)
              good t rest k w1 Hd) as [Hres Hfiles].
  - cbn [files w1]. rewrite stat_insert_ne by key_neq.
    rewrite stat_lookup by apply snoc_not_nil. apply lookup_insert_eq.
  - eapply Forall_impl; [exact Hgood |].
    intros t' (Hn' & Hs'). repeat split; try assumption. apply Hfree1.
  - exact Hn.
  - apply template_files_not_dir, Hfree1.
  - exact Hc.
  - split; [exact Hres |]. rewrite Hfiles. apply lookup_insert_eq.
Qed.

(** The run of [example_remote] with a template that names [image]:
    [KeyError] is raised, and the file opened for the template is left
    behind, empty. *)
Lemma unknown_placeholder_leaves_empty_file :
  snd (run (create_challenge image_env example_remote) empty_fs)
  = Raise (KeyError "image") /\
  files (fst (run (create_challenge image_env example_remote) empty_fs))
    !! ["tmp"; "out"; "stack1"; "deploy"; "docker-compose.yml"]
  = Some (File "") /\
  files (fst (run (create_challenge image_env example_remote) empty_fs))
    !! ["tmp"; "out"; "stack1"; "deploy"; "docker-compose.yml"]
  <> None.
Proof. vm_compute. repeat split; try reflexivity; discriminate. Qed.

(** C3, as the code has it: when the parser reaches a placeholder
    whose key is not [name], [dist_path] or [port], the run stops with
    [KeyError]; the file of that template has already been opened for
    writing, so it is in [deploy], empty. *)
Theorem unknown_placeholder_raises
    E c fs cld kc cmd p ps entries good t rest :
  category_dir E c fs = Some cld ->
  resolve E cld = Some kc ->
  simple_name (name c) = true ->
  clear_path fs kc ->
  (forall s, fs !! ((kc ++ [name c]) ++ s) = None) ->
  remote c = Some cmd ->
  ports c = p :: ps ->
  template_dir E = Some entries ->
  read_entries entries [] = Ok (good ++ t :: rest) ->
  Forall (fun t' =>
            simple_name (fst t') = true /\
            exists s,
              render_template
                (all_formatters_of c (joinpath cld (name c)) p) (snd t')
              = Ok s) good ->
  simple_name (fst t) = true ->
  (exists k, In k (fields_of (parse (snd t))) /\ known_key k = false) ->
  exists k,
    In k (fields_of (parse (snd t))) /\ known_key k = false /\
    snd (run (create_challenge E c) fs) = Raise (KeyError k) /\
    files (fst (run (create_challenge E c) fs))
      !! ((kc ++ [name c]) ++ ["deploy"; fst t])
    = Some (File "").
Proof.
  intros Hcat Hc Hn Hclear Hfresh Hrem Hp He Hr Hgood Hnt (k0 & Hin0 & Hk0).
  set (d := joinpath cld (name c)) in *.
  destruct (collect_unknown (all_formatters_of c d p) (parse (snd t)) [])
    as (k & Hin & Hk & Hcol).
  { exists k0. split; [exact Hin0 |]. apply known_key_formatters, Hk0. }
  apply known_key_formatters in Hk.
  exists k. split; [exact Hin |]. split; [exact Hk |].
  destruct (run_create_challenge E c fs cld Hcat) as (tr & ->).
  pose proof (resolve_join_simple E cld kc (name c) Hc Hn) as Hd.
  destruct (scaffold_fresh_populate E c cld kc {| files := fs; trace := tr |}
              Hc Hn Hclear Hfresh) as (w2 & m1 & -> & Hw2 & _ & Hunder).
  set (kd := kc ++ [name c]) in *.
  pose proof (resolve_join E d kd "chal.json" Hd eq_refl eq_refl) as Rjson.
  assert (Hkd2 : stat (files w2) kd = Some Dir).
  { rewrite Hw2, stat_lookup by apply snoc_not_nil. apply lookup_insert_eq. }
  unfold populate. fold d.
  rewrite (write_file_ok E _ _ _ _ _ Rjson); cycle 1.
  { apply snoc_not_nil. }
  { rewrite Hunder by discriminate. discriminate. }
  { rewrite parent_snoc. exact Hkd2. }
  rewrite Hrem. cbv beta.
  match goal with
  | |- context [bind (deploy E c d cmd) _ ?w0] => set (w3 := w0)
  end.
  destruct (deploy_keyerror E c d kd cmd p ps entries good t rest k w3 Hd)
    as [Hres Hfile]; try assumption.
  - cbn [files w3]. rewrite stat_insert_ne by key_neq. exact Hkd2.
  - intros s Hs Hs'. cbn [files w3]. rewrite lookup_insert_ne.
    + apply Hunder. exact Hs.
    + intros Heq. apply app_inv_head in Heq. congruence.
  - rewrite (bind_fst_raise _ _ _ _ Hres). cbn [fst snd].
    split; [reflexivity | exact Hfile].
Qed.

Lemma unknown_placeholder_raises_witness :
  exists k,
    In k (fields_of (parse (snd image_template))) /\ known_key k = false /\
    snd (run (create_challenge image_env example_remote) empty_fs)
    = Raise (KeyError k) /\
    files (fst (run (create_challenge image_env example_remote) empty_fs))
      !! ((["tmp"; "out"] ++ ["stack1"]) ++ ["deploy"; fst image_template])
    = Some (File "").
Proof.
  apply (unknown_placeholder_raises image_env example_remote empty_fs
           (Path_of "/tmp/out") ["tmp"; "out"] ["docker-compose"; "up"]
           1337%Z [] [(fst image_template, File (snd image_template))]
           [] image_template []).
  - reflexivity.
  - reflexivity.
  - reflexivity.
  - apply clear_path_empty.
  - intros s. apply lookup_empty.
  - reflexivity.
  - reflexivity.
  - reflexivity.
  - reflexivity.
  - constructor.
  - reflexivity.
  - exists "image". split; [simpl; auto | reflexivity].
Defined.

(** ** Rendering a template *)

Lemma dict_get_set_eq {V} k (v : V) d : dict_get k (dict_set k v d) = Some v.
Proof.
  induction d as [|[k' v'] r IH]; simpl.
  - rewrite String.eqb_refl. reflexivity.
  - destruct (String.eqb k k') eqn:He; simpl.
    + rewrite String.eqb_refl. reflexivity.
    + rewrite He. exact IH.
Qed.

Lemma dict_get_set_ne {V} k k' (v : V) d :
  k <> k' -> dict_get k' (dict_set k v d) = dict_get k' d.
Proof.
  intros Hne. induction d as [|[k2 v2] r IH]; simpl.
  - destruct (String.eqb k' k) eqn:He; [| reflexivity].
    apply String.eqb_eq in He. congruence.
  - destruct (String.eqb k k2) eqn:He; simpl.
    + apply String.eqb_eq in He. subst k2.
      destruct (String.eqb k' k) eqn:He'; [| reflexivity].
      apply String.eqb_eq in He'. congruence.
    + destruct (String.eqb k' k2); [reflexivity | exact IH].
Qed.

Lemma key_of_inj p q : key_of p = key_of q -> p = q.
Proof. destruct p, q; simpl; intros H; try reflexivity; discriminate H. Qed.

Lemma brace_free_cons c r :
  brace_free (String c r) = true ->
  Ascii.eqb c "{" = false /\ Ascii.eqb c "}" = false /\ brace_free r = true.
Proof.
  unfold brace_free. simpl. intros H. apply andb_prop in H as [H1 H2].
  apply negb_true_iff in H1. apply negb_true_iff in H2.
  apply orb_false_iff in H1 as [H1 H1']. apply orb_false_iff in H2 as [H2 H2'].
  rewrite H1', H2'. auto.
Qed.

Lemma parse_text s rest :
  brace_free s = true -> parse (s +:+ rest) = prepend_str s (parse rest).
Proof.
  induction s as [|c r IH]; intros H; [reflexivity |].
  apply brace_free_cons in H as (H1 & H2 & H3).
  rewrite append_cons. cbn [parse prepend_str]. rewrite H1, H2, (IH H3).
  reflexivity.
Qed.

Lemma parse_hole p rest :
  parse (segment_text (Hole p) +:+ rest)
  = yield_field (key_of p) "" None (parse rest).
Proof. destruct p; reflexivity. Qed.

Lemma collect_prepend all acc c p :
  collect all acc (prepend c p) = collect all acc p.
Proof. destruct p as [| |i rest]; reflexivity. Qed.

Lemma collect_prepend_str all acc s p :
  collect all acc (prepend_str s p) = collect all acc p.
Proof.
  induction s as [|c r IH]; simpl; [reflexivity |].
  rewrite collect_prepend. exact IH.
Qed.

Lemma render_prepend kw c p :
  render kw (prepend c p)
  = match render kw p with
    | Ok r => Ok (String c r)
    | Raise e => Raise e
    end.
Proof.
  destruct p as [| |i rest]; try reflexivity.
  simpl. destruct (markup i) as [f|].
  - destruct (get_field (field_name f) kw) as [v|e]; [| reflexivity].
    destruct (format_value v (conversion f) (format_spec f)) as [s|e];
      [| reflexivity].
    destruct (render kw rest); reflexivity.
  - destruct (render kw rest); reflexivity.
Qed.

Lemma render_prepend_str kw s p :
  render kw (prepend_str s p)
  = match render kw p with
    | Ok r => Ok (s +:+ r)
    | Raise e => Raise e
    end.
Proof.
  induction s as [|c r IH]; simpl.
  - destruct (render kw p); reflexivity.
  - rewrite render_prepend, IH. destruct (render kw p); reflexivity.
Qed.

Lemma get_field_placeholder kw p v :
  dict_get (key_of p) kw = Some v -> get_field (key_of p) kw = Ok v.
Proof.
  intros H. unfold get_field.
  destruct p; simpl in *; rewrite H; reflexivity.
Qed.

Section Segments.
Variable all : dict string.
Hypothesis all_complete : forall p, dict_get (key_of p) all <> None.

Lemma value_of_get p : dict_get (key_of p) all = Some (value_of all p).
Proof.
  unfold value_of. pose proof (all_complete p) as H.
  destruct (dict_get (key_of p) all); [reflexivity | congruence].
Qed.

Lemma collect_segments segs acc :
  forallb plain_segment segs = true ->
  collect all acc (parse (template_text segs)) = Ok (needed all segs acc).
Proof.
  revert acc. induction segs as [|g r IH]; intros acc H; [reflexivity |].
  simpl in H. apply andb_prop in H as [Hg Hr].
  cbn [template_text]. destruct g as [s|p].
  - cbn [segment_text]. rewrite (parse_text s _ Hg), collect_prepend_str.
    apply IH, Hr.
  - rewrite parse_hole. unfold yield_field. cbn [collect markup field_name].
    rewrite value_of_get. apply IH, Hr.
Qed.

Lemma needed_get segs acc p :
  In (Hole p) segs \/ dict_get (key_of p) acc = Some (value_of all p) ->
  dict_get (key_of p) (needed all segs acc) = Some (value_of all p).
Proof.
  unfold needed. revert acc.
  induction segs as [|g r IH]; intros acc H; simpl.
  - destruct H as [[]|H]. exact H.
  - apply IH. destruct g as [s|q].
    + destruct H as [[H|H]|H]; [discriminate H | auto | auto].
    + destruct (decide (key_of q = key_of p)) as [Heq|Hne].
      * right. rewrite Heq. apply key_of_inj in Heq. subst q.
        apply dict_get_set_eq.
      * rewrite dict_get_set_ne by exact Hne.
        destruct H as [[H|H]|H]; [congruence | auto | auto].
Qed.

Lemma needed_only segs acc k :
  dict_get k (needed all segs acc) <> None ->
  (exists p, In (Hole p) segs /\ k = key_of p) \/ dict_get k acc <> None.
Proof.
  unfold needed. revert acc.
  induction segs as [|g r IH]; intros acc H; simpl in *.
  - right. exact H.
  - destruct (IH _ H) as [(p & Hin & Hk)|Hacc].
    + left. exists p. auto.
    + destruct g as [s|q]; [right; exact Hacc |].
      destruct (decide (key_of q = k)) as [<-|Hne].
      * left. exists q. auto.
      * rewrite dict_get_set_ne in Hacc by exact Hne. right. exact Hacc.
Qed.

Lemma render_segments kw segs :
  forallb plain_segment segs = true ->
  (forall p, In (Hole p) segs ->
             dict_get (key_of p) kw = Some (value_of all p)) ->
  render kw (parse (template_text segs)) = Ok (filled all segs).
Proof.
  induction segs as [|g r IH]; intros H Hkw; [reflexivity |].
  simpl in H. apply andb_prop in H as [Hg Hr].
  assert (IH' : render kw (parse (template_text r)) = Ok (filled all r)).
  { apply IH; [exact Hr |]. intros p Hp. apply Hkw. right. exact Hp. }
  cbn [template_text filled]. destruct g as [s|p].
  - cbn [segment_text fill_segment].
    rewrite (parse_text s _ Hg), render_prepend_str, IH'. reflexivity.
  - rewrite parse_hole. unfold yield_field.
    cbn [render markup field_name conversion format_spec literal_text].
    rewrite (get_field_placeholder kw p _ (Hkw p (or_introl eq_refl))).
    cbn [format_value String.eqb]. rewrite IH'.
    cbn [fill_segment]. fold (value_of all p). reflexivity.
Qed.

Lemma render_template_segments segs :
  forallb plain_segment segs = true ->
  render_template all (template_text segs) = Ok (filled all segs).
Proof.
  intros H. unfold render_template, format.
  rewrite (collect_segments segs [] H).
  apply render_segments; [exact H |].
  intros p Hp. apply needed_get. left. exact Hp.
Qed.
End Segments.

Lemma find_placeholder_other (all : dict string) c r :
  Ascii.eqb c "{" = false -> find_placeholder all (String c r) = None.
Proof.
  intros Hc. induction all as [|[k v] rest IH]; [reflexivity |].
  cbn [find_placeholder]. rewrite append_cons. cbn [strip_prefix].
  rewrite Ascii.eqb_sym, Hc. exact IH.
Qed.

Lemma substitute_text all s rest :
  brace_free s = true ->
  substitute all 0 (s +:+ rest) = s +:+ substitute all 0 rest.
Proof.
  induction s as [|c r IH]; intros H; [reflexivity |].
  apply brace_free_cons in H as (H1 & _ & H3).
  rewrite !append_cons. cbn [substitute].
  rewrite (find_placeholder_other all c _ H1), (IH H3). reflexivity.
Qed.

Lemma substitute_hole c d p q rest :
  substitute (all_formatters_of c d p) 0 (segment_text (Hole q) +:+ rest)
  = value_of (all_formatters_of c d p) q
    +:+ substitute (all_formatters_of c d p) 0 rest.
Proof. destruct q; reflexivity. Qed.

Lemma substitute_segments c d p segs :
  forallb plain_segment segs = true ->
  substitute (all_formatters_of c d p) 0 (template_text segs)
  = filled (all_formatters_of c d p) segs.
Proof.
  induction segs as [|g r IH]; intros H; [reflexivity |].
  simpl in H. apply andb_prop in H as [Hg Hr].
  cbn [template_text filled]. destruct g as [s|q].
  - cbn [segment_text fill_segment].
    rewrite (substitute_text _ s _ Hg), (IH Hr). reflexivity.
  - rewrite substitute_hole, (IH Hr). reflexivity.
Qed.

Lemma formatters_complete c d p q :
  dict_get (key_of q) (all_formatters_of c d p) <> None.
Proof. destruct q; discriminate. Qed.




(** ** Command lines [parse_args] refuses *)

Lemma single_inv values ns store ns' :
  single values ns store = Some ns' ->
  exists v more ns1,
    values = v :: more /\ store v = Some ns1 /\
    forall o, slot_set o ns' = slot_set o ns1.
Proof.
  unfold single. destruct values as [|v more]; [discriminate |].
  destruct (store v) as [ns1|] eqn:Hs; [| discriminate].
  intros H. inversion H. exists v, more, ns1.
  split; [reflexivity |]. split; [exact Hs |].
  intros o. destruct o; reflexivity.
Qed.

Lemma all_some_existsb {A} (f : string -> option A) vs zs :
  all_some (List.map f vs) = Some zs ->
  existsb (fun v => is_none (f v)) vs = false.
Proof.
  revert zs. induction vs as [|v r IH]; intros zs; simpl; [reflexivity |].
  destruct (f v); [| discriminate]. simpl.
  destruct (all_some (List.map f r)) as [r'|]; [| discriminate].
  intros _. apply (IH r'). reflexivity.
Qed.

Lemma take_action_inv o values ns ns' :
  take_action o values ns = Some ns' ->
  bad_value (Opt o values) = false /\
  forall o', slot_set o' ns' = same_option o' o || slot_set o' ns.
Proof.
  destruct o; cbn [take_action bad_value]; intros H.
  - apply single_inv in H as (v & more & ns1 & -> & Hs & Hslots).
    cbv beta in Hs.
    destruct (type_of_value v); [| discriminate Hs]. inversion Hs. subst ns1.
    split; [reflexivity |]. intros o'. rewrite Hslots.
    destruct o'; reflexivity.
  - apply single_inv in H as (v & more & ns1 & -> & Hs & Hslots).
    cbv beta in Hs.
    inversion Hs. subst ns1.
    split; [reflexivity |]. intros o'. rewrite Hslots.
    destruct o'; reflexivity.
  - apply single_inv in H as (v & more & ns1 & -> & Hs & Hslots).
    cbv beta in Hs.
    inversion Hs. subst ns1.
    split; [reflexivity |]. intros o'. rewrite Hslots.
    destruct o'; reflexivity.
  - destruct values; [discriminate |]. inversion H.
    split; [reflexivity |]. intros o'. destruct o'; reflexivity.
  - apply single_inv in H as (v & more & ns1 & -> & Hs & Hslots).
    cbv beta in Hs.
    destruct (in_choices v difficulty_choices) eqn:Hc; [| discriminate Hs].
    inversion Hs. subst ns1.
    split; [reflexivity |]. intros o'. rewrite Hslots.
    destruct o'; reflexivity.
  - apply single_inv in H as (v & more & ns1 & -> & Hs & Hslots).
    cbv beta in Hs.
    inversion Hs. subst ns1.
    split; [reflexivity |]. intros o'. rewrite Hslots.
    destruct o'; reflexivity.
  - destruct values; [discriminate |]. inversion H.
    split; [reflexivity |]. intros o'. destruct o'; reflexivity.
  - destruct values as [|v r]; [discriminate |].
    destruct (all_some (List.map py_int (v :: r))) as [zs|] eqn:Hz;
      [| discriminate].
    inversion H. split; [apply (all_some_existsb py_int _ zs Hz) |].
    intros o'. destruct o'; reflexivity.
  - destruct values; [discriminate |]. inversion H.
    split; [reflexivity |]. intros o'. destruct o'; reflexivity.
  - apply single_inv in H as (v & more & ns1 & -> & Hs & Hslots).
    cbv beta in Hs.
    inversion Hs. subst ns1.
    split; [reflexivity |]. intros o'. rewrite Hslots.
    destruct o'; reflexivity.
Qed.

Lemma required_present_slots ns o :
  required_present ns = true -> In o required_options -> slot_set o ns = true.
Proof.
  unfold required_present. intros H Ho.
  destruct (ns_type ns) eqn:H1; [| discriminate].
  destruct (ns_name ns) eqn:H2; [| discriminate].
  destruct (ns_author ns) eqn:H3; [| discriminate].
  destruct (ns_description ns) eqn:H4; [| discriminate].
  destruct (ns_difficulty ns) eqn:H5; [| discriminate].
  destruct (ns_flag ns) eqn:H6; [| discriminate].
  destruct (ns_provides ns) eqn:H7; [| discriminate].
  destruct (ns_ports ns) eqn:H8; [| discriminate].
  simpl in Ho.
  repeat (destruct Ho as [<-|Ho]; [simpl; rewrite ?H1, ?H2, ?H3, ?H4, ?H5,
                                     ?H6, ?H7, ?H8; reflexivity |]).
  destruct Ho.
Qed.

Lemma consume_parsed_inv args ns ns' :
  consume args ns = Parsed ns' ->
  existsb is_help args = false /\
  existsb bad_value args = false /\
  forall o, In o required_options -> supplied o args || slot_set o ns = true.
Proof.
  revert ns. induction args as [|a r IH]; intros ns H; simpl in H.
  - destruct (required_present ns) eqn:Hreq; [| discriminate].
    split; [reflexivity |]. split; [reflexivity |].
    intros o Ho. simpl. apply required_present_slots; assumption.
  - destruct a as [o values| |word].
    + destruct (take_action o values ns) as [ns1|] eqn:Ht; [| discriminate].
      apply take_action_inv in Ht as [Hbad Hslots].
      destruct (IH ns1 H) as (Hh & Hb & Hs).
      split; [exact Hh |]. split.
      * cbn [existsb]. rewrite Hbad, Hb. reflexivity.
      * intros o' Ho'. specialize (Hs o' Ho'). rewrite Hslots in Hs.
        unfold supplied in *. cbn [existsb is_option].
        destruct (same_option o' o), (existsb (is_option o') r),
                 (slot_set o' ns); try reflexivity; discriminate Hs.
    + discriminate.
    + destruct (IH _ H) as (Hh & Hb & Hs).
      split; [exact Hh |]. split; [exact Hb |].
      intros o' Ho'. specialize (Hs o' Ho').
      replace (slot_set o' ns) with
        (slot_set o'
           (mkNamespace (ns_type ns) (ns_name ns) (ns_author ns)
              (ns_description ns) (ns_difficulty ns) (ns_flag ns)
              (ns_provides ns) (ns_ports ns) (ns_remote ns)
              (ns_target ns) (extras ns ++ [word])))
        by (destruct o'; reflexivity).
      exact Hs.
Qed.

Lemma consume_help_inv args ns :
  consume args ns = HelpShown -> existsb is_help args = true.
Proof.
  revert ns. induction args as [|a r IH]; intros ns H; simpl in H.
  - destruct (required_present ns); [| discriminate].
    destruct (extras ns); discriminate.
  - destruct a as [o values| |word].
    + destruct (take_action o values ns) as [ns1|]; [| discriminate].
      simpl. apply (IH ns1 H).
    + reflexivity.
    + simpl. apply (IH _ H).
Qed.

Lemma invalid_not_parsed args ns :
  invalid args = true -> parse_args args <> Parsed ns.
Proof.
  unfold invalid, parse_args. intros Hinv Hp.
  apply consume_parsed_inv in Hp as (_ & Hb & Hs).
  rewrite Hb, orb_false_r in Hinv.
  unfold missing_required in Hinv. apply existsb_exists in Hinv
    as (o & Ho & Hmiss).
  specialize (Hs o Ho). apply negb_true_iff in Hmiss. rewrite Hmiss in Hs.
  destruct o; discriminate Hs.
Qed.




(** ** Reading back what [dumps] wrote *)

Lemma length_append (a b : string) :
  String.length (a +:+ b) = String.length a + String.length b.
Proof.
  induction a as [|c r IH]; [reflexivity |].
  rewrite append_cons. cbn [String.length]. rewrite IH. reflexivity.
Qed.

(** Strings *)

Lemma scan_escape_char c tail :
  scan_string (escape_char c +:+ tail) = cons_char c (scan_string tail).
Proof.
  destruct c as [[] [] [] [] [] [] [] []]; reflexivity.
Qed.

Lemma scan_escape s rest :
  scan_string (escape s +:+ String dquote rest) = Some (s, rest).
Proof.
  induction s as [|c r IH].
  - reflexivity.
  - cbn [escape]. rewrite append_assoc3, scan_escape_char, IH. reflexivity.
Qed.

Lemma scan_encode_str s rest :
  exists body,
    encode_str s +:+ rest = String dquote body /\
    scan_string body = Some (s, rest).
Proof.
  exists (escape s +:+ String dquote rest). split.
  - unfold encode_str. rewrite append_cons, append_assoc3. reflexivity.
  - apply scan_escape.
Qed.

(** Integers *)

Lemma digit_of_not_closing rest :
  closes_value rest = true ->
  scan_uint rest = (Decimal.Nil, rest) /\ starts_fraction rest = false.
Proof.
  destruct rest as [|c r]; [intros _; split; reflexivity |].
  unfold closes_value. intros H.
  destruct c as [[] [] [] [] [] [] [] []]; try discriminate H;
    split; reflexivity.
Qed.

Lemma scan_uint_digits u rest :
  scan_uint rest = (Decimal.Nil, rest) ->
  scan_uint (NilEmpty.string_of_uint u +:+ rest) = (u, rest).
Proof.
  intros Hrest. induction u; cbn [NilEmpty.string_of_uint];
    rewrite ?append_nil_l, ?append_cons; try exact Hrest;
    cbn [scan_uint]; cbn; rewrite IHu; reflexivity.
Qed.

Lemma scan_int_digits u rest :
  u <> Decimal.Nil ->
  closes_value rest = true ->
  scan_int (NilEmpty.string_of_uint u +:+ rest) = Some (Z.of_uint u, rest).
Proof.
  intros Hu Hrest.
  destruct (digit_of_not_closing rest Hrest) as [Hscan Hfrac].
  pose proof (scan_uint_digits u rest Hscan) as Hdigits.
  unfold scan_int.
  destruct u; try congruence;
    cbn [NilEmpty.string_of_uint] in *; rewrite append_cons in *;
    cbn [Ascii.eqb Bool.eqb]; rewrite Hdigits, Hfrac; reflexivity.
Qed.

Lemma scan_int_str_int z rest :
  closes_value rest = true ->
  scan_int (str_int z +:+ rest) = Some (z, rest).
Proof.
  intros Hrest. unfold str_int.
  destruct z as [|p|p]; cbn [Z.to_int NilZero.string_of_int].
  - change (NilZero.string_of_uint Decimal.zero)
      with (NilEmpty.string_of_uint (Decimal.D0 Decimal.Nil)).
    rewrite scan_int_digits by (discriminate || exact Hrest). reflexivity.
  - pose proof (DecimalPos.Unsigned.to_uint_nonnil p) as Hnn.
    replace (NilZero.string_of_uint (Pos.to_uint p))
      with (NilEmpty.string_of_uint (Pos.to_uint p))
      by (destruct (Pos.to_uint p); [congruence | reflexivity..]).
    rewrite (scan_int_digits _ _ Hnn Hrest). f_equal. f_equal.
    apply (DecimalZ.of_to (Z.pos p)).
  - pose proof (DecimalPos.Unsigned.to_uint_nonnil p) as Hnn.
    replace (NilZero.string_of_uint (Pos.to_uint p))
      with (NilEmpty.string_of_uint (Pos.to_uint p))
      by (destruct (Pos.to_uint p); [congruence | reflexivity..]).
    destruct (digit_of_not_closing rest Hrest) as [Hscan Hfrac].
    rewrite append_cons. unfold scan_int. cbn [Ascii.eqb Bool.eqb].
    rewrite (scan_uint_digits _ rest Hscan), Hfrac.
    destruct (Pos.to_uint p) eqn:Hp; [congruence |..];
      f_equal; f_equal; rewrite <- Hp; apply (DecimalZ.of_to (Z.neg p)).
Qed.

Lemma str_int_start z rest :
  exists c r, str_int z +:+ rest = String c r /\ value_start c = true /\
              Ascii.eqb c "n" = false /\ Ascii.eqb c dquote = false /\
              Ascii.eqb c "[" = false /\ Ascii.eqb c "{" = false.
Proof.
  unfold str_int. destruct z as [|p|p]; cbn [Z.to_int NilZero.string_of_int].
  - eexists _, _. split; [reflexivity |]. repeat split.
  - pose proof (DecimalPos.Unsigned.to_uint_nonnil p) as Hnn.
    destruct (Pos.to_uint p); [congruence |..];
      (eexists _, _; split; [reflexivity |]; repeat split).
  - eexists _, _. split; [reflexivity |]. repeat split.
Qed.

Lemma value_start_facts c :
  value_start c = true ->
  is_ws c = false /\ Ascii.eqb c "]" = false /\ Ascii.eqb c "}" = false /\
  Ascii.eqb c "," = false.
Proof.
  destruct c as [[] [] [] [] [] [] [] []]; intros H; try discriminate H;
    repeat split.
Qed.

Lemma skip_ws_spaces n s : skip_ws (spaces n +:+ s) = skip_ws s.
Proof. induction n as [|k IH]; [reflexivity | exact IH]. Qed.

Lemma skip_ws_newline_indent n s : skip_ws (newline_indent n +:+ s) = skip_ws s.
Proof.
  unfold newline_indent, NL. rewrite append_assoc3, append_cons.
  cbn [skip_ws]. change (is_ws "010") with true. cbv iota.
  rewrite append_nil_l. apply skip_ws_spaces.
Qed.

Lemma closes_newline_indent n s : closes_value (newline_indent n +:+ s) = true.
Proof. reflexivity. Qed.

Lemma parse_value_skip fuel s s' :
  skip_ws s = skip_ws s' -> parse_value fuel s = parse_value fuel s'.
Proof.
  intros H. destruct fuel as [|f]; [reflexivity |].
  cbn [parse_value]. rewrite H. reflexivity.
Qed.

Lemma encode_start level v rest :
  exists c r, encode level v +:+ rest = String c r /\ value_start c = true.
Proof.
  destruct v as [|z|s|l|l].
  - eexists _, _. split; reflexivity.
  - destruct (str_int_start z rest) as (c & r & H & Hs & _).
    exists c, r. auto.
  - eexists _, _. split; reflexivity.
  - cbn [encode]. unfold bracketed.
    destruct (List.map (encode (S level)) l);
      eexists _, _; split; reflexivity.
  - cbn [encode]. unfold bracketed.
    destruct (List.map _ (sorted_items _));
      eexists _, _; split; reflexivity.
Qed.

Lemma encode_nonempty level v rest :
  String.length rest < String.length (encode level v +:+ rest).
Proof.
  rewrite length_append.
  destruct (encode_start level v "") as (c & r & H & _).
  rewrite append_nil_r in H. rewrite H. simpl. lia.
Qed.

Lemma reads_back_null : reads_back JNull.
Proof.
  intros level rest fuel _ Hfuel.
  destruct fuel as [|f]; [simpl in Hfuel; lia | reflexivity].
Qed.

Lemma reads_back_int z : reads_back (JInt z).
Proof.
  intros level rest fuel Hrest Hfuel.
  destruct fuel as [|f]; [lia |].
  cbn [encode norm parse_value].
  destruct (str_int_start z rest) as (c & r & Hs & Hv & H1 & H2 & H3 & H4).
  pose proof (scan_int_str_int z rest Hrest) as Hscan.
  rewrite Hs in *. cbn [skip_ws].
  destruct (value_start_facts c Hv) as (Hws & _). rewrite Hws.
  rewrite H1, H2, H3, H4, Hscan. reflexivity.
Qed.

Lemma reads_back_str s : reads_back (JStr s).
Proof.
  intros level rest fuel Hrest Hfuel.
  destruct fuel as [|f]; [lia |].
  cbn [encode norm parse_value].
  destruct (scan_encode_str s rest) as (body & Hs & Hscan).
  rewrite Hs. cbn [skip_ws]. change (is_ws dquote) with false. cbv iota.
  change (Ascii.eqb dquote "n") with false.
  change (Ascii.eqb dquote dquote) with true. cbv iota.
  rewrite Hscan. reflexivity.
Qed.

Lemma concat_cons2 sep (x y : string) l :
  String.concat sep (x :: y :: l) = x +:+ sep +:+ String.concat sep (y :: l).
Proof. reflexivity. Qed.

(** The elements of an array, from the white space in front of the
    first one to the closing bracket. *)
Lemma parse_elems_ok l :
  Forall reads_back l ->
  l <> [] ->
  forall level rest fuel,
    2 * String.length
          (newline_indent (S level)
           +:+ String.concat ("," +:+ newline_indent (S level))
                 (List.map (encode (S level)) l)
           +:+ newline_indent level +:+ "]" +:+ rest) + 3 <= fuel ->
    parse_elems fuel
      (newline_indent (S level)
       +:+ String.concat ("," +:+ newline_indent (S level))
             (List.map (encode (S level)) l)
       +:+ newline_indent level +:+ "]" +:+ rest)
    = Some (List.map norm l, rest).
Proof.
  intros Hall. induction Hall as [|v r Hv Hr IH]; intros Hne level rest fuel.
  - congruence.
  - destruct fuel as [|f]; [lia |]. intros Hfuel.
    cbn [parse_elems].
    rewrite (parse_value_skip f _ _ (skip_ws_newline_indent (S level) _)).
    destruct r as [|v' r'].
    + cbn [List.map String.concat] in *.
      rewrite (Hv (S level) (newline_indent level +:+ "]" +:+ rest) f);
        [| reflexivity |].
      * rewrite skip_ws_newline_indent. reflexivity.
      * rewrite !length_append in *. lia.
    + cbn [List.map] in *. rewrite concat_cons2, !append_assoc3 in *.
      pose proof (encode_nonempty (S level) v "") as Hlen.
      rewrite append_nil_r in Hlen.
      rewrite (Hv (S level)); [| reflexivity |].
      * rewrite append_cons. cbn [skip_ws].
        change (is_ws ",") with false. cbv iota.
        change (Ascii.eqb "," ",") with true. cbv iota.
        rewrite append_nil_l.
        rewrite (IH ltac:(discriminate) level rest f); [reflexivity |].
        cbn [List.map].
        rewrite !length_append in *. cbn [String.length] in *. lia.
      * rewrite !length_append in *. lia.
Qed.

Lemma skip_ws_value level v tail :
  exists c r,
    skip_ws (encode level v +:+ tail) = String c r /\
    encode level v +:+ tail = String c r /\
    Ascii.eqb c "]" = false /\ Ascii.eqb c "}" = false.
Proof.
  destruct (encode_start level v tail) as (c & r & H & Hv).
  destruct (value_start_facts c Hv) as (Hws & H1 & H2 & _).
  exists c, r. rewrite H. cbn [skip_ws]. rewrite Hws. auto.
Qed.

Lemma reads_back_arr l : Forall reads_back l -> reads_back (JArr l).
Proof.
  intros Hall level rest fuel Hrest Hfuel.
  destruct fuel as [|f]; [lia |].
  cbn [encode norm] in *. unfold bracketed in *.
  destruct l as [|v r]; [reflexivity |].
  cbn [List.map] in *. rewrite !append_assoc3 in *.
  rewrite append_cons, append_nil_l in *.
  cbn [parse_value skip_ws]. change (is_ws "[") with false. cbv iota.
  change (Ascii.eqb "[" "n") with false.
  change (Ascii.eqb "[" dquote) with false.
  change (Ascii.eqb "[" "[") with true. cbv iota.
  rewrite skip_ws_newline_indent.
  assert (Hhead : exists c r0,
             skip_ws (String.concat ("," +:+ newline_indent (S level))
                        (encode (S level) v :: List.map (encode (S level)) r)
                      +:+ newline_indent level +:+ "]" +:+ rest)
             = String c r0 /\ Ascii.eqb c "]" = false).
  { destruct r as [|v' r'].
    - cbn [List.map String.concat].
      destruct (skip_ws_value (S level) v
                  (newline_indent level +:+ "]" +:+ rest))
        as (c & r0 & H & _ & Hc & _).
      exists c, r0. auto.
    - cbn [List.map]. rewrite concat_cons2, !append_assoc3.
      destruct (skip_ws_value (S level) v
                  ("," +:+ newline_indent (S level)
                   +:+ String.concat ("," +:+ newline_indent (S level))
                         (encode (S level) v'
                          :: List.map (encode (S level)) r')
                   +:+ newline_indent level +:+ "]" +:+ rest))
        as (c & r0 & H & _ & Hc & _).
      exists c, r0. auto. }
  destruct Hhead as (c & r0 & Hskip & Hc). rewrite Hskip, Hc.
  change (encode (S level) v :: List.map (encode (S level)) r)
    with (List.map (encode (S level)) (v :: r)).
  rewrite (parse_elems_ok (v :: r) Hall ltac:(discriminate) level rest f).
  - reflexivity.
  - cbn [List.map]. cbn [String.length] in Hfuel. lia.
Qed.

(** Objects *)

Lemma insert_item_map {A B} (f : A -> B) k v (l : list (string * A)) :
  insert_item (k, f v) (List.map (fun kv => (fst kv, f (snd kv))) l)
  = List.map (fun kv => (fst kv, f (snd kv))) (insert_item (k, v) l).
Proof.
  induction l as [|[k' v'] r IH]; [reflexivity |].
  cbn [List.map insert_item fst snd].
  destruct (String.leb k k'); [reflexivity |].
  cbn [List.map fst snd]. rewrite IH. reflexivity.
Qed.

Lemma sorted_items_map {A B} (f : A -> B) (l : list (string * A)) :
  sorted_items (List.map (fun kv => (fst kv, f (snd kv))) l)
  = List.map (fun kv => (fst kv, f (snd kv))) (sorted_items l).
Proof.
  unfold sorted_items. induction l as [|[k v] r IH]; [reflexivity |].
  cbn [List.map fold_right fst snd]. rewrite IH. apply insert_item_map.
Qed.

Lemma Forall_insert_item {A} (P : string * A -> Prop) kv l :
  P kv -> Forall P l -> Forall P (insert_item kv l).
Proof.
  intros Hkv Hl. induction Hl as [|x r Hx Hr IH]; simpl.
  - constructor; [exact Hkv | constructor].
  - destruct (String.leb (fst kv) (fst x)).
    + constructor; [exact Hkv |]. constructor; assumption.
    + constructor; assumption.
Qed.

Lemma Forall_sorted_items {A} (P : string * A -> Prop) l :
  Forall P l -> Forall P (sorted_items l).
Proof.
  unfold sorted_items. intros Hl. induction Hl as [|x r Hx Hr IH]; simpl.
  - constructor.
  - apply Forall_insert_item; assumption.
Qed.

Lemma parse_members_ok ls :
  Forall (fun kv => reads_back (snd kv)) ls ->
  ls <> [] ->
  forall level rest fuel,
    2 * String.length
          (newline_indent (S level)
           +:+ String.concat ("," +:+ newline_indent (S level))
                 (List.map (member_text level) ls)
           +:+ newline_indent level +:+ "}" +:+ rest) + 3 <= fuel ->
    parse_members fuel
      (newline_indent (S level)
       +:+ String.concat ("," +:+ newline_indent (S level))
             (List.map (member_text level) ls)
       +:+ newline_indent level +:+ "}" +:+ rest)
    = Some (List.map (fun kv => (fst kv, norm (snd kv))) ls, rest).
Proof.
  intros Hall. induction Hall as [|[k v] r Hv Hr IH];
    intros Hne level rest fuel.
  - congruence.
  - destruct fuel as [|f]; [lia |]. intros Hfuel.
    cbn [fst snd] in Hv.
    assert (Hstep : forall R,
               closes_value R = true ->
               2 * String.length (member_text level (k, v) +:+ R) + 2 <= f ->
               exists body,
                 skip_ws (newline_indent (S level)
                          +:+ member_text level (k, v) +:+ R)
                 = String dquote body /\
                 scan_string body
                 = Some (k, String ":" (String " "
                                          (encode (S level) v +:+ R))) /\
                 parse_value f (String " " (encode (S level) v +:+ R))
                 = Some (norm v, R)).
    { intros R HR Hlen. unfold member_text in *. cbn [fst snd] in *.
      rewrite !append_assoc3 in *.
      destruct (scan_encode_str k (": " +:+ encode (S level) v +:+ R))
        as (body & Hs & Hscan).
      exists body. rewrite skip_ws_newline_indent, Hs. cbn [skip_ws].
      change (is_ws dquote) with false. cbv iota.
      split; [reflexivity |]. split; [exact Hscan |].
      rewrite (parse_value_skip f (String " " (encode (S level) v +:+ R))
                 (encode (S level) v +:+ R) eq_refl).
      apply Hv; [exact HR |].
      rewrite !length_append in *. lia. }
    cbn [parse_members].
    destruct r as [|kv' r'].
    + cbn [List.map String.concat] in *.
      destruct (Hstep (newline_indent level +:+ "}" +:+ rest) eq_refl)
        as (body & Hskip & Hscan & Hval).
      { rewrite !length_append in *. lia. }
      rewrite Hskip. change (Ascii.eqb dquote dquote) with true. cbv iota.
      rewrite Hscan. cbn [skip_ws]. change (is_ws ":") with false. cbv iota.
      change (Ascii.eqb ":" ":") with true. cbv iota.
      rewrite Hval, skip_ws_newline_indent. reflexivity.
    + cbn [List.map] in *. rewrite concat_cons2, !append_assoc3 in *.
      pose proof (encode_nonempty (S level) v "") as Hlen.
      rewrite append_nil_r in Hlen.
      destruct (Hstep ("," +:+ newline_indent (S level)
                       +:+ String.concat ("," +:+ newline_indent (S level))
                             (member_text level kv'
                              :: List.map (member_text level) r')
                       +:+ newline_indent level +:+ "}" +:+ rest) eq_refl)
        as (body & Hskip & Hscan & Hval).
      { rewrite !length_append in *. lia. }
      rewrite Hskip. change (Ascii.eqb dquote dquote) with true. cbv iota.
      rewrite Hscan. cbn [skip_ws]. change (is_ws ":") with false. cbv iota.
      change (Ascii.eqb ":" ":") with true. cbv iota.
      rewrite Hval. rewrite append_cons. cbn [skip_ws].
      change (is_ws ",") with false. cbv iota.
      change (Ascii.eqb "," ",") with true. cbv iota.
      rewrite append_nil_l.
      rewrite (IH ltac:(discriminate) level rest f); [reflexivity |].
      unfold member_text at 1 in Hfuel. cbn [fst snd] in Hfuel.
      rewrite !length_append in *. cbn [String.length] in *. lia.
Qed.

Lemma encode_obj level l :
  encode level (JObj l)
  = bracketed "{" "}" level
      (List.map (member_text level) (sorted_items l)).
Proof.
  cbn [encode]. rewrite sorted_items_map, List.map_map. reflexivity.
Qed.

Lemma norm_obj l :
  norm (JObj l)
  = JObj (List.map (fun kv => (fst kv, norm (snd kv))) (sorted_items l)).
Proof. cbn [norm]. rewrite sorted_items_map. reflexivity. Qed.

Lemma reads_back_obj l :
  Forall (fun kv => reads_back (snd kv)) l -> reads_back (JObj l).
Proof.
  intros Hall level rest fuel Hrest Hfuel.
  destruct fuel as [|f]; [lia |].
  rewrite encode_obj, norm_obj in *. unfold bracketed in *.
  apply Forall_sorted_items in Hall.
  destruct (sorted_items l) as [|[k v] r]; [reflexivity |].
  cbn [List.map] in *. rewrite !append_assoc3 in *.
  rewrite append_cons, append_nil_l in *.
  cbn [parse_value skip_ws]. change (is_ws "{") with false. cbv iota.
  change (Ascii.eqb "{" "n") with false.
  change (Ascii.eqb "{" dquote) with false.
  change (Ascii.eqb "{" "[") with false.
  change (Ascii.eqb "{" "{") with true. cbv iota.
  rewrite skip_ws_newline_indent.
  assert (Hhead : exists body,
             skip_ws
               (String.concat ("," +:+ newline_indent (S level))
                  (member_text level (k, v)
                   :: List.map (member_text level) r)
                +:+ newline_indent level +:+ "}" +:+ rest)
             = String dquote body).
  { destruct r as [|kv' r'].
    - cbn [List.map String.concat]. unfold member_text, encode_str.
      rewrite !append_assoc3, append_cons. eexists. reflexivity.
    - cbn [List.map]. rewrite concat_cons2. unfold member_text at 1.
      unfold encode_str. rewrite !append_assoc3, append_cons.
      eexists. reflexivity. }
  destruct Hhead as (body & Hbody). rewrite Hbody.
  change (Ascii.eqb dquote "}") with false. cbv iota.
  change (member_text level (k, v) :: List.map (member_text level) r)
    with (List.map (member_text level) ((k, v) :: r)).
  rewrite (parse_members_ok ((k, v) :: r) Hall ltac:(discriminate)
             level rest f).
  - reflexivity.
  - cbn [List.map]. cbn [String.length] in Hfuel. lia.
Qed.

Lemma reads_back_all v : reads_back v.
Proof.
  induction v using json_nested_ind.
  - apply reads_back_null.
  - apply reads_back_int.
  - apply reads_back_str.
  - apply reads_back_arr. assumption.
  - apply reads_back_obj. assumption.
Qed.

(** [json.loads(json.dumps(v, indent=4, sort_keys=True))] *)
Lemma loads_dumps v : loads (dumps v) = Some (norm v).
Proof.
  unfold loads, dumps.
  pose proof (reads_back_all v 0 "" (2 * String.length (encode 0 v) + 2)
                eq_refl) as H.
  rewrite append_nil_r in H. rewrite H; [reflexivity | lia].
Qed.

(** ** [chal.json] *)

Lemma norm_strings l : List.map norm (List.map JStr l) = List.map JStr l.
Proof. rewrite List.map_map. reflexivity. Qed.

Lemma norm_ints l : List.map norm (List.map JInt l) = List.map JInt l.
Proof. rewrite List.map_map. reflexivity. Qed.

Lemma norm_to_dict c : norm (to_dict c) = sorted_dict c.
Proof.
  unfold to_dict, sorted_dict, members.
  rewrite norm_obj. cbn [List.map fst snd].
  assert (Hr : norm (json_opt (fun l => JArr (List.map JStr l)) (remote c))
               = json_opt (fun l => JArr (List.map JStr l)) (remote c)).
  { destruct (remote c); [| reflexivity].
    cbn [json_opt norm]. rewrite norm_strings. reflexivity. }
  assert (Ht : norm (json_opt JStr (target c)) = json_opt JStr (target c)).
  { destruct (target c); reflexivity. }
  set (r := json_opt (fun l => JArr (List.map JStr l)) (remote c)) in *.
  set (t := json_opt JStr (target c)) in *.
  replace (sorted_items
             [("type", JStr (value (type c))); ("name", JStr (name c));
              ("author", JStr (author c));
              ("description", JStr (description c));
              ("difficulty", JStr (difficulty c)); ("flag", JStr (flag c));
              ("provides", JArr (List.map JStr (provides c)));
              ("ports", JArr (List.map JInt (ports c)));
              ("remote", r); ("target", t)])
    with [("author", JStr (author c));
          ("description", JStr (description c));
          ("difficulty", JStr (difficulty c)); ("flag", JStr (flag c));
          ("name", JStr (name c));
          ("ports", JArr (List.map JInt (ports c)));
          ("provides", JArr (List.map JStr (provides c)));
          ("remote", r); ("target", t);
          ("type", JStr (value (type c)))] by reflexivity.
  cbn [List.map fst snd norm]. rewrite norm_strings, norm_ints, Hr, Ht.
  reflexivity.
Qed.

Lemma all_some_strings l : all_some (List.map as_str (List.map JStr l)) = Some l.
Proof.
  induction l as [|x r IH]; [reflexivity |].
  cbn [List.map all_some as_str]. rewrite IH. reflexivity.
Qed.

Lemma all_some_ints l : all_some (List.map as_int (List.map JInt l)) = Some l.
Proof.
  induction l as [|x r IH]; [reflexivity |].
  cbn [List.map all_some as_int]. rewrite IH. reflexivity.
Qed.

Lemma from_sorted_dict c : from_dict (sorted_dict c) = Some c.
Proof.
  destruct c as [ty na au de di fl pr po re ta].
  unfold sorted_dict, members, from_dict.
  cbn [type name author description difficulty flag provides ports remote
       target].
  change (dict_get "type" _) with (Some (JStr (value ty))).
  change (dict_get "name" _) with (Some (JStr na)).
  change (dict_get "author" _) with (Some (JStr au)).
  change (dict_get "description" _) with (Some (JStr de)).
  change (dict_get "difficulty" _) with (Some (JStr di)).
  change (dict_get "flag" _) with (Some (JStr fl)).
  change (dict_get "provides" _) with (Some (JArr (List.map JStr pr))).
  change (dict_get "ports" _) with (Some (JArr (List.map JInt po))).
  change (dict_get "remote" _)
    with (Some (json_opt (fun l => JArr (List.map JStr l)) re)).
  change (dict_get "target" _) with (Some (json_opt JStr ta)).
  cbv iota beta. cbn [as_str as_list].
  rewrite all_some_strings, all_some_ints.
  replace (type_of_value (value ty)) with (Some ty) by (destruct ty; reflexivity).
  replace (as_nullable (as_list as_str)
             (json_opt (fun l => JArr (List.map JStr l)) re))
    with (Some re)
    by (destruct re; [cbn [json_opt as_nullable as_list];
                      rewrite all_some_strings |]; reflexivity).
  replace (as_nullable as_str (json_opt JStr ta)) with (Some ta)
    by (destruct ta; reflexivity).
  reflexivity.
Qed.


(** ** The footprint of a run *)

Lemma deploy_eq E c d cmd :
  deploy E c d cmd = (mkdir E (joinpath d "deploy") ;;; artifacts E c d cmd).
Proof. reflexivity. Qed.


Lemma keeps_bind_post {A B} P (Q : A -> Prop) (m : M A) (f : A -> M B) :
  keeps P m ->
  (forall w w' a, m w = (w', Ok a) -> Q a) ->
  (forall a, Q a -> keeps P (f a)) ->
  keeps P (bind m f).
Proof.
  intros Hm Hq Hf w H. unfold bind.
  specialize (Hm w H). specialize (Hq w).
  destruct (m w) as [w1 [a|e]]; simpl in *.
  - apply (Hf a); [apply (Hq w1); reflexivity | exact Hm].
  - exact Hm.
Qed.

Section Footprint.
Variable area : key -> Prop.
Variable m0 : fsmap.

Let P (w : world) : Prop := reached area m0 w.

Lemma reached_log w e :
  P w -> P {| files := files w; trace := trace w ++ [e] |}.
Proof. intros H. exact H. Qed.

Lemma reached_step w m' t :
  P w -> alters area (files w) m' -> P {| files := m'; trace := t |}.
Proof.
  intros H Hc. unfold P, reached in *. simpl.
  eapply rtc_r; eassumption.
Qed.

Lemma reached_os_mkdir k : area k -> keeps P (os_mkdir k).
Proof.
  intros Hk w H. rewrite os_mkdir_eq. cbn zeta.
  destruct k as [|x k']; [exact H |].
  destruct (stat (files w) (x :: k')) eqn:Hs; [exact H |].
  destruct (stat (files w) (parent (x :: k'))) as [[|s]|] eqn:Hp.
  - cbn [fst]. eapply reached_step; [exact H |].
    apply alters_mkdir; [exact Hk | discriminate | exact Hs | exact Hp].
  - exact H.
  - destruct (file_above (files w) [] (x :: k')); exact H.
Qed.

Lemma reached_resolved E p : keeps P (resolved E p).
Proof.
  unfold resolved.
  destruct (resolve E p); [apply keeps_ret | apply keeps_raise].
Qed.

Lemma resolved_post E p w w' k :
  resolved E p w = (w', Ok k) -> resolve E p = Some k.
Proof. intros H. apply resolved_ok_inv in H. tauto. Qed.

Lemma reached_mkdir E p :
  (forall k, resolve E p = Some k -> area k) -> keeps P (mkdir E p).
Proof.
  intros Hk. unfold mkdir.
  apply (keeps_bind_post P (fun k => resolve E p = Some k));
    [apply reached_resolved | apply resolved_post |].
  intros k Hr. apply reached_os_mkdir, Hk, Hr.
Qed.

Lemma reached_path_exists E p : keeps P (path_exists E p).
Proof.
  unfold path_exists. apply keeps_bind; [apply reached_resolved | intros k].
  apply keeps_bind; [intros w H; exact H | intros m]. apply keeps_ret.
Qed.

Lemma reached_except_exist_ok ok k w e :
  P w -> P (fst (except_exist_ok ok k w e)).
Proof.
  intros H. unfold except_exist_ok. destruct (ok && _); exact H.
Qed.

Lemma reached_mkdir_parents_from ok rk :
  (forall j, j `prefix_of` rev rk -> area j) ->
  keeps P (mkdir_parents_from ok rk).
Proof.
  revert ok. induction rk as [|x rp IH]; intros ok Harea w H;
    rewrite mkdir_parents_from_eq.
  - pose proof (reached_os_mkdir (rev []) (Harea _ (reflexivity _)) w H) as H1.
    destruct (os_mkdir (rev []) w) as [w1 [u|e]]; [exact H1 |].
    destruct e; try (apply reached_except_exist_ok; exact H1); exact H1.
  - pose proof (reached_os_mkdir (rev (x :: rp)) (Harea _ (reflexivity _)) w H)
      as H1.
    destruct (os_mkdir (rev (x :: rp)) w) as [w1 [u|e]]; [exact H1 |].
    destruct e; try (apply reached_except_exist_ok; exact H1).
    assert (Harea' : forall j, j `prefix_of` rev rp -> area j).
    { intros j Hj. apply Harea. cbn [rev]. apply prefix_app_r. exact Hj. }
    pose proof (IH true Harea' w1 H1) as H2.
    destruct (mkdir_parents_from true rp w1) as [w2 [u|e]]; [| exact H2].
    pose proof (reached_os_mkdir (rev (x :: rp)) (Harea _ (reflexivity _))
                  w2 H2) as H3.
    destruct (os_mkdir (rev (x :: rp)) w2) as [w3 [u'|e]]; [exact H3 |].
    apply reached_except_exist_ok; exact H3.
Qed.

Lemma reached_mkdir_parents E p :
  (forall k j, resolve E p = Some k -> j `prefix_of` k -> area j) ->
  keeps P (mkdir_parents E p).
Proof.
  intros Harea. unfold mkdir_parents.
  apply (keeps_bind_post P (fun k => resolve E p = Some k));
    [apply reached_resolved | apply resolved_post |].
  intros k Hr. apply reached_mkdir_parents_from.
  rewrite rev_involutive. intros j Hj. exact (Harea k j Hr Hj).
Qed.

Lemma reached_open_w E p :
  (forall k, resolve E p = Some k -> area k) -> keeps P (open_w E p).
Proof.
  intros Harea w H. rewrite open_w_eq.
  destruct (resolve E p) as [k|] eqn:Hr; [| exact H]. cbn zeta.
  specialize (Harea k eq_refl).
  destruct k as [|x k']; [exact H |].
  destruct (stat (files w) (x :: k')) as [[|s]|] eqn:Hs.
  - exact H.
  - cbn [fst]. eapply reached_step; [exact H |].
    eapply alters_text; [exact Harea | exact Hs].
  - destruct (stat (files w) (parent (x :: k'))) as [[|s]|] eqn:Hp.
    + cbn [fst]. eapply reached_step; [exact H |].
      apply alters_create; [exact Harea | discriminate | exact Hs | exact Hp].
    + exact H.
    + destruct (file_above (files w) [] (x :: k')); exact H.
Qed.

Lemma open_w_post E p w w' k :
  open_w E p w = (w', Ok k) -> resolve E p = Some k.
Proof. intros H. apply open_w_ok_inv in H. tauto. Qed.

Lemma reached_write k s : area k -> keeps P (write k s).
Proof.
  intros Harea w H. rewrite write_eq. cbn zeta.
  destruct (files w !! k) as [[|old]|] eqn:Hk; try exact H.
  cbn [fst]. eapply reached_step; [exact H |].
  eapply alters_text; [exact Harea | exact Hk].
Qed.

Lemma read_templates_post E w w' ts :
  read_templates E w = (w', Ok ts) ->
  exists entries,
    template_dir E = Some entries /\ read_entries entries [] = Ok ts.
Proof.
  unfold read_templates, bind, log, lift, ret, raise.
  destruct (template_dir E) as [entries|]; [| discriminate].
  destruct (read_entries entries []) as [ts'|e] eqn:Hr; [| discriminate].
  intros H. inversion H. subst ts'. exists entries. auto.
Qed.

Lemma reached_read_templates E : keeps P (read_templates E).
Proof.
  intros w H. unfold read_templates, bind, log, lift, ret, raise.
  destruct (template_dir E) as [entries|]; [| exact H].
  destruct (read_entries entries []); exact H.
Qed.

Lemma reached_write_file E p s :
  (forall k, resolve E p = Some k -> area k) ->
  keeps P (f <- open_w E p ;; write f s).
Proof.
  intros Harea.
  apply (keeps_bind_post P (fun k => resolve E p = Some k));
    [apply reached_open_w, Harea | apply open_w_post |].
  intros k Hr. apply reached_write, Harea, Hr.
Qed.

Lemma reached_write_template E d all t :
  (forall k, resolve E (joinpath (joinpath d "deploy") (fst t)) = Some k ->
             area k) ->
  keeps P (write_template E d all t).
Proof.
  intros Harea. unfold write_template.
  apply (keeps_bind_post P
           (fun k => resolve E (joinpath (joinpath d "deploy") (fst t))
                     = Some k));
    [apply reached_open_w, Harea | apply open_w_post |].
  intros k Hr.
  apply keeps_bind; [apply keeps_lift | intros kw].
  apply keeps_bind; [apply keeps_lift | intros text].
  apply reached_write, Harea, Hr.
Qed.

Lemma keeps_for_each_in {A} (f : A -> M unit) l :
  (forall a, In a l -> keeps P (f a)) -> keeps P (for_each f l).
Proof.
  induction l as [|x r IH]; intros Hf; simpl.
  - apply keeps_ret.
  - apply keeps_bind; [apply Hf; left; reflexivity | intros _].
    apply IH. intros a Ha. apply Hf. right. exact Ha.
Qed.

Lemma resolve_join_inv E p x k :
  resolve E (joinpath p x) = Some k ->
  starts_with_slash x = false ->
  exists kp, resolve E p = Some kp /\ kp `prefix_of` k.
Proof.
  unfold resolve, joinpath, Path_of. cbn [anchored parts]. intros H Hx.
  rewrite Hx in H. cbn [anchored parts] in H.
  rewrite forallb_app in H.
  destruct (forallb plain_part (parts p)); [| discriminate H].
  simpl in H. destruct (forallb plain_part _); [| discriminate H].
  inversion H. eexists. split; [reflexivity |].
  rewrite app_assoc. apply prefix_app_r. reflexivity.
Qed.

Section InDirectory.
Variable E : env.
Variable d : Path.
Hypothesis area_dir :
  forall kd k, resolve E d = Some kd -> kd `prefix_of` k -> area k.

Lemma area_join x k :
  starts_with_slash x = false ->
  resolve E (joinpath d x) = Some k -> area k.
Proof.
  intros Hx H. apply resolve_join_inv in H as (kd & Hd & Hpre);
    [| exact Hx].
  exact (area_dir kd k Hd Hpre).
Qed.

Lemma area_join2 x y k :
  starts_with_slash x = false ->
  starts_with_slash y = false ->
  resolve E (joinpath (joinpath d x) y) = Some k -> area k.
Proof.
  intros Hx Hy H. apply resolve_join_inv in H as (k1 & H1 & Hpre1);
    [| exact Hy].
  apply resolve_join_inv in H1 as (kd & Hd & Hpre); [| exact Hx].
  apply (area_dir kd k Hd). etransitivity; eassumption.
Qed.

Lemma reached_stubs c : keeps P (stubs E c d).
Proof.
  unfold stubs.
  apply keeps_bind;
    [apply reached_mkdir; intros k; apply area_join; reflexivity | intros _].
  apply (keeps_bind_post P
           (fun k => resolve E (joinpath (joinpath d "solve") "flag.txt")
                     = Some k));
    [apply reached_open_w; intros k; apply area_join2; reflexivity
    | apply open_w_post |].
  intros k Hk.
  apply keeps_bind;
    [apply reached_write; revert Hk; apply area_join2; reflexivity | intros _].
  apply keeps_bind;
    [apply reached_mkdir; intros k'; apply area_join; reflexivity | intros _].
  apply (keeps_bind_post P
           (fun k => resolve E (joinpath (joinpath d "src") "Makefile")
                     = Some k));
    [apply reached_open_w; intros k'; apply area_join2; reflexivity
    | apply open_w_post |].
  intros k' Hk'.
  apply keeps_bind;
    [apply reached_write; revert Hk'; apply area_join2; reflexivity | intros _].
  apply reached_mkdir; intros k''; apply area_join; reflexivity.
Qed.

(** The keys of the template files are in [area]. *)
Let area_templates : Prop :=
  forall entries ts t k,
    template_dir E = Some entries ->
    read_entries entries [] = Ok ts ->
    In t ts ->
    resolve E (joinpath (joinpath d "deploy") (fst t)) = Some k ->
    area k.

Lemma reached_artifacts c cmd : area_templates -> keeps P (artifacts E c d cmd).
Proof.
  intros area_tpl. unfold artifacts.
  apply (keeps_bind_post P
           (fun k => resolve E (joinpath d "deploy.sh") = Some k));
    [apply reached_open_w; intros k; apply area_join; reflexivity
    | apply open_w_post |].
  intros k Hk.
  apply keeps_bind;
    [apply reached_write; revert Hk; apply area_join; reflexivity | intros _].
  apply (keeps_bind_post P
           (fun ts => exists entries,
                template_dir E = Some entries /\
                read_entries entries [] = Ok ts));
    [apply reached_read_templates | apply read_templates_post |].
  intros ts (entries & He & Hts).
  apply keeps_bind.
  - destruct (ports c); [apply keeps_raise | apply keeps_ret].
  - intros port. apply keeps_for_each_in. intros t Ht.
    apply reached_write_template. intros k'.
    exact (area_tpl entries ts t k' He Hts Ht).
Qed.

Lemma reached_deploy c cmd : area_templates -> keeps P (deploy E c d cmd).
Proof.
  intros area_tpl. rewrite deploy_eq.
  apply keeps_bind;
    [apply reached_mkdir; intros k; apply area_join; reflexivity | intros _].
  apply reached_artifacts, area_tpl.
Qed.

Lemma reached_populate c :
  (remote c <> None -> area_templates) -> keeps P (populate E c d).
Proof.
  intros area_tpl. unfold populate.
  apply (keeps_bind_post P
           (fun k => resolve E (joinpath d "chal.json") = Some k));
    [apply reached_open_w; intros k; apply area_join; reflexivity
    | apply open_w_post |].
  intros k Hk.
  apply keeps_bind;
    [apply reached_write; revert Hk; apply area_join; reflexivity | intros _].
  apply keeps_bind;
    [destruct (remote c);
       [apply reached_deploy, area_tpl; discriminate | apply keeps_ret]
    | intros _].
  apply reached_stubs.
Qed.
End InDirectory.

Lemma scaffold_eq E c cld :
  scaffold E c cld =
  (e <- path_exists E cld ;;
   (if e then ret tt else mkdir_parents E cld) ;;;
   e' <- path_exists E (joinpath cld (name c)) ;;
   (if e' then ret tt else mkdir E (joinpath cld (name c))) ;;;
   populate E c (joinpath cld (name c))).
Proof. reflexivity. Qed.

Lemma reached_scaffold E c cld :
  (forall kc j, resolve E cld = Some kc -> j `prefix_of` kc -> area j) ->
  (forall kd k, resolve E (joinpath cld (name c)) = Some kd ->
                kd `prefix_of` k -> area k) ->
  (remote c <> None ->
   forall entries ts t k,
     template_dir E = Some entries ->
     read_entries entries [] = Ok ts ->
     In t ts ->
     resolve E (joinpath (joinpath (joinpath cld (name c)) "deploy") (fst t))
     = Some k ->
     area k) ->
  keeps P (scaffold E c cld).
Proof.
  intros Hcld Hdir Htpl. rewrite scaffold_eq.
  apply keeps_bind; [apply reached_path_exists | intros e].
  apply keeps_bind;
    [destruct e; [apply keeps_ret | apply reached_mkdir_parents, Hcld]
    | intros _].
  apply keeps_bind; [apply reached_path_exists | intros e'].
  apply keeps_bind.
  - destruct e'; [apply keeps_ret |]. apply reached_mkdir.
    intros k Hk. apply (Hdir k k Hk). reflexivity.
  - intros _. apply reached_populate; assumption.
Qed.
End Footprint.

Lemma reached_create_challenge m0 E c :
  keeps (reached any_key m0) (create_challenge E c).
Proof.
  intros w H. rewrite create_challenge_eq.
  assert (Hs : forall cld, keeps (reached any_key m0) (scaffold E c cld)).
  { intros cld. apply reached_scaffold; intros; exact I. }
  destruct (target c) as [t|]; [apply Hs, H |].
  rewrite get_repo_eq.
  destruct (search_up (files w) (rev (cwd E))) as [k|]; [| exact H].
  apply Hs. exact H.
Qed.

Lemma run_reached E c fs :
  rtc (alters any_key) fs (files (fst (run (create_challenge E c) fs))).
Proof.
  apply (reached_create_challenge fs E c {| files := fs; trace := [] |}).
  apply rtc_refl.
Qed.

(** *** What a sequence of changes keeps *)

Lemma change_shape area m m' k n :
  alters area m m' -> m !! k = Some n -> shape (m' !! k) = shape (Some n).
Proof.
  intros Hc Hk. destruct Hc as [m j _ _ Hj _|m j _ _ Hj _|m j old new _ Hj];
    (destruct (decide (j = k)) as [->|Hne];
     [| rewrite lookup_insert_ne by exact Hne; rewrite Hk; reflexivity]).
  - congruence.
  - congruence.
  - rewrite lookup_insert_eq. rewrite Hj in Hk. inversion Hk. reflexivity.
Qed.

Lemma changes_shape area m m' :
  rtc (alters area) m m' ->
  forall k n, m !! k = Some n -> shape (m' !! k) = shape (Some n).
Proof.
  induction 1 as [m|m m1 m' Hc _ IH]; intros k n Hk.
  - rewrite Hk. reflexivity.
  - pose proof (change_shape _ _ _ k n Hc Hk) as H1.
    destruct (m1 !! k) as [n1|] eqn:Hk1; [| destruct n; discriminate H1].
    rewrite (IH k n1 Hk1). exact H1.
Qed.

Lemma changes_outside area m m' :
  rtc (alters area) m m' -> forall k, ~ area k -> m' !! k = m !! k.
Proof.
  induction 1 as [m|m m1 m' Hc _ IH]; intros k Hk; [reflexivity |].
  rewrite (IH k Hk).
  destruct Hc as [m j Hj _ _ _|m j Hj _ _ _|m j old new Hj _];
    apply lookup_insert_ne; intros ->; exact (Hk Hj).
Qed.

Lemma parent_neq (k : key) : k <> [] -> parent k <> k.
Proof.
  intros Hne Heq. unfold parent in Heq.
  rewrite (app_removelast_last "" Hne) in Heq at 2.
  rewrite <- (app_nil_r (removelast k)) in Heq at 1.
  apply app_inv_head in Heq. discriminate Heq.
Qed.

Lemma well_formed_insert (m : fsmap) k n :
  well_formed m ->
  k <> [] ->
  stat m (parent k) = Some Dir ->
  (forall k', k' <> k -> m !! k' <> None -> parent k' <> k) ->
  well_formed (<[k := n]> m).
Proof.
  intros Hwf Hne Hp Hchild k' n' Hk'.
  destruct (decide (k' = k)) as [->|Hkk].
  - rewrite stat_insert_ne by (apply not_eq_sym, parent_neq, Hne). exact Hp.
  - rewrite lookup_insert_ne in Hk' by (apply not_eq_sym, Hkk).
    rewrite stat_insert_ne.
    + exact (Hwf k' n' Hk').
    + apply not_eq_sym, Hchild; [exact Hkk | congruence].
Qed.

Lemma change_well_formed area m m' :
  alters area m m' -> well_formed m -> well_formed m'.
Proof.
  intros Hc Hwf.
  destruct Hc as [m j _ Hne Hj Hp|m j _ Hne Hj Hp|m j old new _ Hj].
  - apply well_formed_insert; try assumption.
    intros k' _ Hk' Heq. destruct (m !! k') as [n'|] eqn:Hn; [| congruence].
    pose proof (Hwf k' n' Hn) as Hd. rewrite Heq in Hd.
    rewrite stat_lookup in Hd by exact Hne. congruence.
  - apply well_formed_insert; try assumption.
    intros k' _ Hk' Heq. destruct (m !! k') as [n'|] eqn:Hn; [| congruence].
    pose proof (Hwf k' n' Hn) as Hd. rewrite Heq in Hd.
    rewrite stat_lookup in Hd by exact Hne. congruence.
  - destruct (decide (j = [])) as [->|Hne].
    + intros k' n' Hk'.
      destruct (decide (k' = [])) as [->|Hk0]; [reflexivity |].
      rewrite lookup_insert_ne in Hk' by (apply not_eq_sym, Hk0).
      pose proof (Hwf k' n' Hk') as Hd.
      destruct (parent k') eqn:Hpk; [reflexivity |].
      simpl. rewrite lookup_insert_ne by discriminate. exact Hd.
    + apply well_formed_insert; try assumption.
      * exact (Hwf j _ Hj).
      * intros k' _ Hk' Heq.
        destruct (m !! k') as [n'|] eqn:Hn; [| congruence].
        pose proof (Hwf k' n' Hn) as Hd. rewrite Heq in Hd.
        rewrite stat_lookup in Hd by exact Hne. congruence.
Qed.

Lemma changes_well_formed area m m' :
  rtc (alters area) m m' -> well_formed m -> well_formed m'.
Proof.
  induction 1 as [m|m m1 m' Hc _ IH]; intros Hwf; [exact Hwf |].
  apply IH. exact (change_well_formed _ _ _ Hc Hwf).
Qed.


Lemma dict_set_keys {V} n (v : V) d t :
  In t (dict_set n v d) -> fst t = n \/ In (fst t) (List.map fst d).
Proof.
  induction d as [|[k' v'] r IH]; simpl.
  - intros [<-|[]]. left. reflexivity.
  - destruct (String.eqb n k') eqn:He.
    + intros [<-|Hin]; [left; reflexivity |].
      right. right. apply in_map. exact Hin.
    + intros [<-|Hin]; [right; left; reflexivity |].
      destruct (IH Hin) as [H|H]; [left; exact H | right; right; exact H].
Qed.

Lemma read_entries_names entries acc ts t :
  read_entries entries acc = Ok ts ->
  In t ts ->
  In (fst t) (List.map fst acc) \/ In (fst t) (List.map fst entries).
Proof.
  revert acc. induction entries as [|[n [|text]] r IH]; intros acc H Hin.
  - inversion H. subst ts. left. apply in_map. exact Hin.
  - discriminate H.
  - simpl in H. destruct (IH _ H Hin) as [Ha|Hr].
    + apply in_map_iff in Ha as (t' & Heq & Ht').
      apply dict_set_keys in Ht' as [Hn|Hacc].
      * right. left. simpl. congruence.
      * left. rewrite <- Heq. exact Hacc.
    + right. right. exact Hr.
Qed.

Lemma relative_template E ts entries t :
  relative_names E ->
  template_dir E = Some entries ->
  read_entries entries [] = Ok ts ->
  In t ts ->
  starts_with_slash (fst t) = false.
Proof.
  intros Hrel He Hts Ht.
  destruct (read_entries_names entries [] ts t Hts Ht) as [[]|Hin].
  apply in_map_iff in Hin as (e & Heq & Hin).
  pose proof (Hrel entries He) as Hall.
  rewrite List.Forall_forall in Hall. rewrite <- Heq. exact (Hall e Hin).
Qed.

Lemma scaffold_within E c cld kc kd fs :
  resolve E cld = Some kc ->
  resolve E (joinpath cld (name c)) = Some kd ->
  relative_names E ->
  keeps (reached (within kc kd) fs) (scaffold E c cld).
Proof.
  intros Hc Hd Hrel. apply reached_scaffold.
  - intros kc' j Hc' Hj. left. congruence.
  - intros kd' k Hd' Hk. right. congruence.
  - intros _ entries ts t k He Hts Ht Hk. right.
    apply resolve_join_inv in Hk as (k1 & H1 & Hpre1);
      [| exact (relative_template E ts entries t Hrel He Hts Ht)].
    apply resolve_join_inv in H1 as (kd' & Hd' & Hpre); [| reflexivity].
    replace kd with kd' by congruence. etransitivity; eassumption.
Qed.

(** X1: every entry there before a run is there after it, whether the run
    succeeds or fails: a directory is still a directory, a regular
    file still a regular file. *)
Theorem entries_are_kept E c fs k n :
  fs !! k = Some n ->
  shape (files (fst (run (create_challenge E c) fs)) !! k) = shape (Some n).
Proof.
  intros Hk. exact (changes_shape _ _ _ (run_reached E c fs) k n Hk).
Qed.

(** X2: a run, whether it succeeds or fails, changes no entry but those of
    the category directory and the directories above it (which it may
    create) and those inside the challenge directory. *)
Theorem rest_of_file_system_untouched E c fs cld kc kd k :
  category_dir E c fs = Some cld ->
  resolve E cld = Some kc ->
  resolve E (joinpath cld (name c)) = Some kd ->
  relative_names E ->
  ~ k `prefix_of` kc ->
  ~ kd `prefix_of` k ->
  files (fst (run (create_challenge E c) fs)) !! k = fs !! k.
Proof.
  intros Hcat Hc Hd Hrel Hkc Hkd.
  destruct (run_create_challenge E c fs cld Hcat) as (tr & ->).
  apply (changes_outside (within kc kd)).
  - apply (scaffold_within E c cld kc kd fs Hc Hd Hrel
             {| files := fs; trace := tr |}).
    apply rtc_refl.
  - intros [H|H]; [exact (Hkc H) | exact (Hkd H)].
Qed.

(** X3: a run keeps the file system well formed, whether it succeeds or
    fails: no entry is ever left without a directory for parent. *)
Theorem well_formed_is_kept E c fs :
  well_formed fs ->
  well_formed (files (fst (run (create_challenge E c) fs))).
Proof. apply changes_well_formed with (area := any_key), run_reached. Qed.


Lemma entries_are_kept_witness :
  shape (files (fst (run (create_challenge example_env example_challenge)
                       existing_fs))
           !! ["tmp"; "out"; "stack1"; "chal.json"])
  = shape (Some (File "old")).
Proof.
  apply (entries_are_kept example_env example_challenge existing_fs).
  vm_compute. reflexivity.
Defined.

Lemma relative_names_example : relative_names example_env.
Proof.
  intros entries H. inversion H. constructor; [reflexivity | constructor].
Qed.

Lemma rest_of_file_system_untouched_witness :
  files (fst (run (create_challenge example_env example_remote) shared_fs))
    !! ["tmp"; "out"; "heap2"; "chal.json"]
  = shared_fs !! ["tmp"; "out"; "heap2"; "chal.json"].
Proof.
  apply (rest_of_file_system_untouched example_env example_remote shared_fs
           (Path_of "/tmp/out") ["tmp"; "out"] ["tmp"; "out"; "stack1"]).
  - reflexivity.
  - reflexivity.
  - reflexivity.
  - apply relative_names_example.
  - intros H. apply prefix_length in H. simpl in H. lia.
  - intros [x H]. discriminate H.
Defined.

Lemma well_formed_is_kept_witness :
  well_formed
    (files (fst (run (create_challenge example_env example_remote) empty_fs))).
Proof.
  apply (well_formed_is_kept example_env example_remote empty_fs).
  intros k n H. unfold empty_fs in H. rewrite lookup_empty in H.
  discriminate H.
Defined.

(** *** The states a successful run goes through *)

Lemma moved {A} (m : M A) fs0 w :
  keeps (reached any_key fs0) m ->
  rtc (alters any_key) fs0 (files w) ->
  rtc (alters any_key) fs0 (files (fst (m w))).
Proof. intros Hm H. exact (Hm w H). Qed.

Lemma changes_present m m' k :
  rtc (alters any_key) m m' ->
  present (stat m k) = true -> present (stat m' k) = true.
Proof.
  intros Hc. destruct k as [|x k']; [reflexivity |]. simpl.
  destruct (m !! (x :: k')) as [n|] eqn:Hk; [| discriminate].
  intros _. pose proof (changes_shape _ _ _ Hc _ _ Hk) as Hs.
  destruct (m' !! (x :: k')); [reflexivity | destruct n; discriminate Hs].
Qed.

Lemma changes_absent m m' k :
  rtc (alters any_key) m m' -> m' !! k = None -> m !! k = None.
Proof.
  intros Hc Hk. destruct (m !! k) as [n|] eqn:Hm; [| reflexivity].
  pose proof (changes_shape _ _ _ Hc _ _ Hm) as Hs. rewrite Hk in Hs.
  destruct n; discriminate Hs.
Qed.

Lemma mkdir_parents_from_ok_inv ok rk w w' u :
  mkdir_parents_from ok rk w = (w', Ok u) ->
  stat (files w') (rev rk) = Some Dir.
Proof.
  assert (Hx : forall ok k w e w' u,
             except_exist_ok ok k w e = (w', Ok u) ->
             stat (files w') k = Some Dir).
  { intros ok0 k w0 e w0' u0. unfold except_exist_ok.
    destruct ok0; [| discriminate]. simpl.
    destruct (stat (files w0) k) as [[|s]|] eqn:Hs; try discriminate.
    intros H. inversion H. subst w0'. exact Hs. }
  assert (Hm : forall k w w' u,
             os_mkdir k w = (w', Ok u) -> stat (files w') k = Some Dir).
  { intros k w0 w0' u0 H. apply os_mkdir_ok_inv in H as (Hne & _ & _ & ->).
    simpl. rewrite stat_lookup by exact Hne. apply lookup_insert_eq. }
  rewrite mkdir_parents_from_eq.
  destruct (os_mkdir (rev rk) w) as [w1 [u1|e]] eqn:H1.
  - intros H. inversion H. subst w'. exact (Hm _ _ _ _ H1).
  - destruct e; try apply Hx.
    destruct rk as [|x rp]; [discriminate |].
    destruct (mkdir_parents_from true rp w1) as [w2 [u2|e2]]; [| discriminate].
    destruct (os_mkdir (rev (x :: rp)) w2) as [w3 [u3|e3]] eqn:H3.
    + intros H. inversion H. subst w'. exact (Hm _ _ _ _ H3).
    + apply Hx.
Qed.

Lemma mkdir_parents_ok_inv E p w w' u :
  mkdir_parents E p w = (w', Ok u) ->
  exists k, resolve E p = Some k /\ stat (files w') k = Some Dir.
Proof.
  unfold mkdir_parents. intros H. apply bind_ok_inv in H as (k & w1 & H1 & H).
  apply resolved_ok_inv in H1 as [Hr ->].
  apply mkdir_parents_from_ok_inv in H. rewrite rev_involutive in H.
  exists k. auto.
Qed.

(** A run of [scaffold] that succeeds: the category directory and the
    challenge directory are there when [chal.json] is opened; then come
    the deploy artifacts, if any, and the stubs. *)
Lemma scaffold_ok_states E c cld w w' :
  scaffold E c cld w = (w', Ok tt) ->
  exists kc kd kj w1 w2,
    resolve E cld = Some kc /\
    resolve E (joinpath cld (name c)) = Some kd /\
    resolve E (joinpath (joinpath cld (name c)) "chal.json") = Some kj /\
    rtc (alters any_key) (files w) (files w1) /\
    present (stat (files w1) kc) = true /\
    present (stat (files w1) kd) = true /\
    files w2 = <[kj := File (dumps (to_dict c))]> (files w1) /\
    (bind match remote c with
          | Some cmd => deploy E c (joinpath cld (name c)) cmd
          | None => ret tt
          end
       (fun _ => stubs E c (joinpath cld (name c)))) w2 = (w', Ok tt).
Proof.
  rewrite scaffold_eq. intros H.
  apply bind_ok_inv in H as (e1 & w1 & H1 & H).
  apply path_exists_ok_inv in H1 as (kc & Hkc & -> & He1).
  apply bind_ok_inv in H as (u1 & w2 & H2 & H).
  apply bind_ok_inv in H as (e2 & w3 & H3 & H).
  apply path_exists_ok_inv in H3 as (kd & Hkd & -> & He2).
  apply bind_ok_inv in H as (u2 & w4 & H4 & H).
  unfold populate in H.
  apply bind_ok_inv in H as (f & w5 & H5 & H).
  apply bind_ok_inv in H as (u3 & w6 & H6 & H).
  destruct (open_write_ok_inv _ _ _ _ _ _ _ _ H5 H6) as (Hkj & _ & Hw6).
  exists kc, kd, f, w4, w6.
  assert (R2 : rtc (alters any_key) (files w) (files w2)).
  { destruct e1.
    - inversion H2. apply rtc_refl.
    - replace w2 with (fst (mkdir_parents E cld w))
        by (rewrite H2; reflexivity).
      apply moved; [| apply rtc_refl].
      apply reached_mkdir_parents. intros; exact I. }
  assert (R4 : rtc (alters any_key) (files w2) (files w4)).
  { destruct e2.
    - inversion H4. apply rtc_refl.
    - replace w4 with (fst (mkdir E (joinpath cld (name c)) w2))
        by (rewrite H4; reflexivity).
      apply moved; [| apply rtc_refl].
      apply reached_mkdir. intros; exact I. }
  assert (P2 : present (stat (files w2) kc) = true).
  { destruct e1.
    - inversion H2. subst w2. symmetry. exact He1.
    - apply mkdir_parents_ok_inv in H2 as (k & Hk & Hdir).
      replace kc with k by congruence. rewrite Hdir. reflexivity. }
  assert (P4 : present (stat (files w4) kd) = true).
  { destruct e2.
    - inversion H4. subst w4. symmetry. exact He2.
    - apply mkdir_ok_inv in H4 as (k & Hk & Hne & _ & _ & ->).
      replace kd with k by congruence. simpl.
      rewrite stat_lookup by exact Hne. rewrite lookup_insert_eq. reflexivity. }
  split; [exact Hkc |]. split; [exact Hkd |]. split; [exact Hkj |].
  split; [etransitivity; eassumption |].
  split; [exact (changes_present _ _ _ R4 P2) |].
  split; [exact P4 |].
  split; [rewrite Hw6; reflexivity |].
  destruct u3. exact H.
Qed.

Lemma moves_artifacts E c d cmd w :
  rtc (alters any_key) (files w) (files (fst (artifacts E c d cmd w))).
Proof.
  apply moved; [| apply rtc_refl].
  apply reached_artifacts; intros; exact I.
Qed.

Lemma moves_stubs E c d w :
  rtc (alters any_key) (files w) (files (fst (stubs E c d w))).
Proof.
  apply moved; [| apply rtc_refl].
  apply reached_stubs; intros; exact I.
Qed.

Lemma moves_deploy E c d cmd w :
  rtc (alters any_key) (files w) (files (fst (deploy E c d cmd w))).
Proof.
  apply moved; [| apply rtc_refl].
  apply reached_deploy; intros; exact I.
Qed.

Lemma changes_present_at m m' k :
  rtc (alters any_key) m m' ->
  present (m !! k) = true -> present (m' !! k) = true.
Proof.
  intros Hc. destruct (m !! k) as [n|] eqn:Hk; [| discriminate].
  intros _. pose proof (changes_shape _ _ _ Hc _ _ Hk) as Hs.
  destruct (m' !! k); [reflexivity | destruct n; discriminate Hs].
Qed.

Lemma deploy_ok_inv E c d kd cmd w w' :
  resolve E d = Some kd ->
  deploy E c d cmd w = (w', Ok tt) ->
  files w !! (kd ++ ["deploy"]) = None /\
  present (files w' !! (kd ++ ["deploy"])) = true /\
  rtc (alters any_key) (files w) (files w').
Proof.
  intros Hd H.
  pose proof (moves_deploy E c d cmd w) as Hall. rewrite H in Hall.
  rewrite deploy_eq in H.
  apply bind_ok_inv in H as (u & w1 & H1 & H).
  apply mkdir_ok_inv in H1 as (k & Hk & _ & Hnone & _ & ->).
  rewrite (resolve_join E d kd "deploy" Hd eq_refl eq_refl) in Hk.
  inversion Hk. subst k. split; [exact Hnone |]. split; [| exact Hall].
  pose proof (moves_artifacts E c d cmd
                {| files := <[kd ++ ["deploy"] := Dir]> (files w);
                   trace := trace w ++ [Mkdir (kd ++ ["deploy"])] |}) as Hm.
  rewrite H in Hm. cbn [fst files] in Hm.
  apply (changes_present_at _ _ _ Hm). rewrite lookup_insert_eq. reflexivity.
Qed.

Lemma stubs_files_solve c kd m :
  stubs_files c kd m !! (kd ++ ["solve"]) = Some Dir.
Proof.
  unfold stubs_files. rewrite !lookup_insert_ne by key_neq.
  apply lookup_insert_eq.
Qed.

Lemma present_insert (m : fsmap) k n k' :
  present (stat m k') = true -> present (stat (<[k := n]> m) k') = true.
Proof.
  destruct k' as [|x r]; [reflexivity |]. simpl.
  destruct (decide (k = x :: r)) as [->|Hne].
  - rewrite lookup_insert_eq. reflexivity.
  - rewrite lookup_insert_ne by exact Hne. tauto.
Qed.

(** What a run that succeeds leaves behind, and where it found
    room. *)
Lemma scaffold_ok_facts E c cld w w' :
  scaffold E c cld w = (w', Ok tt) ->
  exists kc kd,
    resolve E cld = Some kc /\
    resolve E (joinpath cld (name c)) = Some kd /\
    present (stat (files w') kc) = true /\
    present (stat (files w') kd) = true /\
    is_file (files w' !! (kd ++ ["chal.json"])) = true /\
    present (files w' !! (kd ++ ["solve"])) = true /\
    (remote c <> None -> present (files w' !! (kd ++ ["deploy"])) = true) /\
    files w !! (kd ++ ["solve"]) = None /\
    files w !! (kd ++ ["src"]) = None /\
    files w !! (kd ++ ["dist"]) = None /\
    (remote c <> None -> files w !! (kd ++ ["deploy"]) = None).
Proof.
  intros H.
  apply scaffold_ok_states in H
    as (kc & kd & kj & w1 & w2 & Hkc & Hkd & Hkj & R1 & Pc & Pd & Hw2 & H).
  rewrite (resolve_join E _ kd "chal.json" Hkd eq_refl eq_refl) in Hkj.
  inversion Hkj. subst kj. clear Hkj.
  apply bind_ok_inv in H as (u & w3 & Hdep & Hst). destruct u.
  destruct (stubs_ok_inv _ _ _ _ _ _ _ Hkd Hst) as (_ & N1 & N2 & N3 & Hw').
  pose proof (moves_stubs E c (joinpath cld (name c)) w3) as R3.
  rewrite Hst in R3. cbn [fst] in R3.
  assert (R2 : rtc (alters any_key) (files w2) (files w3) /\
               (remote c <> None ->
                files w2 !! (kd ++ ["deploy"]) = None /\
                present (files w3 !! (kd ++ ["deploy"])) = true)).
  { destruct (remote c) as [cmd|].
    - apply (deploy_ok_inv _ _ _ _ _ _ _ Hkd) in Hdep as (Hn & Hp & Hr).
      auto.
    - inversion Hdep. split; [apply rtc_refl | congruence]. }
  destruct R2 as [R2 Hdeploy].
  assert (Hback : forall k, k <> kd ++ ["chal.json"] ->
                            files w3 !! k = None -> files w !! k = None).
  { intros k Hne Hk. apply (changes_absent _ _ _ R1).
    apply (changes_absent _ _ _ R2) in Hk. rewrite Hw2 in Hk.
    apply lookup_none_insert_inv in Hk. tauto. }
  exists kc, kd.
  split; [exact Hkc |]. split; [exact Hkd |].
  split.
  { apply (changes_present _ _ _ R3), (changes_present _ _ _ R2).
    rewrite Hw2. apply present_insert, Pc. }
  split.
  { apply (changes_present _ _ _ R3), (changes_present _ _ _ R2).
    rewrite Hw2. apply present_insert, Pd. }
  split.
  { assert (Hj : files w2 !! (kd ++ ["chal.json"])
                 = Some (File (dumps (to_dict c)))).
    { rewrite Hw2. apply lookup_insert_eq. }
    assert (R23 : rtc (alters any_key) (files w2) (files w'))
      by (etransitivity; eassumption).
    pose proof (changes_shape _ _ _ R23 _ _ Hj) as Hs.
    destruct (files w' !! (kd ++ ["chal.json"])) as [[|s]|];
      [discriminate Hs | reflexivity | discriminate Hs]. }
  split.
  { rewrite Hw'. cbn [files]. rewrite stubs_files_solve. reflexivity. }
  split.
  { intros Hrem. apply (changes_present_at _ _ _ R3).
    apply Hdeploy, Hrem. }
  split; [apply Hback; [key_neq | exact N1] |].
  split; [apply Hback; [key_neq | exact N2] |].
  split; [apply Hback; [key_neq | exact N3] |].
  intros Hrem. apply (changes_absent _ _ _ R1).
  destruct (Hdeploy Hrem) as [Hn _]. rewrite Hw2 in Hn.
  apply lookup_none_insert_inv in Hn. tauto.
Qed.

Lemma create_challenge_ok_scaffold E c fs w' :
  run (create_challenge E c) fs = (w', Ok tt) ->
  exists cld tr,
    category_dir E c fs = Some cld /\
    scaffold E c cld {| files := fs; trace := tr |} = (w', Ok tt).
Proof.
  unfold run, category_dir. rewrite create_challenge_eq.
  destruct (target c) as [t|].
  - intros H. exists (Path_of t), []. auto.
  - rewrite get_repo_eq. cbn [files trace].
    destruct (search_up fs (rev (cwd E))) as [k|]; [| discriminate].
    intros H. eexists _, _. split; [reflexivity | exact H].
Qed.

Lemma mkdir_exists E p k w :
  resolve E p = Some k ->
  present (stat (files w) k) = true ->
  snd (mkdir E p w) = Raise FileExistsError.
Proof.
  intros Hr Hp. unfold mkdir, resolved. rewrite Hr.
  unfold bind, ret. rewrite os_mkdir_eq. cbn zeta.
  destruct (stat (files w) k); [reflexivity | discriminate Hp].
Qed.

Lemma bind_snd_raise {A B} (m : M A) (f : A -> M B) w e :
  snd (m w) = Raise e -> snd (bind m f w) = Raise e.
Proof.
  unfold bind. destruct (m w) as [w1 [a|e']]; simpl; [discriminate |].
  intros H. inversion H. reflexivity.
Qed.

(** In a challenge directory that already has its [chal.json] and its
    [solve] (and its [deploy], with a remote command), the run
    overwrites [chal.json] and stops at the first [mkdir]. *)
Lemma scaffold_again E c cld kc kd w :
  resolve E cld = Some kc ->
  resolve E (joinpath cld (name c)) = Some kd ->
  present (stat (files w) kc) = true ->
  present (stat (files w) kd) = true ->
  is_file (files w !! (kd ++ ["chal.json"])) = true ->
  present (files w !! (kd ++ ["solve"])) = true ->
  (remote c <> None -> present (files w !! (kd ++ ["deploy"])) = true) ->
  snd (scaffold E c cld w) = Raise FileExistsError.
Proof.
  intros Hkc Hkd Pc Pd Fj Ps Pdep. rewrite scaffold_eq.
  set (d := joinpath cld (name c)) in *.
  rewrite (bind_eq _ _ _ _ _ (path_exists_eq E cld kc w Hkc)), Pc.
  erewrite (bind_eq (ret tt)) by reflexivity.
  rewrite (bind_eq _ _ _ _ _ (path_exists_eq E d kd w Hkd)), Pd.
  erewrite (bind_eq (ret tt)) by reflexivity.
  unfold populate.
  pose proof (resolve_join E d kd "chal.json" Hkd eq_refl eq_refl) as Rj.
  assert (Hopen : open_w E (joinpath d "chal.json") w
                  = ({| files := <[kd ++ ["chal.json"] := File ""]> (files w);
                        trace := trace w ++ [OpenW (kd ++ ["chal.json"])] |},
                     Ok (kd ++ ["chal.json"]))).
  { rewrite open_w_eq, Rj. cbn zeta.
    rewrite stat_lookup by apply snoc_not_nil.
    destruct (files w !! (kd ++ ["chal.json"])) as [[|s]|];
      [discriminate Fj | reflexivity | discriminate Fj]. }
  rewrite (bind_eq _ _ _ _ _ Hopen).
  set (w1 := {| files := <[kd ++ ["chal.json"] := File ""]> (files w);
                trace := trace w ++ [OpenW (kd ++ ["chal.json"])] |}).
  assert (Hwrite : exists w2,
             write (kd ++ ["chal.json"]) (dumps (to_dict c)) w1 = (w2, Ok tt) /\
             files w2 = <[kd ++ ["chal.json"] := File (dumps (to_dict c))]>
                          (files w)).
  { rewrite write_eq. cbn zeta. subst w1. cbn [files trace].
    rewrite lookup_insert_eq. eexists. split; [reflexivity |].
    cbn [files]. rewrite insert_insert_eq. reflexivity. }
  destruct Hwrite as (w2 & Hwrite & Hw2).
  rewrite (bind_eq _ _ _ _ _ Hwrite).
  assert (Hkeep : forall k, present (files w !! k) = true ->
                            k <> [] ->
                            present (stat (files w2) k) = true).
  { intros k Hk Hne. rewrite Hw2. apply present_insert.
    rewrite stat_lookup by exact Hne. exact Hk. }
  destruct (remote c) as [cmd|].
  - apply bind_snd_raise. rewrite deploy_eq. apply bind_snd_raise.
    apply (mkdir_exists E _ (kd ++ ["deploy"])).
    + apply (resolve_join E d kd "deploy" Hkd eq_refl eq_refl).
    + apply Hkeep; [apply Pdep; discriminate | apply snoc_not_nil].
  - erewrite (bind_eq (ret tt)) by reflexivity.
    unfold stubs. apply bind_snd_raise.
    apply (mkdir_exists E _ (kd ++ ["solve"])).
    + apply (resolve_join E d kd "solve" Hkd eq_refl eq_refl).
    + apply Hkeep; [exact Ps | apply snoc_not_nil].
Qed.

(** X4: a run succeeds only where the challenge directory has no [solve],
    [src] or [dist] entry yet, and no [deploy] entry when a remote
    command is given: these are always made by the run itself. *)
Theorem success_needs_room E c fs w' :
  run (create_challenge E c) fs = (w', Ok tt) ->
  exists kd,
    challenge_key E c fs = Some kd /\
    fs !! (kd ++ ["solve"]) = None /\
    fs !! (kd ++ ["src"]) = None /\
    fs !! (kd ++ ["dist"]) = None /\
    (remote c <> None -> fs !! (kd ++ ["deploy"]) = None).
Proof.
  intros H. apply create_challenge_ok_scaffold in H as (cld & tr & Hcat & H).
  apply scaffold_ok_facts in H
    as (kc & kd & _ & Hkd & _ & _ & _ & _ & _ & N1 & N2 & N3 & N4).
  exists kd. unfold challenge_key, challenge_dir. rewrite Hcat.
  auto.
Qed.

(** X5: after a run that succeeded, running the same command again always
    fails with [FileExistsError]: the run is not repeatable. *)
Theorem second_run_raises_file_exists E c fs w' :
  run (create_challenge E c) fs = (w', Ok tt) ->
  category_dir E c (files w') = category_dir E c fs ->
  snd (run (create_challenge E c) (files w')) = Raise FileExistsError.
Proof.
  intros H Hsame.
  apply create_challenge_ok_scaffold in H as (cld & tr & Hcat & H).
  rewrite Hcat in Hsame.
  destruct (run_create_challenge E c (files w') cld Hsame) as (tr' & ->).
  apply scaffold_ok_facts in H
    as (kc & kd & Hkc & Hkd & Pc & Pd & Fj & Ps & Pdep & _).
  exact (scaffold_again E c cld kc kd {| files := files w'; trace := tr' |}
           Hkc Hkd Pc Pd Fj Ps Pdep).
Qed.

Lemma success_needs_room_witness :
  exists kd,
    challenge_key example_env example_remote empty_fs = Some kd /\
    empty_fs !! (kd ++ ["solve"]) = None /\
    empty_fs !! (kd ++ ["src"]) = None /\
    empty_fs !! (kd ++ ["dist"]) = None /\
    (remote example_remote <> None -> empty_fs !! (kd ++ ["deploy"]) = None).
Proof.
  apply (success_needs_room example_env example_remote empty_fs
           (fst (run (create_challenge example_env example_remote) empty_fs))).
  vm_compute. reflexivity.
Defined.

Lemma second_run_raises_file_exists_witness :
  snd (run (create_challenge example_env example_remote)
         (files (fst (run (create_challenge example_env example_remote)
                        empty_fs))))
  = Raise FileExistsError.
Proof.
  apply (second_run_raises_file_exists example_env example_remote empty_fs
           (fst (run (create_challenge example_env example_remote) empty_fs))).
  - vm_compute. reflexivity.
  - reflexivity.
Defined.

(** ** What reaches nothing but [chal.json] *)

Lemma deploy_same_inputs E c1 c2 d cmd :
  name c1 = name c2 ->
  hd_error (ports c1) = hd_error (ports c2) ->
  deploy E c1 d cmd = deploy E c2 d cmd.
Proof.
  intros Hn Hp. unfold deploy. rewrite Hn.
  destruct (ports c1) as [|p1 r1], (ports c2) as [|p2 r2];
    simpl in Hp; try discriminate Hp; [reflexivity |].
  inversion Hp. reflexivity.
Qed.

Lemma stubs_same_inputs E c1 c2 d :
  name c1 = name c2 -> flag c1 = flag c2 -> stubs E c1 d = stubs E c2 d.
Proof. intros Hn Hf. unfold stubs. rewrite Hn, Hf. reflexivity. Qed.

Lemma related_scaffold_inputs kj E c1 c2 cld :
  name c1 = name c2 ->
  flag c1 = flag c2 ->
  remote c1 = remote c2 ->
  hd_error (ports c1) = hd_error (ports c2) ->
  kj = resolve E (joinpath (joinpath cld (name c1)) "chal.json") ->
  related kj anything (scaffold E c1 cld) (scaffold E c2 cld).
Proof.
  intros Hn Hf Hr Hp Hkj. unfold scaffold. rewrite <- Hn, <- Hr.
  eapply related_bind; [apply related_path_exists | intros e _].
  eapply related_bind with (Q := anything).
  { destruct e; [apply related_ret; exact I | apply related_mkdir_parents]. }
  intros _ _.
  eapply related_bind; [apply related_path_exists | intros e' _].
  eapply related_bind with (Q := anything).
  { destruct e'; [apply related_ret; exact I | apply related_mkdir]. }
  intros _ _.
  eapply related_bind; [apply related_open_w | intros k Hk].
  eapply related_bind with (Q := anything).
  { apply related_write_text. rewrite Hkj. symmetry. exact Hk. }
  intros _ _.
  eapply related_bind with (Q := anything).
  { destruct (remote c1) as [cmd|]; [| apply related_ret; exact I].
    rewrite <- (deploy_same_inputs E c1 c2 _ cmd Hn Hp).
    apply related_deploy. }
  intros _ _.
  pose proof (stubs_same_inputs E c1 c2 (joinpath cld (name c1)) Hn Hf) as Hs.
  unfold stubs in Hs. rewrite <- Hn in Hs. rewrite <- Hs.
  apply (related_stubs kj E c1).
Qed.

(** X6: the author, the description, the difficulty, the provided files,
    the ports after the first and, when a target is given, the type
    reach [chal.json] and nothing else: two challenges that agree on the
    rest end the same way, after the same calls, with the same entry at
    every other path. *)
Theorem metadata_reaches_chal_json_only E c1 c2 fs :
  same_inputs c1 c2 ->
  snd (run (create_challenge E c1) fs)
  = snd (run (create_challenge E c2) fs) /\
  trace (fst (run (create_challenge E c1) fs))
  = trace (fst (run (create_challenge E c2) fs)) /\
  forall k,
    Some k <> chal_json_key E c1 fs ->
    files (fst (run (create_challenge E c1) fs)) !! k
    = files (fst (run (create_challenge E c2) fs)) !! k.
Proof.
  intros (Hn & Hf & Hr & Ht & Hp & Hty).
  unfold run. rewrite !create_challenge_eq.
  unfold chal_json_key, challenge_dir, category_dir. rewrite <- Ht.
  set (w0 := {| files := fs; trace := [] |}).
  destruct (target c1) as [t|].
  - destruct (related_scaffold_inputs _ E c1 c2 (Path_of t) Hn Hf Hr Hp
                eq_refl w0 w0 (sim_refl _ w0)) as ([Htr Hfs] & Hres & _).
    split; [exact Hres |]. split; [exact Htr |].
    intros k Hk. apply Hfs. exact Hk.
  - rewrite get_repo_eq. subst w0. cbn [files trace app].
    rewrite <- (Hty eq_refl).
    destruct (search_up fs (rev (cwd E))) as [kr|].
    + set (w1 := {| files := fs; trace := [RepoLookup] |}).
      destruct (related_scaffold_inputs _ E c1 c2
                  (joinpath {| anchored := true; parts := kr |}
                     (value (type c1)))
                  Hn Hf Hr Hp eq_refl w1 w1 (sim_refl _ w1))
        as ([Htr Hfs] & Hres & _).
      split; [exact Hres |]. split; [exact Htr |].
      intros k Hk. apply Hfs. exact Hk.
    + simpl. auto.
Qed.


Lemma metadata_reaches_chal_json_only_witness :
  snd (run (create_challenge example_env example_challenge) empty_fs)
  = snd (run (create_challenge example_env example_edited) empty_fs) /\
  trace (fst (run (create_challenge example_env example_challenge) empty_fs))
  = trace (fst (run (create_challenge example_env example_edited) empty_fs)) /\
  forall k,
    Some k <> chal_json_key example_env example_challenge empty_fs ->
    files (fst (run (create_challenge example_env example_challenge) empty_fs))
      !! k
    = files (fst (run (create_challenge example_env example_edited) empty_fs))
        !! k.
Proof.
  apply (metadata_reaches_chal_json_only example_env example_challenge
           example_edited empty_fs).
  repeat split. discriminate.
Defined.

(** ** The formatters a template gets *)

Lemma get_field_agree kw all n :
  dict_get n kw = dict_get n all -> get_field n kw = get_field n all.
Proof. intros H. unfold get_field. rewrite H. reflexivity. Qed.

Lemma render_agree kw all p :
  (forall n, In n (fields_of p) -> dict_get n kw = dict_get n all) ->
  render kw p = render all p.
Proof.
  induction p as [| |i rest IH]; intros H; [reflexivity | reflexivity |].
  simpl in *. destruct (markup i) as [f|].
  - rewrite (get_field_agree kw all (field_name f))
      by (apply H; left; reflexivity).
    rewrite IH by (intros n Hn; apply H; right; exact Hn). reflexivity.
  - rewrite IH by exact H. reflexivity.
Qed.

Lemma collect_agree all p acc kw :
  collect all acc p = Ok kw ->
  (forall n v, dict_get n acc = Some v -> dict_get n all = Some v) ->
  forall n,
    In n (fields_of p) \/ dict_get n acc <> None ->
    dict_get n kw = dict_get n all /\ dict_get n all <> None.
Proof.
  revert acc. induction p as [| |i rest IH]; intros acc H Hsub n Hn.
  - inversion H. subst kw. destruct Hn as [[]|Hn].
    destruct (dict_get n acc) as [v|] eqn:Hv; [| congruence].
    rewrite (Hsub n v Hv). split; [reflexivity | discriminate].
  - discriminate H.
  - simpl in H, Hn. destruct (markup i) as [f|].
    + destruct (dict_get (field_name f) all) as [v|] eqn:Hf; [| discriminate H].
      apply (IH _ H).
      * intros n' v' Hn'.
        destruct (decide (field_name f = n')) as [<-|Hne].
        -- rewrite dict_get_set_eq in Hn'. congruence.
        -- rewrite dict_get_set_ne in Hn' by exact Hne. apply Hsub, Hn'.
      * destruct (decide (field_name f = n)) as [<-|Hne].
        -- right. rewrite dict_get_set_eq. discriminate.
        -- rewrite dict_get_set_ne by exact Hne.
           destruct Hn as [[Heq|Hin]|Hacc]; [congruence | auto | auto].
    + apply (IH _ H Hsub). exact Hn.
Qed.

Lemma render_no_key_error kw p k :
  (forall n, In n (fields_of p) -> dict_get n kw <> None) ->
  render kw p <> Raise (KeyError k).
Proof.
  induction p as [| |i rest IH]; intros H; [discriminate | discriminate |].
  simpl in *. destruct (markup i) as [f|].
  - assert (Hf : dict_get (field_name f) kw <> None)
      by (apply H; left; reflexivity).
    assert (Hr : render kw rest <> Raise (KeyError k))
      by (apply IH; intros n Hn; apply H; right; exact Hn).
    unfold get_field.
    destruct (has_char "." (field_name f) || has_char "[" (field_name f));
      [discriminate |].
    destruct (all_digits (field_name f)); [discriminate |].
    destruct (dict_get (field_name f) kw) as [v|]; [| congruence].
    unfold format_value.
    destruct (conversion f) as [cv|].
    + destruct (Ascii.eqb cv "s").
      * destruct (String.eqb (format_spec f) ""); [| discriminate].
        destruct (render kw rest) as [r|e]; [discriminate | congruence].
      * destruct (Ascii.eqb cv "r" || Ascii.eqb cv "a"); discriminate.
    + destruct (String.eqb (format_spec f) ""); [| discriminate].
      destruct (render kw rest) as [r|e]; [discriminate | congruence].
  - assert (Hr : render kw rest <> Raise (KeyError k)) by (apply IH, H).
    destruct (render kw rest) as [r|e]; [discriminate | congruence].
Qed.


Lemma render_covered kw p :
  covered p = true -> render kw p <> Raise Beyond_model.
Proof.
  induction p as [| |i rest IH]; [discriminate | discriminate |].
  cbn [covered render]. destruct (markup i) as [f|].
  - intros H. apply andb_prop in H as [Hf Hrest].
    unfold plain_field in Hf. apply andb_prop in Hf as [Hf Hcv].
    apply andb_prop in Hf as [Hspec Hname]. apply negb_true_iff in Hname.
    specialize (IH Hrest).
    unfold get_field. rewrite Hname.
    destruct (all_digits (field_name f)); [discriminate |].
    destruct (dict_get (field_name f) kw) as [v|]; [| discriminate].
    unfold format_value. rewrite Hspec.
    destruct (conversion f) as [cv|].
    + apply negb_true_iff in Hcv. rewrite Hcv.
      destruct (Ascii.eqb cv "s"); [| discriminate].
      destruct (render kw rest) as [r|e]; [discriminate | congruence].
    + destruct (render kw rest) as [r|e]; [discriminate | congruence].
  - intros H. specialize (IH H).
    destruct (render kw rest) as [r|e]; [discriminate | congruence].
Qed.

(** X7: the dict comprehension hands [format] what it needs: for a template
    whose fields are plain, once the comprehension has gone through,
    [format] with the gathered formatters gives what it would give
    with the whole table, and cannot raise [KeyError]. *)
Theorem gathered_formatters_suffice all text kw :
  covered (parse text) = true ->
  collect all [] (parse text) = Ok kw ->
  format text kw = format text all /\
  (forall k, format text kw <> Raise (KeyError k)) /\
  format text kw <> Raise Beyond_model.
Proof.
  intros Hcov H. unfold format.
  assert (Hag : forall n, In n (fields_of (parse text)) ->
                          dict_get n kw = dict_get n all /\
                          dict_get n all <> None).
  { intros n Hn. apply (collect_agree all (parse text) [] kw H).
    - intros n' v' Hn'. discriminate Hn'.
    - left. exact Hn. }
  split; [| split].
  - apply render_agree. intros n Hn. apply Hag, Hn.
  - intros k. apply render_no_key_error. intros n Hn.
    destruct (Hag n Hn) as [-> Hne]. exact Hne.
  - apply render_covered, Hcov.
Qed.

Lemma gathered_formatters_suffice_witness :
  format "{name}:{port} {name}" [("name", "stack1"); ("port", "1337")]
  = format "{name}:{port} {name}"
      [("name", "stack1"); ("dist_path", "/tmp/out/stack1/dist");
       ("port", "1337")] /\
  (forall k,
      format "{name}:{port} {name}" [("name", "stack1"); ("port", "1337")]
      <> Raise (KeyError k)) /\
  format "{name}:{port} {name}" [("name", "stack1"); ("port", "1337")]
  <> Raise Beyond_model.
Proof.
  apply (gathered_formatters_suffice
           [("name", "stack1"); ("dist_path", "/tmp/out/stack1/dist");
            ("port", "1337")]
           "{name}:{port} {name}" [("name", "stack1"); ("port", "1337")]);
    vm_compute; reflexivity.
Defined.

(** ** How a run can fail *)

Lemma raises_ret {A} al (a : A) : raises al (ret a).
Proof. intros w w' e H. discriminate H. Qed.

Lemma raises_raise {A} (al : exn -> Prop) e : al e -> raises al (@raise A e).
Proof. intros He w w' e' H. inversion H. subst. exact He. Qed.

Lemma raises_bind_post {A B} al (Q : A -> Prop) (m : M A) (f : A -> M B) :
  raises al m ->
  (forall w w' a, m w = (w', Ok a) -> Q a) ->
  (forall a, Q a -> raises al (f a)) ->
  raises al (bind m f).
Proof.
  intros Hm Hq Hf w w' e. unfold bind.
  specialize (Hm w). specialize (Hq w).
  destruct (m w) as [w1 r]. destruct r as [a|e1].
  - apply (Hf a). apply (Hq w1). reflexivity.
  - intros H. inversion H. subst. apply (Hm w'). reflexivity.
Qed.

Lemma raises_bind {A B} al (m : M A) (f : A -> M B) :
  raises al m -> (forall a, raises al (f a)) -> raises al (bind m f).
Proof.
  intros Hm Hf. apply (raises_bind_post al (fun _ => True));
    [exact Hm | intros; exact I | intros a _; apply Hf].
Qed.

Lemma raises_for_each {A} al (f : A -> M unit) l :
  (forall a, raises al (f a)) -> raises al (for_each f l).
Proof.
  intros Hf. induction l as [|x r IH]; simpl.
  - apply raises_ret.
  - apply raises_bind; [apply Hf | intros _; exact IH].
Qed.

Section Failures.
Variable c : Challenge.

Let al : exn -> Prop := expected_failure c.

Lemma raises_resolved E p : raises al (resolved E p).
Proof.
  unfold resolved. destruct (resolve E p);
    [apply raises_ret | apply raises_raise; exact I].
Qed.

Lemma raises_os_mkdir k : raises al (os_mkdir k).
Proof.
  intros w w' e. rewrite os_mkdir_eq. cbn zeta.
  destruct (stat (files w) k); [intros H; inversion H; exact I |].
  destruct (stat (files w) (parent k)) as [[|s]|];
    [discriminate | intros H; inversion H; exact I |].
  destruct (file_above (files w) [] k); intros H; inversion H; exact I.
Qed.

Lemma raises_mkdir E p : raises al (mkdir E p).
Proof.
  unfold mkdir. apply raises_bind; [apply raises_resolved | intros k].
  apply raises_os_mkdir.
Qed.

Lemma raises_path_exists E p : raises al (path_exists E p).
Proof.
  unfold path_exists. apply raises_bind; [apply raises_resolved | intros k].
  apply raises_bind; [intros w w' e H; discriminate H | intros m].
  apply raises_ret.
Qed.

Lemma raises_mkdir_parents_from ok rk : raises al (mkdir_parents_from ok rk).
Proof.
  assert (Hx : forall ok k w e w' e',
             al e -> except_exist_ok ok k w e = (w', Raise e') -> al e').
  { intros ok0 k w e w' e' He. unfold except_exist_ok.
    destruct (ok0 && _); [discriminate |].
    intros H. inversion H. subst. exact He. }
  revert ok. induction rk as [|x rp IH]; intros ok w w' e;
    rewrite mkdir_parents_from_eq.
  - pose proof (raises_os_mkdir (rev []) w) as H1.
    destruct (os_mkdir (rev []) w) as [w1 [u|e1]]; [discriminate |].
    specialize (H1 w1 e1 eq_refl).
    destruct e1; try (apply Hx; exact H1).
    intros H. inversion H. exact I.
  - pose proof (raises_os_mkdir (rev (x :: rp)) w) as H1.
    destruct (os_mkdir (rev (x :: rp)) w) as [w1 [u|e1]]; [discriminate |].
    specialize (H1 w1 e1 eq_refl).
    destruct e1; try (apply Hx; exact H1).
    pose proof (IH true w1) as H2.
    destruct (mkdir_parents_from true rp w1) as [w2 [u|e2]].
    + pose proof (raises_os_mkdir (rev (x :: rp)) w2) as H3.
      destruct (os_mkdir (rev (x :: rp)) w2) as [w3 [u'|e3]]; [discriminate |].
      apply Hx. apply (H3 w3). reflexivity.
    + intros H. inversion H. subst. apply (H2 w'). reflexivity.
Qed.

Lemma raises_mkdir_parents E p : raises al (mkdir_parents E p).
Proof.
  unfold mkdir_parents. apply raises_bind; [apply raises_resolved | intros k].
  apply raises_mkdir_parents_from.
Qed.

Lemma raises_open_w E p : raises al (open_w E p).
Proof.
  intros w w' e. rewrite open_w_eq.
  destruct (resolve E p) as [k|]; [| intros H; inversion H; exact I].
  cbn zeta.
  destruct (stat (files w) k) as [[|s]|];
    [intros H; inversion H; exact I | discriminate |].
  destruct (stat (files w) (parent k)) as [[|s]|];
    [discriminate | intros H; inversion H; exact I |].
  destruct (file_above (files w) [] k); intros H; inversion H; exact I.
Qed.

Lemma raises_write k s : raises al (write k s).
Proof.
  intros w w' e. rewrite write_eq. cbn zeta.
  destruct (files w !! k) as [[|old]|];
    [intros H; inversion H; exact I | discriminate
    | intros H; inversion H; exact I].
Qed.

Lemma raises_read_templates E : raises al (read_templates E).
Proof.
  intros w w' e. unfold read_templates, bind, log, lift, ret, raise.
  destruct (template_dir E) as [entries|];
    [| intros H; inversion H; exact I].
  assert (Hr : forall acc ts e', read_entries entries acc = Raise e' ->
                                 ts = acc -> e' = IsADirectoryError).
  { induction entries as [|[n [|text]] r IH]; intros acc ts e' H _.
    - discriminate H.
    - inversion H. reflexivity.
    - exact (IH _ _ _ H eq_refl). }
  destruct (read_entries entries []) as [ts|e'] eqn:He; [discriminate |].
  intros H. inversion H. subst.
  rewrite (Hr [] [] _ He eq_refl). exact I.
Qed.

Lemma raises_stubs E d : raises al (stubs E c d).
Proof.
  unfold stubs.
  apply raises_bind; [apply raises_mkdir | intros _].
  apply raises_bind; [apply raises_open_w | intros k].
  apply raises_bind; [apply raises_write | intros _].
  apply raises_bind; [apply raises_mkdir | intros _].
  apply raises_bind; [apply raises_open_w | intros k'].
  apply raises_bind; [apply raises_write | intros _].
  apply raises_mkdir.
Qed.

Lemma collect_raise all p acc e :
  collect all acc p = Raise e ->
  e = ValueError \/ exists k, e = KeyError k /\ dict_get k all = None.
Proof.
  revert acc. induction p as [| |i rest IH]; intros acc H.
  - discriminate H.
  - inversion H. left. reflexivity.
  - simpl in H. destruct (markup i) as [f|]; [| exact (IH _ H)].
    destruct (dict_get (field_name f) all) as [v|] eqn:Hf; [exact (IH _ H) |].
    inversion H. right. exists (field_name f). auto.
Qed.

Lemma known_key_cases n :
  known_key n = true -> n = "name" \/ n = "dist_path" \/ n = "port".
Proof.
  unfold known_key. intros H.
  apply orb_true_iff in H as [H|H];
    [apply orb_true_iff in H as [H|H] |];
    apply String.eqb_eq in H; auto.
Qed.

Lemma render_raise kw p e :
  (forall n, In n (fields_of p) ->
             known_key n = true /\ dict_get n kw <> None) ->
  render kw p = Raise e ->
  e = ValueError \/ e = Beyond_model.
Proof.
  revert e. induction p as [| |i rest IH]; intros e H.
  - discriminate.
  - intros Hr. inversion Hr. left. reflexivity.
  - simpl in *. destruct (markup i) as [f|].
    + destruct (H (field_name f)) as [Hk Hget]; [left; reflexivity |].
      assert (Hrest : forall e', render kw rest = Raise e' ->
                                 e' = ValueError \/ e' = Beyond_model).
      { intros e'. apply IH. intros n Hn. apply H. right. exact Hn. }
      unfold get_field.
      assert (Hplain : has_char "." (field_name f)
                       || has_char "[" (field_name f) = false /\
                       all_digits (field_name f) = false).
      { destruct (known_key_cases _ Hk) as [->|[->| ->]];
          split; reflexivity. }
      destruct Hplain as [-> ->].
      destruct (dict_get (field_name f) kw) as [v|]; [| congruence].
      unfold format_value.
      destruct (conversion f) as [cv|].
      * destruct (Ascii.eqb cv "s").
        -- destruct (String.eqb (format_spec f) "");
             [| intros Hr; inversion Hr; auto].
           destruct (render kw rest) as [r|e'];
             [discriminate | intros Hr; inversion Hr; subst; auto].
        -- destruct (Ascii.eqb cv "r" || Ascii.eqb cv "a");
             intros Hr; inversion Hr; auto.
      * destruct (String.eqb (format_spec f) "");
          [| intros Hr; inversion Hr; auto].
        destruct (render kw rest) as [r|e'];
          [discriminate | intros Hr; inversion Hr; subst; auto].
    + destruct (render kw rest) as [r|e'] eqn:Hr;
        [discriminate | intros Hr'; inversion Hr'; subst].
      apply IH; [exact H | reflexivity].
Qed.

Lemma known_key_table n (a b p : string) :
  dict_get n [("name", a); ("dist_path", b); ("port", p)] = None
  <-> known_key n = false.
Proof.
  unfold known_key. simpl.
  destruct (String.eqb n "name"), (String.eqb n "dist_path"),
           (String.eqb n "port"); simpl; split; congruence.
Qed.

Lemma lift_post {A} (r : result A) w w' a : lift r w = (w', Ok a) -> r = Ok a.
Proof.
  destruct r as [a'|e]; simpl.
  - unfold ret. intros H. inversion H. reflexivity.
  - unfold raise. discriminate.
Qed.

Lemma raises_lift {A} (r : result A) (Q : exn -> Prop) :
  (forall e, r = Raise e -> Q e) -> raises Q (lift r).
Proof.
  intros H w w' e. destruct r as [a|e']; simpl.
  - unfold ret. discriminate.
  - unfold raise. intros Heq. inversion Heq. subst. apply H. reflexivity.
Qed.

Lemma raises_write_template E d t (a b p : string) :
  remote c <> None ->
  raises al
    (write_template E d [("name", a); ("dist_path", b); ("port", p)] t).
Proof.
  intros Hrem. unfold write_template.
  set (all := [("name", a); ("dist_path", b); ("port", p)]).
  apply raises_bind; [apply raises_open_w | intros k].
  apply (raises_bind_post al
           (fun kw => collect all [] (parse (snd t)) = Ok kw)).
  - apply raises_lift. intros e He.
    apply collect_raise in He as [->|(k' & -> & Hk')].
    + exact Hrem.
    + split; [exact Hrem |]. apply (known_key_table k' a b p). exact Hk'.
  - intros w w' kw. apply lift_post.
  - intros kw Hkw.
    apply raises_bind; [| intros text; apply raises_write].
    assert (Hfields : forall n, In n (fields_of (parse (snd t))) ->
                                known_key n = true /\ dict_get n kw <> None).
    { intros n Hn.
      destruct (collect_agree all (parse (snd t)) [] kw Hkw) with (n := n)
        as [Heq Hne].
      { intros n' v' Hn'. discriminate Hn'. }
      { left. exact Hn. }
      split.
      - destruct (known_key n) eqn:Hk; [reflexivity |].
        apply (known_key_table n a b p) in Hk. destruct (Hne Hk).
      - rewrite Heq. exact Hne. }
    apply raises_lift. intros e He. unfold format in He.
    destruct (render_raise kw _ e Hfields He) as [->| ->];
      [exact Hrem | exact I].
Qed.

Lemma raises_deploy E d cmd :
  remote c <> None -> raises al (deploy E c d cmd).
Proof.
  intros Hrem. unfold deploy.
  apply raises_bind; [apply raises_mkdir | intros _].
  apply raises_bind; [apply raises_open_w | intros k].
  apply raises_bind; [apply raises_write | intros _].
  apply raises_bind; [apply raises_read_templates | intros ts].
  apply raises_bind.
  - destruct (ports c) eqn:Hp; [| apply raises_ret].
    apply raises_raise. split; [exact Hrem | exact Hp].
  - intros port. apply raises_for_each. intros t.
    apply raises_write_template, Hrem.
Qed.

Lemma raises_scaffold E cld : raises al (scaffold E c cld).
Proof.
  unfold scaffold.
  apply raises_bind; [apply raises_path_exists | intros e].
  apply raises_bind;
    [destruct e; [apply raises_ret | apply raises_mkdir_parents] | intros _].
  apply raises_bind; [apply raises_path_exists | intros e'].
  apply raises_bind;
    [destruct e'; [apply raises_ret | apply raises_mkdir] | intros _].
  apply raises_bind; [apply raises_open_w | intros k].
  apply raises_bind; [apply raises_write | intros _].
  apply raises_bind.
  { destruct (remote c) as [cmd|] eqn:Hrem; [| apply raises_ret].
    apply raises_deploy. rewrite Hrem. discriminate. }
  intros _. apply raises_stubs.
Qed.

Lemma raises_create_challenge E : raises al (create_challenge E c).
Proof.
  intros w w' e. rewrite create_challenge_eq.
  destruct (target c) as [t|] eqn:Ht; [apply raises_scaffold |].
  rewrite get_repo_eq.
  destruct (search_up (files w) (rev (cwd E))) as [k|].
  - apply raises_scaffold.
  - intros H. inversion H. exact Ht.
Qed.
End Failures.

(** X8: a run fails only in the ways [expected_failure] lists: an
    [OSError] from a [mkdir] or an [open] at any point;
    [InvalidGitRepositoryError] only without a target; [KeyError], for
    a key other than [name], [dist_path] and [port], and [ValueError]
    only with a remote command; [IndexError] only with a remote command
    and an empty list of ports.  A run the model does not cover ends
    with [Beyond_model], about which nothing is said. *)
Theorem failures_are_expected E c fs e :
  snd (run (create_challenge E c) fs) = Raise e -> expected_failure c e.
Proof.
  unfold run. intros H.
  apply (raises_create_challenge c E {| files := fs; trace := [] |}
           (fst (create_challenge E c {| files := fs; trace := [] |}))).
  rewrite <- H. apply surjective_pairing.
Qed.

Lemma failures_are_expected_witness :
  expected_failure example_remote (KeyError "image").
Proof.
  apply (failures_are_expected image_env example_remote empty_fs).
  vm_compute. reflexivity.
Defined.

(** ** The challenge [main] builds *)

Lemma single_fields values ns store ns' :
  single values ns store = Some ns' ->
  exists v more ns1,
    values = v :: more /\ store v = Some ns1 /\
    ns_description ns' = ns_description ns1 /\
    ns_provides ns' = ns_provides ns1 /\
    ns_ports ns' = ns_ports ns1 /\
    ns_remote ns' = ns_remote ns1 /\
    ns_difficulty ns' = ns_difficulty ns1.
Proof.
  unfold single. destruct values as [|v more]; [discriminate |].
  destruct (store v) as [ns1|] eqn:Hs; [| discriminate].
  intros H. inversion H. exists v, more, ns1. repeat split. exact Hs.
Qed.

Lemma in_choices_In s l : in_choices s l = true -> In s l.
Proof.
  unfold in_choices. intros H. apply existsb_exists in H as (x & Hx & He).
  apply String.eqb_eq in He. subst. exact Hx.
Qed.

Lemma take_action_validated o values ns ns' :
  take_action o values ns = Some ns' -> validated ns -> validated ns'.
Proof.
  intros H (Hd & Hp & Hpo & Hr & Hdi).
  destruct o; cbn [take_action] in H;
    try (apply single_fields in H
           as (v & more & ns1 & -> & Hs & E1 & E2 & E3 & E4 & E5);
         cbv beta in Hs).
  - destruct (type_of_value v); [| discriminate Hs]. inversion Hs. subst ns1.
    unfold validated. rewrite E1, E2, E3, E4, E5. simpl. auto.
  - inversion Hs. subst ns1.
    unfold validated. rewrite E1, E2, E3, E4, E5. simpl. auto.
  - inversion Hs. subst ns1.
    unfold validated. rewrite E1, E2, E3, E4, E5. simpl. auto.
  - destruct values as [|v r]; [discriminate H |]. inversion H.
    unfold validated. simpl. repeat split; try assumption. discriminate.
  - destruct (in_choices v difficulty_choices) eqn:Hc; [| discriminate Hs].
    inversion Hs. subst ns1.
    unfold validated. rewrite E1, E2, E3, E4, E5. simpl.
    split; [exact Hd |]. split; [exact Hp |]. split; [exact Hpo |].
    split; [exact Hr |].
    intros d Heq. inversion Heq. subst d.
    exact (in_choices_In v difficulty_choices Hc).
  - inversion Hs. subst ns1.
    unfold validated. rewrite E1, E2, E3, E4, E5. simpl. auto.
  - destruct values as [|v r]; [discriminate H |]. inversion H.
    unfold validated. simpl. repeat split; try assumption. discriminate.
  - destruct values as [|v r]; [discriminate H |].
    destruct (all_some (List.map py_int (v :: r))) as [zs|] eqn:Hz;
      [| discriminate H].
    inversion H. unfold validated. simpl. repeat split; try assumption.
    intros Heq. inversion Heq. subst zs. simpl in Hz.
    destruct (py_int v); [| discriminate Hz].
    destruct (all_some (List.map py_int r)); discriminate Hz.
  - destruct values as [|v r]; [discriminate H |]. inversion H.
    unfold validated. simpl. repeat split; try assumption. discriminate.
  - inversion Hs. subst ns1.
    unfold validated. rewrite E1, E2, E3, E4, E5. simpl. auto.
Qed.

Lemma consume_validated args ns ns' :
  consume args ns = Parsed ns' ->
  validated ns ->
  validated ns' /\ required_present ns' = true.
Proof.
  revert ns. induction args as [|a r IH]; intros ns H Hv; simpl in H.
  - destruct (required_present ns) eqn:Hreq; [| discriminate H].
    destruct (extras ns); [| discriminate H]. inversion H. subst. auto.
  - destruct a as [o values| |word].
    + destruct (take_action o values ns) as [ns1|] eqn:Ht; [| discriminate H].
      apply (IH ns1 H). exact (take_action_validated _ _ _ _ Ht Hv).
    + discriminate H.
    + apply (IH _ H). exact Hv.
Qed.

Lemma validated_empty : validated empty_namespace.
Proof. unfold validated. simpl. repeat split; discriminate. Qed.

Lemma map_not_nil {A B} (f : A -> B) l : l <> [] -> List.map f l <> [].
Proof. destruct l; [congruence | discriminate]. Qed.

(** The challenge built from an accepted command line. *)
Lemma parsed_challenge args ns :
  parse_args args = Parsed ns ->
  exists c,
    challenge_of ns = Some c /\
    ports c <> [] /\
    provides c <> [] /\
    In (difficulty c) difficulty_choices /\
    remote c <> Some [] /\
    exists words, words <> [] /\ description c = String.concat " " words.
Proof.
  unfold parse_args. intros H.
  destruct (consume_validated _ _ _ H validated_empty)
    as ((Hd & Hp & Hpo & Hr & Hdi) & Hreq).
  unfold required_present in Hreq. unfold challenge_of.
  destruct (ns_type ns) as [t|]; [| discriminate Hreq].
  destruct (ns_name ns) as [n|]; [| discriminate Hreq].
  destruct (ns_author ns) as [a|]; [| discriminate Hreq].
  destruct (ns_description ns) as [d|]; [| discriminate Hreq].
  destruct (ns_difficulty ns) as [di|]; [| discriminate Hreq].
  destruct (ns_flag ns) as [f|]; [| discriminate Hreq].
  destruct (ns_provides ns) as [pr|]; [| discriminate Hreq].
  destruct (ns_ports ns) as [po|]; [| discriminate Hreq].
  eexists. split; [reflexivity |]. simpl.
  split; [congruence |].
  split; [apply map_not_nil; congruence |].
  split; [apply Hdi; reflexivity |].
  split; [exact Hr |].
  exists d. split; [congruence | reflexivity].
Qed.


(** X10: [main] never ends with an [IndexError] traceback: [ports[0]] is
    always there, since [--ports] takes at least one word, and no
    other statement of a run the model covers raises [IndexError]. *)
Theorem main_never_index_error E args w :
  snd (main E args w) <> Traceback IndexError.
Proof.
  unfold main. destruct (parse_args args) as [ns| |] eqn:Hp;
    [| discriminate | discriminate].
  destruct (parsed_challenge args ns Hp) as (c & Hc & Hports & _).
  rewrite Hc.
  destruct (create_challenge E c w) as [w' [u|e]] eqn:Hrun; [discriminate |].
  simpl. intros Heq. inversion Heq. subst e.
  destruct (raises_create_challenge c E w w' IndexError Hrun) as [_ Hnil].
  exact (Hports Hnil).
Qed.



(** ** Without a remote command *)

Lemma create_challenge_env cw td td' c :
  remote c = None ->
  create_challenge (mkEnv cw td) c = create_challenge (mkEnv cw td') c.
Proof. intros Hrem. unfold create_challenge. rewrite Hrem. reflexivity. Qed.

Lemma scaffold_reads_no_template E c cld :
  remote c = None ->
  keeps (fun w => ~ In ReadTemplates (trace w)) (scaffold E c cld).
Proof.
  intros Hrem.
  set (Q := fun tr : list event => ~ In ReadTemplates tr).
  set (allowed := fun e : event => e <> ReadTemplates).
  assert (Q_snoc : forall t e, allowed e -> Q t -> Q (t ++ [e])).
  { intros tr e He Htr Hin. apply in_app_or in Hin.
    destruct Hin as [Hin | [Heq | []]]; [exact (Htr Hin) | congruence]. }
  assert (Hm : forall k, allowed (Mkdir k)) by discriminate.
  assert (Ho : forall k, allowed (OpenW k)) by discriminate.
  assert (Hw : forall k, allowed (WriteText k)) by discriminate.
  unfold scaffold. rewrite Hrem.
  apply keeps_bind; [apply (keeps_path_exists Q) | intros e].
  apply keeps_bind.
  { destruct e; [apply keeps_ret |].
    apply (keeps_mkdir_parents Q allowed Q_snoc Hm). }
  intros _.
  apply keeps_bind; [apply (keeps_path_exists Q) | intros e'].
  apply keeps_bind.
  { destruct e'; [apply keeps_ret |].
    apply (keeps_mkdir Q allowed Q_snoc Hm). }
  intros _.
  apply keeps_bind; [apply (keeps_open_w Q allowed Q_snoc Ho) | intros k].
  apply keeps_bind; [apply (keeps_write Q allowed Q_snoc Hw) | intros _].
  apply keeps_bind; [apply keeps_ret | intros _].
  apply keeps_bind; [apply (keeps_mkdir Q allowed Q_snoc Hm) | intros _].
  apply keeps_bind; [apply (keeps_open_w Q allowed Q_snoc Ho) | intros k'].
  apply keeps_bind; [apply (keeps_write Q allowed Q_snoc Hw) | intros _].
  apply keeps_bind; [apply (keeps_mkdir Q allowed Q_snoc Hm) | intros _].
  apply keeps_bind; [apply (keeps_open_w Q allowed Q_snoc Ho) | intros k''].
  apply keeps_bind; [apply (keeps_write Q allowed Q_snoc Hw) | intros _].
  apply (keeps_mkdir Q allowed Q_snoc Hm).
Qed.

(** X11: without a remote command the template directory plays no part:
    it is never read, and the run is the same whatever it holds, or
    whether it is there at all. *)
Theorem without_remote_templates_play_no_part E E' c fs :
  remote c = None ->
  cwd E' = cwd E ->
  run (create_challenge E' c) fs = run (create_challenge E c) fs /\
  ~ In ReadTemplates (trace (fst (run (create_challenge E c) fs))).
Proof.
  intros Hrem Hcwd. split.
  - destruct E as [cw td], E' as [cw' td']. simpl in Hcwd. subst cw'.
    rewrite (create_challenge_env cw td' td c Hrem). reflexivity.
  - unfold run. rewrite create_challenge_eq.
    destruct (target c) as [t|].
    + apply (scaffold_reads_no_template E c _ Hrem). simpl. tauto.
    + rewrite get_repo_eq. cbn [files trace app].
      destruct (search_up fs (rev (cwd E))) as [k|].
      * apply (scaffold_reads_no_template E c _ Hrem). simpl.
        intros [H|[]]. discriminate H.
      * simpl. intros [H|[]]. discriminate H.
Qed.

Lemma without_remote_templates_play_no_part_witness :
  run (create_challenge (mkEnv ["home"; "alice"] None) example_challenge)
    empty_fs
  = run (create_challenge example_env example_challenge) empty_fs /\
  ~ In ReadTemplates
      (trace (fst (run (create_challenge example_env example_challenge)
                     empty_fs))).
Proof.
  apply (without_remote_templates_play_no_part example_env
           (mkEnv ["home"; "alice"] None) example_challenge empty_fs);
    reflexivity.
Defined.

(** ** What the files hold after a run that succeeds *)


Lemma templates_inside_deploy E d kd all ts entries m0 :
  resolve E d = Some kd ->
  relative_names E ->
  template_dir E = Some entries ->
  read_entries entries [] = Ok ts ->
  keeps (reached (inside (kd ++ ["deploy"])) m0)
    (for_each (write_template E d all) ts).
Proof.
  intros Hd Hrel He Hts. apply keeps_for_each_in. intros t Ht.
  apply reached_write_template. intros k Hk.
  apply resolve_join_inv in Hk as (k1 & H1 & Hpre);
    [| exact (relative_template E ts entries t Hrel He Hts Ht)].
  rewrite (resolve_join E d kd "deploy" Hd eq_refl eq_refl) in H1.
  inversion H1. subst k1. exact Hpre.
Qed.

Lemma artifacts_ok_inv E c d kd cmd w w' :
  resolve E d = Some kd ->
  relative_names E ->
  artifacts E c d cmd w = (w', Ok tt) ->
  forall k,
    ~ inside (kd ++ ["deploy"]) k ->
    files w' !! k
    = <[kd ++ ["deploy.sh"] := File (deploy_sh cmd)]> (files w) !! k.
Proof.
  intros Hd Hrel H k Hk. unfold artifacts in H.
  apply bind_ok_inv in H as (f & w1 & H1 & H).
  apply bind_ok_inv in H as (u & w2 & H2 & H).
  destruct (open_write_ok_inv _ _ _ _ _ _ _ _ H1 H2) as (Hf & _ & ->).
  rewrite (resolve_join E d kd "deploy.sh" Hd eq_refl eq_refl) in Hf.
  inversion Hf. subst f. clear Hf H1 H2.
  apply bind_ok_inv in H as (ts & w3 & H3 & H).
  pose proof (read_templates_post _ _ _ _ H3) as (entries & He & Hts).
  rewrite (read_templates_ok E entries ts _ He Hts) in H3.
  inversion H3. subst w3. clear H3.
  apply bind_ok_inv in H as (port & w4 & H4 & H).
  assert (Hw4 : files w4
                = <[kd ++ ["deploy.sh"] := File (deploy_sh cmd)]> (files w)).
  { destruct (ports c); [discriminate H4 |]. inversion H4. reflexivity. }
  rewrite <- Hw4.
  pose proof (templates_inside_deploy E d kd
                [("name", name c);
                 ("dist_path", path_str (joinpath d "dist"));
                 ("port", port)] ts entries (files w4) Hd Hrel He Hts w4
                (rtc_refl _ _)) as Hr.
  rewrite H in Hr. exact (changes_outside _ _ _ Hr k Hk).
Qed.

Lemma not_inside_deploy (kd : key) x s :
  x <> "deploy" -> ~ inside (kd ++ ["deploy"]) (kd ++ x :: s).
Proof.
  intros Hx [r Hr]. rewrite <- app_assoc in Hr.
  apply app_inv_head in Hr. inversion Hr. congruence.
Qed.

Lemma scaffold_ok_texts E c cld w w' :
  relative_names E ->
  scaffold E c cld w = (w', Ok tt) ->
  exists kd,
    resolve E (joinpath cld (name c)) = Some kd /\
    files w' !! (kd ++ ["chal.json"]) = Some (File (dumps (to_dict c))) /\
    forall cmd,
      remote c = Some cmd ->
      files w' !! (kd ++ ["deploy.sh"]) = Some (File (deploy_sh cmd)).
Proof.
  intros Hrel H.
  apply scaffold_ok_states in H
    as (kc & kd & kj & w1 & w2 & Hkc & Hkd & Hkj & _ & _ & _ & Hw2 & H).
  rewrite (resolve_join E _ kd "chal.json" Hkd eq_refl eq_refl) in Hkj.
  inversion Hkj. subst kj. clear Hkj.
  apply bind_ok_inv in H as (u & w3 & Hdep & Hst). destruct u.
  destruct (stubs_ok_inv _ _ _ _ _ _ _ Hkd Hst) as (_ & _ & _ & _ & ->).
  exists kd. split; [exact Hkd |]. cbn [files].
  unfold stubs_files. rewrite !lookup_insert_ne by key_neq.
  destruct (remote c) as [cmd|].
  - rewrite deploy_eq in Hdep.
    apply bind_ok_inv in Hdep as (u & w2a & Hmk & Hart).
    apply mkdir_ok_inv in Hmk as (k & Hk & _ & _ & _ & ->).
    rewrite (resolve_join E _ kd "deploy" Hkd eq_refl eq_refl) in Hk.
    inversion Hk. subst k. clear Hk.
    pose proof (artifacts_ok_inv _ _ _ _ _ _ _ Hkd Hrel Hart) as Hout.
    cbn [files] in Hout. split.
    + rewrite Hout by (apply not_inside_deploy; discriminate).
      rewrite !lookup_insert_ne by key_neq. rewrite Hw2.
      apply lookup_insert_eq.
    + intros cmd' Hc. inversion Hc. subst cmd'.
      rewrite Hout by (apply not_inside_deploy; discriminate).
      apply lookup_insert_eq.
  - inversion Hdep. subst w3. split; [| discriminate].
    rewrite Hw2. apply lookup_insert_eq.
Qed.

(** X12: after a run that succeeds, [chal.json] holds
    [dumps(challenge.__dict__, indent=4, sort_keys=True)] and, with a
    remote command, [deploy.sh] holds the line [#!/bin/bash] followed
    by the words of the command joined by single spaces: no later
    statement writes to either. *)
Theorem description_and_deploy_script E c fs w' :
  relative_names E ->
  run (create_challenge E c) fs = (w', Ok tt) ->
  exists kd,
    challenge_key E c fs = Some kd /\
    files w' !! (kd ++ ["chal.json"]) = Some (File (dumps (to_dict c))) /\
    forall cmd,
      remote c = Some cmd ->
      files w' !! (kd ++ ["deploy.sh"])
      = Some (File ("#!/bin/bash" +:+ NL +:+ String.concat " " cmd)).
Proof.
  intros Hrel H.
  apply create_challenge_ok_scaffold in H as (cld & tr & Hcat & H).
  apply (scaffold_ok_texts E c cld _ _ Hrel) in H as (kd & Hkd & Hj & Hsh).
  exists kd. unfold challenge_key, challenge_dir. rewrite Hcat. auto.
Qed.

Lemma description_and_deploy_script_witness :
  exists kd,
    challenge_key example_env example_remote empty_fs = Some kd /\
    files (fst (run (create_challenge example_env example_remote) empty_fs))
      !! (kd ++ ["chal.json"])
    = Some (File (dumps (to_dict example_remote))) /\
    forall cmd,
      remote example_remote = Some cmd ->
      files (fst (run (create_challenge example_env example_remote) empty_fs))
        !! (kd ++ ["deploy.sh"])
      = Some (File ("#!/bin/bash" +:+ NL +:+ String.concat " " cmd)).
Proof.
  apply (description_and_deploy_script example_env example_remote empty_fs).
  - apply relative_names_example.
  - vm_compute. reflexivity.
Defined.

(** ** A regular file where a directory is needed *)

Lemma mkdir_under_file E p k s w :
  resolve E p = Some k ->
  k <> [] ->
  files w !! k = None ->
  stat (files w) (parent k) = Some (File s) ->
  mkdir E p w
  = ({| files := files w; trace := trace w ++ [Mkdir k] |},
     Raise NotADirectoryError).
Proof.
  intros Hr Hne Hk Hp. unfold mkdir, resolved. rewrite Hr.
  unfold bind, ret. rewrite os_mkdir_eq. cbn zeta.
  rewrite (stat_lookup _ _ Hne), Hk, Hp. reflexivity.
Qed.

Lemma open_under_file E p k s w :
  resolve E p = Some k ->
  k <> [] ->
  files w !! k = None ->
  stat (files w) (parent k) = Some (File s) ->
  open_w E p w
  = ({| files := files w; trace := trace w ++ [OpenW k] |},
     Raise NotADirectoryError).
Proof.
  intros Hr Hne Hk Hp. rewrite open_w_eq, Hr. cbn zeta.
  rewrite (stat_lookup _ _ Hne), Hk, Hp. reflexivity.
Qed.

Lemma well_formed_under_file (m : fsmap) k x s :
  well_formed m -> stat m k = Some (File s) -> m !! (k ++ [x]) = None.
Proof.
  intros Hwf Hk. destruct (m !! (k ++ [x])) as [n|] eqn:Hn; [| reflexivity].
  pose proof (Hwf _ _ Hn) as Hd. rewrite parent_snoc in Hd. congruence.
Qed.

Lemma scaffold_file_in_the_way E c cld kc w :
  resolve E cld = Some kc ->
  simple_name (name c) = true ->
  well_formed (files w) ->
  is_file (stat (files w) kc) = true \/
  is_file (stat (files w) (kc ++ [name c])) = true ->
  snd (scaffold E c cld w) = Raise NotADirectoryError /\
  files (fst (scaffold E c cld w)) = files w.
Proof.
  intros Hkc Hn Hwf Hfile. rewrite scaffold_eq.
  pose proof (resolve_join_simple E cld kc (name c) Hkc Hn) as Hkd.
  set (d := joinpath cld (name c)) in *.
  set (kd := kc ++ [name c]) in *.
  assert (Hne : kd <> []) by apply snoc_not_nil.
  rewrite (bind_eq _ _ _ _ _ (path_exists_eq E cld kc w Hkc)).
  destruct Hfile as [Hfile|Hfile].
  - destruct (stat (files w) kc) as [[|s]|] eqn:Hs; try discriminate Hfile.
    cbn [present]. erewrite (bind_eq (ret tt)) by reflexivity.
    pose proof (well_formed_under_file _ kc (name c) s Hwf Hs) as Hnone.
    fold kd in Hnone.
    rewrite (bind_eq _ _ _ _ _ (path_exists_eq E d kd w Hkd)).
    rewrite (stat_lookup _ _ Hne), Hnone. cbn [present].
    erewrite bind_raise; cycle 1.
    { apply (mkdir_under_file E d kd s w Hkd Hne Hnone).
      unfold kd. rewrite parent_snoc. exact Hs. }
    split; reflexivity.
  - destruct (stat (files w) kd) as [[|s]|] eqn:Hs; try discriminate Hfile.
    assert (Hdir : stat (files w) kc = Some Dir).
    { rewrite (stat_lookup _ _ Hne) in Hs.
      pose proof (Hwf _ _ Hs) as Hd. unfold kd in Hd.
      rewrite parent_snoc in Hd. exact Hd. }
    rewrite Hdir. cbn [present]. erewrite (bind_eq (ret tt)) by reflexivity.
    rewrite (bind_eq _ _ _ _ _ (path_exists_eq E d kd w Hkd)), Hs.
    cbn [present]. erewrite (bind_eq (ret tt)) by reflexivity.
    unfold populate.
    pose proof (resolve_join E d kd "chal.json" Hkd eq_refl eq_refl) as Rj.
    erewrite bind_raise; cycle 1.
    { apply (open_under_file E _ _ s w Rj).
      - apply snoc_not_nil.
      - exact (well_formed_under_file _ kd "chal.json" s Hwf Hs).
      - rewrite parent_snoc. exact Hs. }
    split; reflexivity.
Qed.

(** X13: when the category directory or the challenge directory is a
    regular file, the [exists()] guard lets the run go on to the next
    [mkdir] or [open], which raises [NotADirectoryError]; nothing is
    created. *)
Theorem regular_file_in_the_way E c fs cld kc :
  category_dir E c fs = Some cld ->
  resolve E cld = Some kc ->
  simple_name (name c) = true ->
  well_formed fs ->
  is_file (stat fs kc) = true \/ is_file (stat fs (kc ++ [name c])) = true ->
  snd (run (create_challenge E c) fs) = Raise NotADirectoryError /\
  files (fst (run (create_challenge E c) fs)) = fs.
Proof.
  intros Hcat Hkc Hn Hwf Hfile.
  destruct (run_create_challenge E c fs cld Hcat) as (tr & ->).
  exact (scaffold_file_in_the_way E c cld kc {| files := fs; trace := tr |}
           Hkc Hn Hwf Hfile).
Qed.


Lemma well_formed_blocked : well_formed blocked_fs.
Proof.
  intros k n. unfold blocked_fs.
  destruct (decide (k = ["tmp"; "out"])) as [->|H1]; [reflexivity |].
  rewrite lookup_insert_ne by (apply not_eq_sym, H1).
  destruct (decide (k = ["tmp"])) as [->|H2]; [reflexivity |].
  rewrite lookup_insert_ne by (apply not_eq_sym, H2).
  unfold empty_fs. rewrite lookup_empty. discriminate.
Qed.

Lemma regular_file_in_the_way_witness :
  snd (run (create_challenge example_env example_challenge) blocked_fs)
  = Raise NotADirectoryError /\
  files (fst (run (create_challenge example_env example_challenge) blocked_fs))
  = blocked_fs.
Proof.
  apply (regular_file_in_the_way example_env example_challenge blocked_fs
           (Path_of "/tmp/out") ["tmp"; "out"]).
  - reflexivity.
  - reflexivity.
  - reflexivity.
  - apply well_formed_blocked.
  - left. vm_compute. reflexivity.
Defined.

(** ** A remote command without templates, or without a port *)


Lemma read_templates_missing E w :
  template_dir E = None ->
  read_templates E w
  = ({| files := files w; trace := trace w ++ [ReadTemplates] |},
     Raise FileNotFoundError).
Proof.
  intros He. unfold read_templates, bind, log, raise. rewrite He. reflexivity.
Qed.

Lemma deploy_stops E c d kd cmd e w :
  resolve E d = Some kd ->
  stat (files w) kd = Some Dir ->
  files w !! (kd ++ ["deploy"]) = None ->
  not_dir (files w !! (kd ++ ["deploy.sh"])) ->
  stops_before_templates E c e ->
  snd (deploy E c d cmd w) = Raise e /\
  files (fst (deploy E c d cmd w))
  = <[kd ++ ["deploy.sh"] := File (deploy_sh cmd)]>
      (<[kd ++ ["deploy"] := Dir]> (files w)).
Proof.
  intros Hd Hkd Hdep Hsh Hstop.
  pose proof (resolve_join E d kd "deploy" Hd eq_refl eq_refl) as Rdep.
  pose proof (resolve_join E d kd "deploy.sh" Hd eq_refl eq_refl) as Rsh.
  unfold deploy.
  erewrite bind_eq; cycle 1.
  { apply (mkdir_ok E _ _ _ Rdep);
      [apply snoc_not_nil | exact Hdep | rewrite parent_snoc; exact Hkd]. }
  rewrite (write_file_ok E _ _ _ _ _ Rsh); cycle 1.
  { apply snoc_not_nil. }
  { cbn [files]. rewrite lookup_insert_ne by key_neq. exact Hsh. }
  { cbn [files]. rewrite parent_snoc, stat_insert_ne by key_neq. exact Hkd. }
  destruct Hstop as [[He ->]|(entries & ts & He & Hts & Hp & ->)].
  - erewrite bind_raise; [| apply (read_templates_missing E _ He)].
    split; reflexivity.
  - erewrite bind_eq; [| apply (read_templates_ok E entries _ _ He Hts)].
    rewrite Hp. erewrite bind_raise by reflexivity.
    split; reflexivity.
Qed.

Lemma scaffold_stops_before_templates E c cld kc cmd e w :
  resolve E cld = Some kc ->
  simple_name (name c) = true ->
  clear_path (files w) kc ->
  (forall s, files w !! ((kc ++ [name c]) ++ s) = None) ->
  remote c = Some cmd ->
  stops_before_templates E c e ->
  snd (scaffold E c cld w) = Raise e /\
  forall s,
    files (fst (scaffold E c cld w)) !! ((kc ++ [name c]) ++ s)
    = half_deployed c cmd !! s.
Proof.
  intros Hc Hn Hclear Hfresh Hrem Hstop.
  pose proof (resolve_join_simple E cld kc (name c) Hc Hn) as Hd.
  destruct (scaffold_fresh_populate E c cld kc w Hc Hn Hclear Hfresh)
    as (w2 & m1 & -> & Hw2 & _ & Hunder).
  set (d := joinpath cld (name c)) in *.
  set (kd := kc ++ [name c]) in *.
  pose proof (resolve_join E d kd "chal.json" Hd eq_refl eq_refl) as Rjson.
  assert (Hkd2 : stat (files w2) kd = Some Dir).
  { rewrite Hw2, stat_lookup by apply snoc_not_nil. apply lookup_insert_eq. }
  unfold populate.
  rewrite (write_file_ok E _ _ _ _ _ Rjson); cycle 1.
  { apply snoc_not_nil. }
  { rewrite Hunder by discriminate. discriminate. }
  { rewrite parent_snoc. exact Hkd2. }
  rewrite Hrem. cbv beta.
  match goal with
  | |- context [bind (deploy E c d cmd) _ ?w0] => set (w3 := w0)
  end.
  destruct (deploy_stops E c d kd cmd e w3 Hd) as [Hres Hfiles].
  - cbn [files w3]. rewrite stat_insert_ne by key_neq. exact Hkd2.
  - cbn [files w3]. rewrite lookup_insert_ne by key_neq.
    apply Hunder. discriminate.
  - cbn [files w3]. rewrite lookup_insert_ne by key_neq.
    rewrite Hunder by discriminate. discriminate.
  - exact Hstop.
  - rewrite (bind_fst_raise _ _ _ _ Hres). cbn [fst snd].
    split; [reflexivity |]. intros s. rewrite Hfiles. cbn [files w3].
    unfold half_deployed.
    destruct (decide (s = ["deploy.sh"])) as [->|H1];
      [rewrite !lookup_insert_eq; reflexivity |].
    rewrite (lookup_insert_ne _ (kd ++ ["deploy.sh"]))
      by (intros Heq; apply app_inv_head in Heq; congruence).
    rewrite (lookup_insert_ne _ ["deploy.sh"]) by congruence.
    destruct (decide (s = ["deploy"])) as [->|H2];
      [rewrite !lookup_insert_eq; reflexivity |].
    rewrite (lookup_insert_ne _ (kd ++ ["deploy"]))
      by (intros Heq; apply app_inv_head in Heq; congruence).
    rewrite (lookup_insert_ne _ ["deploy"]) by congruence.
    destruct (decide (s = ["chal.json"])) as [->|H3];
      [rewrite !lookup_insert_eq; reflexivity |].
    rewrite (lookup_insert_ne _ (kd ++ ["chal.json"]))
      by (intros Heq; apply app_inv_head in Heq; congruence).
    rewrite (lookup_insert_ne _ ["chal.json"]) by congruence.
    destruct (decide (s = [])) as [->|H4].
    + rewrite app_nil_r, Hw2, !lookup_insert_eq. reflexivity.
    + rewrite (Hunder s H4), lookup_insert_ne by congruence.
      unfold empty_fs. rewrite lookup_empty. reflexivity.
Qed.

(** X14: with a remote command, in a fresh challenge directory: when the
    template directory is missing the run stops with
    [FileNotFoundError], and when [ports] is empty it stops with
    [IndexError] at [ports[0]].  Either way [chal.json], [deploy] and
    [deploy.sh] are left in the challenge directory and nothing else:
    no template file and no [solve], [src] or [dist]. *)
Theorem remote_without_templates_or_ports E c fs cld kc cmd e :
  category_dir E c fs = Some cld ->
  resolve E cld = Some kc ->
  simple_name (name c) = true ->
  clear_path fs kc ->
  (forall s, fs !! ((kc ++ [name c]) ++ s) = None) ->
  remote c = Some cmd ->
  stops_before_templates E c e ->
  snd (run (create_challenge E c) fs) = Raise e /\
  forall s,
    files (fst (run (create_challenge E c) fs)) !! ((kc ++ [name c]) ++ s)
    = half_deployed c cmd !! s.
Proof.
  intros Hcat Hc Hn Hclear Hfresh Hrem Hstop.
  destruct (run_create_challenge E c fs cld Hcat) as (tr & ->).
  exact (scaffold_stops_before_templates E c cld kc cmd e
           {| files := fs; trace := tr |} Hc Hn Hclear Hfresh Hrem Hstop).
Qed.


Lemma remote_without_templates_or_ports_witness :
  snd (run (create_challenge example_env example_portless) empty_fs)
  = Raise IndexError /\
  forall s,
    files (fst (run (create_challenge example_env example_portless) empty_fs))
      !! ((["tmp"; "out"] ++ ["stack1"]) ++ s)
    = half_deployed example_portless ["docker-compose"; "up"] !! s.
Proof.
  apply (remote_without_templates_or_ports example_env example_portless
           empty_fs (Path_of "/tmp/out") ["tmp"; "out"]).
  - reflexivity.
  - reflexivity.
  - reflexivity.
  - apply clear_path_empty.
  - intros s. apply lookup_empty.
  - reflexivity.
  - right. eexists _, _. repeat split; reflexivity.
Defined.

(** ** The repository root *)

Lemma prefix_snoc_inv {A} (j l : list A) x :
  j `prefix_of` l ++ [x] -> j = l ++ [x] \/ j `prefix_of` l.
Proof.
  intros [r Hr]. revert Hr. destruct r as [|y r' _] using rev_ind; intros Hr.
  - left. rewrite app_nil_r in Hr. congruence.
  - right. rewrite app_assoc in Hr. apply app_inj_tail in Hr as [Hr _].
    exists r'. exact Hr.
Qed.

Lemma search_up_found m rk k :
  search_up m rk = Some k ->
  k `prefix_of` rev rk /\
  has_marker m k = true /\
  forall j, k `prefix_of` j -> j `prefix_of` rev rk ->
            has_marker m j = true -> j = k.
Proof.
  induction rk as [|x rp IH]; cbn [search_up].
  - destruct (has_marker m (rev [])) eqn:Hm; [| discriminate].
    intros H. inversion H. subst k. split; [reflexivity |].
    split; [exact Hm |]. intros j _ Hj _. simpl in Hj.
    apply prefix_nil_inv in Hj. exact Hj.
  - destruct (has_marker m (rev (x :: rp))) eqn:Hm.
    + intros H. inversion H. subst k. split; [reflexivity |].
      split; [exact Hm |]. intros j Hkj Hjk _.
      apply (anti_symm prefix); assumption.
    + intros H. destruct (IH H) as (Hpre & Hk & Hnear).
      cbn [rev]. split; [apply prefix_app_r, Hpre |].
      split; [exact Hk |]. intros j Hkj Hj Hmj.
      apply prefix_snoc_inv in Hj as [->|Hj].
      * cbn [rev] in Hm. congruence.
      * exact (Hnear j Hkj Hj Hmj).
Qed.

Lemma search_up_none m rk :
  search_up m rk = None ->
  forall j, j `prefix_of` rev rk -> has_marker m j = false.
Proof.
  induction rk as [|x rp IH]; cbn [search_up].
  - destruct (has_marker m (rev [])) eqn:Hm; [discriminate |].
    intros _ j Hj. simpl in Hj. apply prefix_nil_inv in Hj. subst j.
    exact Hm.
  - destruct (has_marker m (rev (x :: rp))) eqn:Hm; [discriminate |].
    intros H j Hj. cbn [rev] in Hj, Hm.
    apply prefix_snoc_inv in Hj as [->|Hj]; [exact Hm | exact (IH H j Hj)].
Qed.


(** ** A port, from the command line to the templates *)


Lemma of_uint_acc_value d acc :
  Z.pos (Pos.of_uint_acc d acc) = uint_value (Z.pos acc) d.
Proof.
  revert acc. induction d; intros acc; cbn [Pos.of_uint_acc uint_value];
    [reflexivity | rewrite IHd; f_equal; lia ..].
Qed.

Lemma of_uint_value d : Z.of_uint d = uint_value 0 d.
Proof.
  unfold Z.of_uint. induction d; cbn [Pos.of_uint uint_value];
    [reflexivity | exact IHd | cbn [Z.of_N]; apply of_uint_acc_value ..].
Qed.

Ltac eval_digit :=
  match goal with
  | |- context [digit_val ?c] =>
      let v := eval vm_compute in (digit_val c) in
      change (digit_val c) with v
  end.

Lemma int_digits_uint d acc b :
  int_digits acc b (NilEmpty.string_of_uint d)
  = match d with
    | Decimal.Nil => if b then Some acc else None
    | _ => Some (uint_value acc d)
    end.
Proof.
  revert acc b. induction d; intros acc b;
    cbn [NilEmpty.string_of_uint]; [reflexivity |..];
    cbn [int_digits]; eval_digit; cbv iota beta; rewrite IHd;
    cbn [uint_value]; destruct d; reflexivity.
Qed.

Lemma py_int_str_int z : py_int (str_int z) = Some z.
Proof.
  unfold str_int. destruct z as [|p|p]; cbn [Z.to_int NilZero.string_of_int].
  - reflexivity.
  - pose proof (DecimalPos.Unsigned.to_uint_nonnil p) as Hnn.
    pose proof (DecimalZ.of_to (Z.pos p)) as Hz. cbn [Z.to_int Z.of_int] in Hz.
    pose proof (int_digits_uint (Pos.to_uint p) 0 false) as Hd.
    rewrite of_uint_value in Hz.
    replace (NilZero.string_of_uint (Pos.to_uint p))
      with (NilEmpty.string_of_uint (Pos.to_uint p))
      by (destruct (Pos.to_uint p); [congruence | reflexivity..]).
    destruct (Pos.to_uint p) eqn:Hp; [congruence |..];
      rewrite <- Hz, <- Hd; reflexivity.
  - pose proof (DecimalPos.Unsigned.to_uint_nonnil p) as Hnn.
    pose proof (DecimalZ.of_to (Z.neg p)) as Hz. cbn [Z.to_int Z.of_int] in Hz.
    pose proof (int_digits_uint (Pos.to_uint p) 0 false) as Hd.
    rewrite of_uint_value in Hz.
    replace (NilZero.string_of_uint (Pos.to_uint p))
      with (NilEmpty.string_of_uint (Pos.to_uint p))
      by (destruct (Pos.to_uint p); [congruence | reflexivity..]).
    unfold py_int.
    change (lstrip (String "-" (NilEmpty.string_of_uint (Pos.to_uint p))))
      with (String "-" (NilEmpty.string_of_uint (Pos.to_uint p))).
    change (Ascii.eqb "-" "-") with true. cbv iota. rewrite Hd.
    destruct (Pos.to_uint p); [congruence |..]; rewrite Hz; reflexivity.
Qed.

(** X16: [--ports] accepts the decimal text of every integer and reads it
    as that integer: [int] undoes [str], so the port a template gets as
    [str(ports[0])] is read back to the port that was given. *)
Theorem port_text_round_trip z ns :
  py_int (str_int z) = Some z /\
  exists ns',
    take_action Oports [str_int z] ns = Some ns' /\
    ns_ports ns' = Some [z].
Proof.
  split; [apply py_int_str_int |].
  cbn [take_action List.map all_some]. rewrite py_int_str_int.
  eexists. split; reflexivity.
Qed.

(** ** The characters of [chal.json] *)


Lemma plain_text_app a b :
  plain_text (a +:+ b) = plain_text a && plain_text b.
Proof.
  induction a as [|c r IH]; [reflexivity |].
  rewrite append_cons. cbn [plain_text]. rewrite IH, andb_assoc. reflexivity.
Qed.

Lemma plain_escape_char c : plain_text (escape_char c) = true.
Proof. destruct c as [[] [] [] [] [] [] [] []]; vm_compute; reflexivity. Qed.

Lemma plain_escape s : plain_text (escape s) = true.
Proof.
  induction s as [|c r IH]; [reflexivity |].
  cbn [escape]. rewrite plain_text_app, plain_escape_char, IH. reflexivity.
Qed.

Lemma plain_encode_str s : plain_text (encode_str s) = true.
Proof.
  unfold encode_str. cbn [plain_text].
  rewrite plain_text_app, plain_escape. reflexivity.
Qed.

Lemma plain_uint d : plain_text (NilEmpty.string_of_uint d) = true.
Proof. induction d; cbn [NilEmpty.string_of_uint plain_text]; auto. Qed.

Lemma plain_str_int z : plain_text (str_int z) = true.
Proof.
  unfold str_int. destruct (Z.to_int z) as [d|d];
    cbn [NilZero.string_of_int plain_text];
    destruct d; try reflexivity; apply plain_uint.
Qed.

Lemma plain_spaces n : plain_text (spaces n) = true.
Proof. induction n as [|k IH]; [reflexivity | exact IH]. Qed.

Lemma plain_newline_indent n : plain_text (newline_indent n) = true.
Proof.
  unfold newline_indent. rewrite plain_text_app, plain_spaces. reflexivity.
Qed.

Lemma plain_concat sep l :
  plain_text sep = true ->
  Forall (fun s => plain_text s = true) l ->
  plain_text (String.concat sep l) = true.
Proof.
  intros Hsep Hl. induction Hl as [|x r Hx Hr IH]; [reflexivity |].
  destruct r as [|y r']; [exact Hx |].
  change (String.concat sep (x :: y :: r'))
    with (x +:+ sep +:+ String.concat sep (y :: r')).
  rewrite !plain_text_app, Hx, Hsep, IH. reflexivity.
Qed.

Lemma plain_bracketed op cl level chunks :
  plain_text op = true ->
  plain_text cl = true ->
  Forall (fun s => plain_text s = true) chunks ->
  plain_text (bracketed op cl level chunks) = true.
Proof.
  intros Ho Hc Hl. unfold bracketed.
  destruct chunks as [|x r]; [rewrite plain_text_app, Ho, Hc; reflexivity |].
  rewrite !plain_text_app, Ho, Hc, !plain_newline_indent.
  rewrite plain_concat; [reflexivity | | exact Hl].
  rewrite plain_text_app, plain_newline_indent. reflexivity.
Qed.

Lemma Forall_insert_plain (kv : string * string) l :
  plain_text (snd kv) = true ->
  Forall (fun kv => plain_text (snd kv) = true) l ->
  Forall (fun kv => plain_text (snd kv) = true) (insert_item kv l).
Proof.
  intros Hkv Hl. induction Hl as [|x r Hx Hr IH]; simpl.
  - constructor; [exact Hkv | constructor].
  - destruct (String.leb (fst kv) (fst x)).
    + constructor; [exact Hkv |]. constructor; assumption.
    + constructor; assumption.
Qed.

Lemma Forall_sorted_plain (l : list (string * string)) :
  Forall (fun kv => plain_text (snd kv) = true) l ->
  Forall (fun kv => plain_text (snd kv) = true) (sorted_items l).
Proof.
  intros Hl. induction Hl as [|x r Hx Hr IH]; simpl; [constructor |].
  apply Forall_insert_plain; assumption.
Qed.

Lemma plain_encode v : forall level, plain_text (encode level v) = true.
Proof.
  induction v as [|z|s|l IH|l IH] using json_nested_ind; intros level;
    cbn [encode].
  - reflexivity.
  - apply plain_str_int.
  - apply plain_encode_str.
  - apply plain_bracketed; [reflexivity | reflexivity |].
    rewrite List.Forall_map.
    eapply List.Forall_impl; [| exact IH]. intros v Hv. apply Hv.
  - apply plain_bracketed; [reflexivity | reflexivity |].
    rewrite List.Forall_map.
    eapply List.Forall_impl; cycle 1.
    { apply Forall_sorted_plain. rewrite List.Forall_map.
      eapply List.Forall_impl; [| exact IH].
      intros kv Hkv. cbn [snd]. apply Hkv. }
    intros kv Hkv. cbv beta.
    rewrite !plain_text_app, plain_encode_str, Hkv. reflexivity.
Qed.

(** X17: whatever the fields hold, the text written to [chal.json] is plain
    ASCII: every character is printable ASCII or a newline, the others
    being escaped by [dumps]. *)
Theorem chal_json_is_plain_ascii c :
  plain_text (dumps (to_dict c)) = true.
Proof. apply plain_encode. Qed.

(** ** [chal.json] and the challenge *)

(** X18: two challenges with the same [chal.json] are the same challenge:
    the file determines every field. *)
Theorem chal_json_determines_challenge c1 c2 :
  dumps (to_dict c1) = dumps (to_dict c2) -> c1 = c2.
Proof.
  intros H. apply (f_equal loads) in H. rewrite !loads_dumps in H.
  rewrite !norm_to_dict in H.
  assert (Hd : sorted_dict c1 = sorted_dict c2) by congruence.
  pose proof (from_sorted_dict c1) as F1.
  pose proof (from_sorted_dict c2) as F2.
  rewrite Hd in F1. congruence.
Qed.

Lemma chal_json_determines_challenge_witness :
  with_ports example_challenge [1337%Z] = example_challenge.
Proof.
  apply (chal_json_determines_challenge (with_ports example_challenge [1337%Z])
           example_challenge).
  reflexivity.
Defined.

(** ** The type, as a word *)

Lemma type_of_value_inv v t : type_of_value v = Some t -> value t = v.
Proof.
  unfold type_of_value.
  destruct (String.eqb v "rev") eqn:H1;
    [apply String.eqb_eq in H1; intros H; inversion H; subst; reflexivity |].
  destruct (String.eqb v "pwn") eqn:H2;
    [apply String.eqb_eq in H2; intros H; inversion H; subst; reflexivity |].
  destruct (String.eqb v "crypto") eqn:H3;
    [apply String.eqb_eq in H3; intros H; inversion H; subst; reflexivity |].
  destruct (String.eqb v "web") eqn:H4;
    [apply String.eqb_eq in H4; intros H; inversion H; subst; reflexivity |].
  destruct (String.eqb v "misc") eqn:H5;
    [apply String.eqb_eq in H5; intros H; inversion H; subst; reflexivity |].
  discriminate.
Qed.


(** ** The text of a path, read as a path again *)


Lemma split_slash_no_slashes s :
  Forall (fun p => has_char slash p = false) (split_slash s).
Proof.
  induction s as [|c r IH]; [repeat constructor |]. cbn [split_slash].
  destruct (Ascii.eqb c slash) eqn:Hc.
  - constructor; [reflexivity | exact IH].
  - destruct (split_slash r) as [|h t].
    + constructor; [| constructor]. cbn [has_char]. rewrite Hc. reflexivity.
    + inversion IH as [|? ? Hh Ht]. subst.
      constructor; [| exact Ht]. cbn [has_char]. rewrite Hc. exact Hh.
Qed.

Lemma split_slash_app a b :
  has_char slash a = false ->
  split_slash (a +:+ String slash b) = a :: split_slash b.
Proof.
  induction a as [|c a' IH]; intros Ha.
  - reflexivity.
  - cbn [has_char] in Ha. apply orb_false_iff in Ha as [Hc Ha].
    rewrite append_cons. cbn [split_slash]. rewrite Hc, (IH Ha). reflexivity.
Qed.

Lemma concat_cons_cons (sep x y : string) r :
  String.concat sep (x :: y :: r) = x +:+ sep +:+ String.concat sep (y :: r).
Proof. reflexivity. Qed.

Lemma split_slash_concat ps :
  ps <> [] ->
  forallb (fun p => negb (has_char slash p)) ps = true ->
  split_slash (String.concat "/" ps) = ps.
Proof.
  induction ps as [|x r IH]; [congruence |]. intros _ H.
  cbn [forallb] in H. apply andb_prop in H as [Hx Hr].
  apply negb_true_iff in Hx.
  destruct r as [|y r'].
  - apply split_slash_no_slash, Hx.
  - rewrite concat_cons_cons.
    change ("/" +:+ String.concat "/" (y :: r'))
      with (String slash (String.concat "/" (y :: r'))).
    rewrite (split_slash_app _ _ Hx), IH;
      [reflexivity | discriminate | exact Hr].
Qed.

Lemma filter_keep_proper ps :
  forallb proper_part ps = true -> List.filter keep_part ps = ps.
Proof.
  induction ps as [|x r IH]; [reflexivity |]. cbn [forallb List.filter].
  intros H. apply andb_prop in H as [Hx Hr].
  unfold proper_part in Hx. apply andb_prop in Hx as [Hk _].
  rewrite Hk, (IH Hr). reflexivity.
Qed.

Lemma proper_no_slash ps :
  forallb proper_part ps = true ->
  forallb (fun p => negb (has_char slash p)) ps = true.
Proof.
  induction ps as [|x r IH]; [reflexivity |]. cbn [forallb].
  intros H. apply andb_prop in H as [Hx Hr].
  unfold proper_part in Hx. apply andb_prop in Hx as [_ Hs].
  rewrite Hs, (IH Hr). reflexivity.
Qed.

Lemma concat_starts x r :
  proper_part x = true ->
  starts_with_slash (String.concat "/" (x :: r)) = false.
Proof.
  unfold proper_part, keep_part. intros H.
  apply andb_prop in H as [Hk Hs]. apply andb_prop in Hk as [Hne _].
  apply negb_true_iff in Hs.
  destruct x as [|c x']; [discriminate Hne |].
  cbn [has_char] in Hs. apply orb_false_iff in Hs as [Hc _].
  destruct r; simpl; exact Hc.
Qed.

(** [Path(str(p))] is [p] again. *)
Lemma Path_of_path_str p : normal p = true -> Path_of (path_str p) = p.
Proof.
  destruct p as [a ps]. unfold normal, path_str, Path_of. cbn [anchored parts].
  intros H. destruct a.
  - change (starts_with_slash ("/" +:+ String.concat "/" ps)) with true.
    change (split_slash ("/" +:+ String.concat "/" ps))
      with ("" :: split_slash (String.concat "/" ps)).
    cbn [List.filter]. change (keep_part "") with false. cbv iota.
    destruct ps as [|x r]; [reflexivity |].
    rewrite split_slash_concat;
      [| discriminate | apply proper_no_slash, H].
    rewrite (filter_keep_proper _ H). reflexivity.
  - destruct ps as [|x r]; [reflexivity |].
    rewrite concat_starts by (cbn [forallb] in H; apply andb_prop in H; tauto).
    rewrite split_slash_concat;
      [| discriminate | apply proper_no_slash, H].
    rewrite (filter_keep_proper _ H). reflexivity.
Qed.

Lemma normal_Path_of s : normal (Path_of s) = true.
Proof.
  unfold normal, Path_of. cbn [parts].
  pose proof (split_slash_no_slashes s) as Hs.
  induction Hs as [|x r Hx Hr IH]; [reflexivity |]. cbn [List.filter].
  destruct (keep_part x) eqn:Hk; [| exact IH].
  cbn [forallb]. rewrite IH. unfold proper_part. rewrite Hk, Hx. reflexivity.
Qed.

Lemma normal_joinpath p s : normal p = true -> normal (joinpath p s) = true.
Proof.
  intros Hp. unfold joinpath.
  pose proof (normal_Path_of s) as Hq.
  destruct (anchored (Path_of s)); [exact Hq |].
  unfold normal in *. cbn [parts]. rewrite forallb_app, Hp, Hq. reflexivity.
Qed.

Lemma forallb_prefix {A} (f : A -> bool) (j l : list A) :
  j `prefix_of` l -> forallb f l = true -> forallb f j = true.
Proof.
  intros [r ->]. rewrite forallb_app. intros H.
  apply andb_prop in H. tauto.
Qed.

Lemma normal_category_dir E c fs cld :
  category_dir E c fs = Some cld ->
  forallb proper_part (cwd E) = true ->
  normal cld = true.
Proof.
  unfold category_dir. intros H Hcwd. destruct (target c) as [t|].
  - inversion H. apply normal_Path_of.
  - destruct (search_up fs (rev (cwd E))) as [k|] eqn:Hs; [| discriminate H].
    inversion H. apply normal_joinpath. unfold normal. cbn [parts].
    apply search_up_found in Hs as (Hpre & _). rewrite rev_involutive in Hpre.
    exact (forallb_prefix _ _ _ Hpre Hcwd).
Qed.



(** ** Words the parser has no use for *)

Lemma single_extras values ns store ns' :
  single values ns store = Some ns' ->
  exists v more ns1,
    values = v :: more /\ store v = Some ns1 /\
    extras ns' = extras ns1 ++ more.
Proof.
  unfold single. destruct values as [|v more]; [discriminate |].
  destruct (store v) as [ns1|] eqn:Hs; [| discriminate].
  intros H. inversion H. exists v, more, ns1. auto.
Qed.

Lemma take_action_extras o values ns ns' :
  take_action o values ns = Some ns' ->
  extras ns' = [] ->
  extras ns = [] /\ surplus (Opt o values) = false.
Proof.
  intros H Hnil.
  destruct o; cbn [take_action] in H; cbn [surplus takes_one];
    try (apply single_extras in H as (v & more & ns1 & -> & Hs & He);
         cbv beta in Hs; rewrite Hnil in He; symmetry in He;
         apply app_eq_nil in He as [He ->]).
  - destruct (type_of_value v); [| discriminate Hs]. inversion Hs. subst ns1.
    auto.
  - inversion Hs. subst ns1. auto.
  - inversion Hs. subst ns1. auto.
  - destruct values as [|v r]; [discriminate H |]. inversion H. subst ns'.
    split; [exact Hnil | destruct r; reflexivity].
  - destruct (in_choices v difficulty_choices); [| discriminate Hs].
    inversion Hs. subst ns1. auto.
  - inversion Hs. subst ns1. auto.
  - destruct values as [|v r]; [discriminate H |]. inversion H. subst ns'.
    split; [exact Hnil | destruct r; reflexivity].
  - destruct values as [|v r]; [discriminate H |].
    destruct (all_some (List.map py_int (v :: r))); [| discriminate H].
    inversion H. subst ns'. split; [exact Hnil | destruct r; reflexivity].
  - destruct values as [|v r]; [discriminate H |]. inversion H. subst ns'.
    split; [exact Hnil | destruct r; reflexivity].
  - inversion Hs. subst ns1. auto.
Qed.

Lemma consume_parsed_no_surplus args ns ns' :
  consume args ns = Parsed ns' ->
  extras ns = [] /\ existsb surplus args = false.
Proof.
  revert ns. induction args as [|a r IH]; intros ns H; simpl in H.
  - destruct (required_present ns); [| discriminate H].
    destruct (extras ns) eqn:He; [| discriminate H]. auto.
  - destruct a as [o values| |word].
    + destruct (take_action o values ns) as [ns1|] eqn:Ht; [| discriminate H].
      destruct (IH ns1 H) as [He Hr].
      destruct (take_action_extras _ _ _ _ Ht He) as [He0 Hs].
      split; [exact He0 |]. cbn [existsb]. rewrite Hs, Hr. reflexivity.
    + discriminate H.
    + destruct (IH _ H) as [He _]. cbn [extras] in He.
      apply app_eq_nil in He as [_ He]. discriminate He.
Qed.



(** ** The name, as a path *)

Lemma joinpath_absolute p s :
  starts_with_slash s = true -> joinpath p s = Path_of s.
Proof.
  intros H. unfold joinpath. cbn [Path_of anchored]. rewrite H. reflexivity.
Qed.

(** X22: the name is joined to the category directory as a path, without a
    check: when it starts with a slash it replaces the category
    directory altogether, and a run that succeeds has put the
    challenge at that absolute path, whatever the target and the type
    say. *)
Theorem absolute_name_overrides_target E c fs w' :
  starts_with_slash (name c) = true ->
  run (create_challenge E c) fs = (w', Ok tt) ->
  challenge_dir E c fs = Some (Path_of (name c)) /\
  exists kd,
    resolve E (Path_of (name c)) = Some kd /\
    files w' !! (kd ++ ["solve"; "flag.txt"]) = Some (File (flag c)).
Proof.
  intros Habs H.
  apply create_challenge_ok_inv in H as (kd & w0 & Hk & _ & ->).
  unfold challenge_key, challenge_dir in *.
  destruct (category_dir E c fs) as [cld|]; [| discriminate Hk].
  rewrite (joinpath_absolute _ _ Habs) in *.
  split; [reflexivity |]. exists kd.
  split; [exact Hk |]. cbn [files]. apply stubs_files_flag.
Qed.


Lemma absolute_name_overrides_target_witness :
  challenge_dir example_env example_absolute srv_fs
  = Some (Path_of (name example_absolute)) /\
  exists kd,
    resolve example_env (Path_of (name example_absolute)) = Some kd /\
    files (fst (run (create_challenge example_env example_absolute) srv_fs))
      !! (kd ++ ["solve"; "flag.txt"])
    = Some (File (flag example_absolute)).
Proof.
  apply (absolute_name_overrides_target example_env example_absolute srv_fs).
  - reflexivity.
  - vm_compute. reflexivity.
Defined.

(** ** The way to the challenge directory *)

Lemma well_formed_prefixes (m : fsmap) k :
  well_formed m ->
  stat m k = Some Dir ->
  forall j, j `prefix_of` k -> stat m j = Some Dir.
Proof.
  intros Hwf. induction k as [|x k' IH] using rev_ind; intros Hk j Hj.
  - apply prefix_nil_inv in Hj. subst j. reflexivity.
  - apply prefix_snoc_inv in Hj as [->|Hj]; [exact Hk |].
    apply IH; [| exact Hj].
    rewrite stat_lookup in Hk by apply snoc_not_nil.
    pose proof (Hwf _ _ Hk) as Hp. rewrite parent_snoc in Hp. exact Hp.
Qed.

(** X23: after a run that succeeds in a well-formed file system, the
    challenge directory and every directory on the way to it from the
    root are there, as directories. *)
Theorem way_to_challenge_exists E c fs w' :
  well_formed fs ->
  run (create_challenge E c) fs = (w', Ok tt) ->
  exists kd,
    challenge_key E c fs = Some kd /\
    forall j, j `prefix_of` kd -> stat (files w') j = Some Dir.
Proof.
  intros Hwf H.
  pose proof (changes_well_formed _ _ _ (run_reached E c fs) Hwf) as Hwf'.
  rewrite H in Hwf'. cbn [fst] in Hwf'.
  apply create_challenge_ok_inv in H as (kd & w0 & Hk & Hd & ->).
  exists kd. split; [exact Hk |].
  apply well_formed_prefixes; [exact Hwf' |]. cbn [files].
  unfold stubs_files. rewrite !stat_insert_ne by key_neq. exact Hd.
Qed.

Lemma well_formed_empty : well_formed empty_fs.
Proof.
  intros k n H. unfold empty_fs in H. rewrite lookup_empty in H.
  discriminate H.
Qed.

Lemma way_to_challenge_exists_witness :
  exists kd,
    challenge_key example_env example_remote empty_fs = Some kd /\
    forall j,
      j `prefix_of` kd ->
      stat (files (fst (run (create_challenge example_env example_remote)
                          empty_fs))) j
      = Some Dir.
Proof.
  apply (way_to_challenge_exists example_env example_remote empty_fs).
  - apply well_formed_empty.
  - vm_compute. reflexivity.
Defined.
